(** * The 2D character mover of realm-poc-viewer

    A shallow embedding of the [Character] class of [src/src/Character.js]
    (the TypeScript twin [src/src/Character.ts] has the same method bodies;
    only its default speed differs) and of the fixed-step [Character] class
    bundled in [src/unnamed/part_000], and of the two [Game] classes that
    drive them: the one of [src/src/Game.js] and the one of
    [src/unnamed/part_000].

    JavaScript numbers are IEEE 754 binary64 values, so every coordinate,
    speed, bound and time delta is a primitive [float]; [Infinity],
    [-Infinity], [NaN] and the two zeros are ordinary values of that type,
    exactly as in the source. *)

From Stdlib Require Import Floats ZArith QArith Bool Lia List String.
Import ListNotations.

#[local] Set Warnings "-inexact-float".

Local Open Scope float_scope.

(** ** ECMAScript [Math] functions used by the class *)

Module Math.

(** [Math.max(a, b)]: [NaN] if either argument is [NaN]; otherwise the larger
    one, [+0] counting as larger than [-0]. *)
Definition max (a b : float) : float :=
  if is_nan a || is_nan b then nan
  else if a <? b then b
  else if b <? a then a
  else if Leibniz.eqb a neg_zero then b else a.

(** [Math.min(a, b)]: [NaN] if either argument is [NaN]; otherwise the smaller
    one, [-0] counting as smaller than [+0]. *)
Definition min (a b : float) : float :=
  if is_nan a || is_nan b then nan
  else if a <? b then a
  else if b <? a then b
  else if Leibniz.eqb a neg_zero then a else b.

(** [Math.sqrt], as the engines compute it: the correctly rounded IEEE
    square root. *)
Definition sqrt (a : float) : float := PrimFloat.sqrt a.

End Math.

(** ** Data model *)

(** An object literal [{ x, y }]: the direction vector, the argument of
    [isCollidingWith] and the result of [getPosition]. *)
Module Vec.
Record t : Set := mk { x : float; y : float }.
End Vec.

(** The boundary object [{ minX, maxX, minY, maxY }]. *)
Module Boundary.
Record t : Set := mk { minX : float; maxX : float; minY : float; maxY : float }.

(** The literal installed by the constructor when no boundary is passed. *)
Definition unbounded : t := mk neg_infinity infinity neg_infinity infinity.
End Boundary.

(** A default parameter [p = d]: [undefined] selects the default. *)
Definition default_arg {A : Type} (d : A) (a : option A) : A :=
  match a with Some v => v | None => d end.

(** ** [class Character] of [src/src/Character.js] *)

Module Character.

Record t : Set := mk {
  x : float;
  y : float;
  speed : float;
  direction : Vec.t;
  boundary : Boundary.t
}.

(** [constructor(startX = 0, startY = 0, speed = 10, boundary)];
    [boundary || {...}] falls back to the unbounded rectangle. *)
Definition constructor (startX startY speed0 : option float)
    (boundary0 : option Boundary.t) : t :=
  mk (default_arg 0 startX) (default_arg 0 startY) (default_arg 10 speed0)
     (Vec.mk 0 0)
     (default_arg Boundary.unbounded boundary0).

(** The candidate coordinates of [update], before the boundary is applied:
    [this.x + this.direction.x * this.speed * (deltaTime / 1000)]. *)
Definition candidateX (c : t) (deltaTime : float) : float :=
  let movementX := Vec.x (direction c) * speed c * (deltaTime / 1000) in
  x c + movementX.

Definition candidateY (c : t) (deltaTime : float) : float :=
  let movementY := Vec.y (direction c) * speed c * (deltaTime / 1000) in
  y c + movementY.

(** [update(deltaTime)] *)
Definition update (c : t) (deltaTime : float) : t :=
  let movementX := Vec.x (direction c) * speed c * (deltaTime / 1000) in
  let movementY := Vec.y (direction c) * speed c * (deltaTime / 1000) in
  let newX := x c + movementX in
  let newY := y c + movementY in
  let newX := Math.max (Boundary.minX (boundary c))
                       (Math.min (Boundary.maxX (boundary c)) newX) in
  let newY := Math.max (Boundary.minY (boundary c))
                       (Math.min (Boundary.maxY (boundary c)) newY) in
  mk newX newY (speed c) (direction c) (boundary c).

(** [setDirection(x, y)] *)
Definition setDirection (c : t) (x0 y0 : float) : t :=
  let length := Math.sqrt (x0 * x0 + y0 * y0) in
  if 0 <? length
  then mk (x c) (y c) (speed c) (Vec.mk (x0 / length) (y0 / length)) (boundary c)
  else mk (x c) (y c) (speed c) (Vec.mk 0 0) (boundary c).

(** [isCollidingWith(other, radius = 32)] *)
Definition isCollidingWith (c : t) (other : Vec.t) (radius : option float) : bool :=
  let radius := default_arg 32 radius in
  let dx := x c - Vec.x other in
  let dy := y c - Vec.y other in
  let distance := Math.sqrt (dx * dx + dy * dy) in
  distance <? radius * 2.

Definition getX (c : t) : float := x c.
Definition getY (c : t) : float := y c.
Definition getPosition (c : t) : Vec.t := Vec.mk (x c) (y c).
Definition getSpeed (c : t) : float := speed c.

(** [setSpeed(newSpeed)] *)
Definition setSpeed (c : t) (newSpeed : float) : t :=
  mk (x c) (y c) (Math.max 0 newSpeed) (direction c) (boundary c).

(** The methods of the class as a command language, and their effect on the
    object.  The getters and [isCollidingWith] only read. *)
Inductive method : Set :=
| Update (deltaTime : float)
| SetDirection (x0 y0 : float)
| SetSpeed (newSpeed : float)
| IsCollidingWith (other : Vec.t) (radius : option float)
| GetX
| GetY
| GetPosition
| GetSpeed.

Definition call (c : t) (m : method) : t :=
  match m with
  | Update dt => update c dt
  | SetDirection x0 y0 => setDirection c x0 y0
  | SetSpeed s => setSpeed c s
  | IsCollidingWith _ _ | GetX | GetY | GetPosition | GetSpeed => c
  end.

(** [n] successive calls of [update] with the same time delta. *)
Fixpoint updates (n : nat) (c : t) (deltaTime : float) : t :=
  match n with
  | O => c
  | S k => updates k (update c deltaTime) deltaTime
  end.

End Character.

(** ** [class Character] of [src/unnamed/part_000]

    Same fields and constructor; [update] takes no time delta and steps by
    a fixed 10 units, and [setDirection] stores its arguments as they are. *)

Module FixedStep.

Definition update (c : Character.t) : Character.t :=
  let x1 := if Vec.x (Character.direction c) <? 0
            then Math.max (Boundary.minX (Character.boundary c)) (Character.x c - 10)
            else Character.x c in
  let x2 := if 0 <? Vec.x (Character.direction c)
            then Math.min (Boundary.maxX (Character.boundary c)) (x1 + 10)
            else x1 in
  let y1 := if Vec.y (Character.direction c) <? 0
            then Math.max (Boundary.minY (Character.boundary c)) (Character.y c - 10)
            else Character.y c in
  let y2 := if 0 <? Vec.y (Character.direction c)
            then Math.min (Boundary.maxY (Character.boundary c)) (y1 + 10)
            else y1 in
  Character.mk x2 y2 (Character.speed c) (Character.direction c)
               (Character.boundary c).

Definition setDirection (c : Character.t) (x0 y0 : float) : Character.t :=
  Character.mk (Character.x c) (Character.y c) (Character.speed c)
               (Vec.mk x0 y0) (Character.boundary c).

End FixedStep.

(** * The games that drive the character

    [class Game] of [src/src/Game.js] (the TypeScript twin [src/src/Game.ts]
    has the same method bodies) and [class Game] of [src/unnamed/part_000].
    The page is the environment: it reports the size of the canvas, delivers
    key events, animation frames and resizes, and answers
    [performance.now()]; those values are arguments of the model.  What a
    method writes to the console or draws on the canvas is returned as a
    list. *)

(** [Math.PI] *)
Definition PI : float := 0x1.921fb54442d18p+1.

(** ** The canvas of the page, as the game uses it *)

Module Canvas.

Record t : Set := mk { width : float; height : float }.

(** The calls [draw] makes on the 2D context, in the order it makes them. *)
Inductive command : Set :=
| clearRect (x y w h : float)
| fillStyle (color : string)
| beginPath
| arc (x y radius startAngle endAngle : float)
| fill.

End Canvas.

(** The four keys both games listen to. *)
Definition arrow_keys : list string :=
  ["ArrowUp"; "ArrowDown"; "ArrowLeft"; "ArrowRight"]%string.

(** ** [class Game] of [src/src/Game.js] *)

Module Game.

Record t : Set := mk {
  canvas : Canvas.t;
  character : Character.t;
  objects : list Vec.t
}.

Definition constructor (canvas0 : Canvas.t) : t :=
  mk canvas0
     (Character.constructor (Some 400) (Some 300) (Some 5)
        (Some (Boundary.mk 0 (Canvas.width canvas0) 0 (Canvas.height canvas0))))
     [Vec.mk 100 100; Vec.mk 200 200; Vec.mk 300 300].

Definition with_character (g : t) (c : Character.t) : t :=
  mk (canvas g) c (objects g).

(** The [keydown] listener of [setupControls]: a [switch] on [event.key]. *)
Definition keydown (g : t) (key : string) : t :=
  if String.eqb key "ArrowUp" then
    with_character g (Character.setDirection (character g) 0 (-1))
  else if String.eqb key "ArrowDown" then
    with_character g (Character.setDirection (character g) 0 1)
  else if String.eqb key "ArrowLeft" then
    with_character g (Character.setDirection (character g) (-1) 0)
  else if String.eqb key "ArrowRight" then
    with_character g (Character.setDirection (character g) 1 0)
  else g.

(** The [keyup] listener. *)
Definition keyup (g : t) (key : string) : t :=
  if existsb (String.eqb key) arrow_keys then
    with_character g (Character.setDirection (character g) 0 0)
  else g.

Definition draw (g : t) : list Canvas.command :=
  [ Canvas.clearRect 0 0 (Canvas.width (canvas g)) (Canvas.height (canvas g));
    Canvas.fillStyle "blue";
    Canvas.beginPath;
    Canvas.arc (Character.getX (character g)) (Character.getY (character g))
               20 0 (PI * 2);
    Canvas.fill;
    Canvas.fillStyle "red" ] ++
  flat_map (fun obj =>
              [ Canvas.beginPath;
                Canvas.arc (Vec.x obj) (Vec.y obj) 20 0 (PI * 2);
                Canvas.fill ])
           (objects g).

(** [update] returns the new state and the lines it writes to the console. *)
Definition update (g : t) (deltaTime : float) : t * list string :=
  let c := Character.update (character g) deltaTime in
  (with_character g c,
   flat_map (fun obj =>
               if Character.isCollidingWith c obj None
               then ["Collision detected!"%string] else [])
            (objects g)).

(** One turn of the game loop: the new state, the console lines and the
    drawing calls.  The turn ends by asking for the next animation frame. *)
Definition gameLoop (g : t) : t * (list string * list Canvas.command) :=
  let (g1, log) := update g 16 in
  (g1, (log, draw g1)).

Definition start (g : t) : t * (list string * list Canvas.command) :=
  gameLoop g.

(** What the page delivers to the game: key events and animation frames. *)
Inductive event : Set :=
| KeyDown (key : string)
| KeyUp (key : string)
| AnimationFrame.

Definition handle (g : t) (e : event) : t :=
  match e with
  | KeyDown key => keydown g key
  | KeyUp key => keyup g key
  | AnimationFrame => fst (gameLoop g)
  end.

Definition run (g : t) (es : list event) : t := fold_left handle es g.

End Game.

(** ** [class Game] of [src/unnamed/part_000] *)

Module Keys.

(** The object [this.keys]: one boolean property per arrow key. *)
Record t : Set := mk {
  ArrowUp : bool;
  ArrowDown : bool;
  ArrowLeft : bool;
  ArrowRight : bool
}.

Definition hasOwnProperty (key : string) : bool :=
  existsb (String.eqb key) arrow_keys.

(** [this.keys[key] = v], for a [key] the object has. *)
Definition set (k : t) (key : string) (v : bool) : t :=
  if String.eqb key "ArrowUp" then mk v (ArrowDown k) (ArrowLeft k) (ArrowRight k)
  else if String.eqb key "ArrowDown" then mk (ArrowUp k) v (ArrowLeft k) (ArrowRight k)
  else if String.eqb key "ArrowLeft" then mk (ArrowUp k) (ArrowDown k) v (ArrowRight k)
  else if String.eqb key "ArrowRight" then mk (ArrowUp k) (ArrowDown k) (ArrowLeft k) v
  else k.

End Keys.

Module FixedStepGame.

Record t : Set := mk {
  canvas : Canvas.t;
  character : Character.t;
  objects : list Vec.t;
  keys : Keys.t;
  lastTime : float;
  fps : float;
  frameCount : float;
  lastFpsUpdate : float
}.

(** The constructor sizes the canvas first, by a call of [resizeCanvas] that
    finds no character yet; [canvas0] is the canvas that call leaves, and
    [now0], [now1] are the two readings of [performance.now()]. *)
Definition constructor (canvas0 : Canvas.t) (now0 now1 : float) : t :=
  mk canvas0
     (Character.constructor (Some 400) (Some 300) (Some 5000)
        (Some (Boundary.mk 0 (Canvas.width canvas0) 0 (Canvas.height canvas0))))
     [Vec.mk 100 100; Vec.mk 200 200; Vec.mk 300 300]
     (Keys.mk false false false false)
     now0 0 0 now1.

Definition with_character (g : t) (c : Character.t) : t :=
  mk (canvas g) c (objects g) (keys g) (lastTime g) (fps g) (frameCount g)
     (lastFpsUpdate g).

(** [resizeCanvas] on a constructed game.  [canvas1] is the canvas as it reads
    after the two assignments to its width and height. *)
Definition resizeCanvas (g : t) (canvas1 : Canvas.t) : t :=
  mk canvas1
     (Character.mk (Character.x (character g)) (Character.y (character g))
                   (Character.speed (character g))
                   (Character.direction (character g))
                   (Boundary.mk 0 (Canvas.width canvas1) 0 (Canvas.height canvas1)))
     (objects g) (keys g) (lastTime g) (fps g) (frameCount g) (lastFpsUpdate g).

Definition updateCharacterDirection (g : t) : t :=
  let x0 := 0 in
  let y0 := 0 in
  let x1 := if Keys.ArrowLeft (keys g) then -1 else x0 in
  let x2 := if Keys.ArrowRight (keys g) then 1 else x1 in
  let y1 := if Keys.ArrowUp (keys g) then -1 else y0 in
  let y2 := if Keys.ArrowDown (keys g) then 1 else y1 in
  with_character g (FixedStep.setDirection (character g) x2 y2).

Definition with_keys (g : t) (k : Keys.t) : t :=
  mk (canvas g) (character g) (objects g) k (lastTime g) (fps g) (frameCount g)
     (lastFpsUpdate g).

Definition keydown (g : t) (key : string) : t :=
  if Keys.hasOwnProperty key
  then updateCharacterDirection (with_keys g (Keys.set (keys g) key true))
  else g.

Definition keyup (g : t) (key : string) : t :=
  if Keys.hasOwnProperty key
  then updateCharacterDirection (with_keys g (Keys.set (keys g) key false))
  else g.

(** [update]: [now] is the reading of [performance.now()] it takes. *)
Definition update (g : t) (now : float) : t * list string :=
  let c := FixedStep.update (character g) in
  let log := flat_map (fun obj =>
                         if Character.isCollidingWith c obj None
                         then ["Collision detected!"%string] else [])
                      (objects g) in
  let frameCount1 := frameCount g + 1 in
  if 1000 <=? now - lastFpsUpdate g
  then (mk (canvas g) c (objects g) (keys g) (lastTime g) frameCount1 0 now, log)
  else (mk (canvas g) c (objects g) (keys g) (lastTime g) (fps g) frameCount1
           (lastFpsUpdate g), log).

(** What the page delivers: key events, window resizes and calls of
    [update] from the game loop.  The game loop itself and [draw], which
    formats the FPS as text, are not part of the model of this class. *)
Inductive event : Set :=
| KeyDown (key : string)
| KeyUp (key : string)
| Resize (canvas1 : Canvas.t)
| Update (now : float).

Definition handle (g : t) (e : event) : t :=
  match e with
  | KeyDown key => keydown g key
  | KeyUp key => keyup g key
  | Resize canvas1 => resizeCanvas g canvas1
  | Update now => fst (update g now)
  end.

Definition run (g : t) (es : list event) : t := fold_left handle es g.

End FixedStepGame.

(** ** Vocabulary of the specification *)

(** Comparisons of numbers, as JavaScript's [<=], [<] and [==] decide them.
    [feq] identifies [+0] and [-0] and holds of no [NaN]. *)
Definition fle (a b : float) : Prop := (a <=? b) = true.
Definition flt (a b : float) : Prop := (a <? b) = true.
Definition feq (a b : float) : Prop := (a =? b) = true.

(** Two points with numerically equal coordinates. *)
Definition same_point (p q : Vec.t) : Prop :=
  feq (Vec.x p) (Vec.x q) /\ feq (Vec.y p) (Vec.y q).

(** Classification of the IEEE values a [float] denotes. *)
Definition SFis_finite (f : spec_float) : bool :=
  match f with S754_zero _ | S754_finite _ _ _ => true | _ => false end.

Definition SFis_nan (f : spec_float) : bool :=
  match f with S754_nan => true | _ => false end.

(** The rational number a finite [float] stands for: [+-m * 2^e]. *)
Definition exact (f : float) : option Q :=
  match Prim2SF f with
  | S754_zero _ => Some 0%Q
  | S754_finite s m e =>
      Some match e with
           | Zneg p => Qmake (cond_Zopp s (Zpos m)) (2 ^ p)
           | _ => inject_Z (cond_Zopp s (Zpos m) * 2 ^ e)
           end
  | _ => None
  end.

(** [x * x + y * y] in exact arithmetic. *)
Definition exact_sum_of_squares (x y : float) : option Q :=
  match exact x, exact y with
  | Some qx, Some qy => Some (Qplus (Qmult qx qx) (Qmult qy qy))
  | _, _ => None
  end.

(** The magnitude of a vector, evaluated in doubles the way the class
    evaluates a length ([Math.sqrt(x * x + y * y)]). *)
Definition magnitude (d : Vec.t) : float :=
  Math.sqrt (Vec.x d * Vec.x d + Vec.y d * Vec.y d).

(** The Euclidean distance of two points, evaluated in doubles. *)
Definition distance (a b : Vec.t) : float :=
  Math.sqrt ((Vec.x a - Vec.x b) * (Vec.x a - Vec.x b)
             + (Vec.y a - Vec.y b) * (Vec.y a - Vec.y b)).

(** A unit-or-zero vector in the exact sense: its components are finite and
    the exact sum of their squares is 1 or 0. *)
Definition unit_or_zero (d : Vec.t) : Prop :=
  exists q, exact_sum_of_squares (Vec.x d) (Vec.y d) = Some q /\
            (q == 0 \/ q == 1)%Q.

(** Both components lie in [[-1, 1]].  Every unit-or-zero vector satisfies it
    ([unit_or_zero_at_most_unit] below), and so does every vector
    [setDirection] stores for the key combinations, whose magnitude is 1 only
    up to rounding. *)
Definition at_most_unit (d : Vec.t) : Prop :=
  fle (abs (Vec.x d)) 1 /\ fle (abs (Vec.y d)) 1.

(** The zero vector (either zero in each component). *)
Definition is_zero_vector (d : Vec.t) : Prop :=
  feq (Vec.x d) 0 /\ feq (Vec.y d) 0.

(** A bound is a finite number or absent: a lower bound is absent as
    [-Infinity], an upper bound as [Infinity]. *)
Definition lower_bound (lo : float) : Prop :=
  lo = neg_infinity \/ is_finite lo = true.

Definition upper_bound (hi : float) : Prop :=
  hi = infinity \/ is_finite hi = true.

(** The declared invariant of a boundary: [min <= max] on each axis when both
    are finite. *)
Definition boundary_invariant (b : Boundary.t) : Prop :=
  lower_bound (Boundary.minX b) /\ upper_bound (Boundary.maxX b) /\
  (is_finite (Boundary.minX b) = true -> is_finite (Boundary.maxX b) = true ->
   fle (Boundary.minX b) (Boundary.maxX b)) /\
  lower_bound (Boundary.minY b) /\ upper_bound (Boundary.maxY b) /\
  (is_finite (Boundary.minY b) = true -> is_finite (Boundary.maxY b) = true ->
   fle (Boundary.minY b) (Boundary.maxY b)).

(** The point [(px, py)] lies in the closed rectangle. *)
Definition inside (b : Boundary.t) (px py : float) : bool :=
  (Boundary.minX b <=? px) && (px <=? Boundary.maxX b) &&
  (Boundary.minY b <=? py) && (py <=? Boundary.maxY b).

(** Clamping to a closed interval, as [update] writes it. *)
Definition clamp (lo hi v : float) : float := Math.max lo (Math.min hi v).

(** The position [update] is specified to return when nothing moves. *)
Definition clamped_position (c : Character.t) : Vec.t :=
  Vec.mk (clamp (Boundary.minX (Character.boundary c))
                (Boundary.maxX (Character.boundary c)) (Character.x c))
         (clamp (Boundary.minY (Character.boundary c))
                (Boundary.maxY (Character.boundary c)) (Character.y c)).

(** The raw directions the keyboard handlers pass to [setDirection]: every
    combination of [-1], [0] and [1] on the two axes. *)
Definition key_inputs : list (float * float) :=
  [ (-1, -1); (-1, 0); (-1, 1); (0, -1); (0, 0); (0, 1); (1, -1); (1, 0); (1, 1) ].

(** Whether a method is [update]. *)
Definition is_update (m : Character.method) : bool :=
  match m with Character.Update _ => true | _ => false end.

(** The value of a finite double in units of [2^-1074], the spacing of the
    smallest doubles: an integer. *)
Definition SFvalue (f : spec_float) : Z :=
  match f with
  | S754_finite s m e => cond_Zopp s (Z.pos m * 2 ^ (e + 1074))
  | _ => 0%Z
  end.

(** ** Vocabulary of the games *)

(** The heading an arrow key stands for. *)
Definition arrow_vector (key : string) : Vec.t :=
  if String.eqb key "ArrowUp" then Vec.mk 0 (-1)
  else if String.eqb key "ArrowDown" then Vec.mk 0 1
  else if String.eqb key "ArrowLeft" then Vec.mk (-1) 0
  else if String.eqb key "ArrowRight" then Vec.mk 1 0
  else Vec.mk 0 0.

Definition is_arrow (key : string) : bool := existsb (String.eqb key) arrow_keys.

(** The press or release of an arrow key. *)
Definition arrow_event (e : Game.event) : bool :=
  match e with
  | Game.KeyDown key | Game.KeyUp key => is_arrow key
  | Game.AnimationFrame => false
  end.

(** A canvas whose width and height are finite and not negative, as the
    page reports them. *)
Definition canvas_sized (cv : Canvas.t) : Prop :=
  is_finite (Canvas.width cv) = true /\ fle 0 (Canvas.width cv) /\
  is_finite (Canvas.height cv) = true /\ fle 0 (Canvas.height cv).

(** The boundary both games give the character: the canvas. *)
Definition canvas_boundary (cv : Canvas.t) : Boundary.t :=
  Boundary.mk 0 (Canvas.width cv) 0 (Canvas.height cv).

Definition on_canvas (cv : Canvas.t) (c : Character.t) : Prop :=
  inside (canvas_boundary cv) (Character.x c) (Character.y c) = true.

(** What every event of [Game] preserves. *)
Definition game_invariant (cv : Canvas.t) (g : Game.t) : Prop :=
  Game.canvas g = cv /\
  Game.objects g = [Vec.mk 100 100; Vec.mk 200 200; Vec.mk 300 300] /\
  Character.boundary (Game.character g) = canvas_boundary cv /\
  Character.speed (Game.character g) = 5 /\
  is_finite (Character.x (Game.character g)) = true /\
  is_finite (Character.y (Game.character g)) = true /\
  at_most_unit (Character.direction (Game.character g)).

(** [FixedStepGame]: whether [key] is held down after the events, listed
    newest first: its most recent press or release is a press. *)
Fixpoint latest (key : string) (newest_first : list FixedStepGame.event) : bool :=
  match newest_first with
  | [] => false
  | FixedStepGame.KeyDown k :: older =>
      if String.eqb k key then true else latest key older
  | FixedStepGame.KeyUp k :: older =>
      if String.eqb k key then false else latest key older
  | _ :: older => latest key older
  end.

Definition is_down (key : string) (es : list FixedStepGame.event) : bool :=
  latest key (rev es).

(** The heading the held keys stand for: right wins over left, down over
    up. *)
Definition held_heading (es : list FixedStepGame.event) : Vec.t :=
  Vec.mk (if is_down "ArrowRight" es then 1
          else if is_down "ArrowLeft" es then -1 else 0)
         (if is_down "ArrowDown" es then 1
          else if is_down "ArrowUp" es then -1 else 0).

Definition is_resize (e : FixedStepGame.event) : bool :=
  match e with FixedStepGame.Resize _ => true | _ => false end.

Definition is_key_event (e : FixedStepGame.event) : bool :=
  match e with
  | FixedStepGame.KeyDown _ | FixedStepGame.KeyUp _ => true
  | _ => false
  end.

(** [FixedStepGame]: the calls of [update] among the events, and the events
    at which no refresh of the FPS counter is due, the last refresh having
    taken place at clock reading [t]. *)
Definition is_update_event (e : FixedStepGame.event) : bool :=
  match e with FixedStepGame.Update _ => true | _ => false end.

Definition update_count (es : list FixedStepGame.event) : nat :=
  List.length (filter is_update_event es).

Definition no_refresh_due (t : float) (es : list FixedStepGame.event) : Prop :=
  Forall (fun e => match e with
                   | FixedStepGame.Update now => (1000 <=? now - t) = false
                   | _ => True
                   end) es.

(** Case analysis over the nine key combinations, each settled by
    evaluation. *)
Ltac by_key_cases H :=
  unfold key_inputs in H; cbn [In] in H;
  repeat (destruct H as [H|H]; [injection H as <- <-; vm_compute; tauto|]);
  destruct H.

(** The order lemmas used to chain comparisons. *)
Create HintDb float_order.

(** * Facts about binary64 arithmetic

    The primitive operations are specified by [SpecFloat]; the lemmas below
    read off that specification what the class relies on: when a rounded
    result is finite, and how the comparisons order the numbers. *)

(** ** The order of the comparisons *)

Section Order.

(** [SFcompare] is the comparison of a total preorder on the values other
    than [NaN]: swapping the arguments reverses the answer, every number
    equals itself, and [<=] is transitive. *)
Lemma SFcompare_antisym a b :
  SFcompare b a = option_map CompOpp (SFcompare a b).
Proof.
  destruct a as [sa|sa| |sa ma ea], b as [sb|sb| |sb mb eb]; simpl;
    try destruct sa; try destruct sb; simpl; try reflexivity.
  - rewrite (Z.compare_antisym ea eb). destruct (ea ?= eb)%Z; simpl; try reflexivity.
    f_equal. change (Pos.compare_cont Eq mb ma) with (Pos.compare mb ma).
    change (Pos.compare_cont Eq ma mb) with (Pos.compare ma mb).
    rewrite (Pos.compare_antisym ma mb). now rewrite CompOpp_involutive.
  - rewrite (Z.compare_antisym ea eb). destruct (ea ?= eb)%Z; simpl; try reflexivity.
    f_equal. change (Pos.compare_cont Eq mb ma) with (Pos.compare mb ma).
    change (Pos.compare_cont Eq ma mb) with (Pos.compare ma mb).
    now rewrite (Pos.compare_antisym ma mb).
Qed.

Lemma SFcompare_refl a : a <> S754_nan -> SFcompare a a = Some Eq.
Proof.
  destruct a as [s|s| |s m e]; simpl; intros H; try congruence; destruct s; try reflexivity.
  all: rewrite Z.compare_refl; change (Pos.compare_cont Eq m m) with (Pos.compare m m);
    now rewrite Pos.compare_refl.
Qed.

Lemma SFleb_trans a b c : SFleb a b = true -> SFleb b c = true -> SFleb a c = true.
Proof.
  unfold SFleb.
  destruct a as [sa|sa| |sa ma ea], b as [sb|sb| |sb mb eb], c as [sc|sc| |sc mc ec]; simpl;
    try destruct sa; try destruct sb; try destruct sc; simpl; try congruence.
  all: change (Pos.compare_cont Eq ?p ?q) with (Pos.compare p q).
  all: destruct (Z.compare_spec ea eb); destruct (Z.compare_spec eb ec);
       destruct (Z.compare_spec ea ec); try congruence; try lia; subst.
  all: destruct (Pos.compare_spec ma mb); destruct (Pos.compare_spec mb mc);
       destruct (Pos.compare_spec ma mc); simpl; try congruence; try lia.
Qed.

(** The same facts for the primitive comparisons [<=?], [<?] and [=?]. *)
Lemma is_nan_Prim2SF a : is_nan a = true <-> Prim2SF a = S754_nan.
Proof.
  unfold is_nan. rewrite FloatAxioms.eqb_spec. unfold SFeqb. split.
  - destruct (Prim2SF a) eqn:E; try reflexivity; rewrite SFcompare_refl by congruence;
      simpl; congruence.
  - intros ->. reflexivity.
Qed.

Lemma is_nan_false_Prim2SF a : is_nan a = false <-> Prim2SF a <> S754_nan.
Proof.
  rewrite <- is_nan_Prim2SF. destruct (is_nan a); split; congruence.
Qed.

Lemma SFcompare_nan_l a b : SFcompare a b <> None -> a <> S754_nan.
Proof. destruct a; simpl; congruence. Qed.
Lemma SFcompare_nan_r a b : SFcompare a b <> None -> b <> S754_nan.
Proof. destruct a, b; simpl; congruence. Qed.
Lemma SFcompare_Some a b : a <> S754_nan -> b <> S754_nan -> exists c, SFcompare a b = Some c.
Proof. destruct a, b; simpl; try congruence; eauto. Qed.

Lemma fle_number a b : fle a b -> is_nan a = false /\ is_nan b = false.
Proof.
  unfold fle. rewrite leb_spec. unfold SFleb. intros H.
  rewrite !is_nan_false_Prim2SF. split.
  - apply (SFcompare_nan_l _ (Prim2SF b)). destruct SFcompare; congruence.
  - apply (SFcompare_nan_r (Prim2SF a)). destruct SFcompare; congruence.
Qed.

Lemma fle_refl a : is_nan a = false -> fle a a.
Proof.
  rewrite is_nan_false_Prim2SF. unfold fle. rewrite leb_spec. unfold SFleb.
  intros H. now rewrite SFcompare_refl.
Qed.

Lemma fle_trans a b c : fle a b -> fle b c -> fle a c.
Proof. unfold fle. rewrite !leb_spec. apply SFleb_trans. Qed.

Lemma flt_fle a b : flt a b -> fle a b.
Proof.
  unfold flt, fle. rewrite ltb_spec, leb_spec. unfold SFltb, SFleb.
  destruct SFcompare as [[]|]; congruence.
Qed.

Lemma fle_total a b : is_nan a = false -> is_nan b = false -> (a <? b) = false -> fle b a.
Proof.
  rewrite !is_nan_false_Prim2SF. unfold fle. rewrite ltb_spec, leb_spec.
  unfold SFltb, SFleb. intros Ha Hb. rewrite (SFcompare_antisym (Prim2SF a) (Prim2SF b)).
  destruct (SFcompare_Some _ _ Ha Hb) as [c ->]. destruct c; simpl; congruence.
Qed.

Lemma fle_not_flt a b : fle a b -> (b <? a) = false.
Proof.
  unfold fle. rewrite ltb_spec, leb_spec. unfold SFltb, SFleb.
  rewrite (SFcompare_antisym (Prim2SF a) (Prim2SF b)).
  destruct SFcompare as [[]|]; simpl; congruence.
Qed.

Lemma feq_fle a b : feq a b <-> fle a b /\ fle b a.
Proof.
  unfold feq, fle. rewrite FloatAxioms.eqb_spec, !leb_spec. unfold SFeqb, SFleb.
  rewrite (SFcompare_antisym (Prim2SF a) (Prim2SF b)).
  destruct SFcompare as [[]|]; simpl; intuition congruence.
Qed.

Lemma feq_refl a : is_nan a = false -> feq a a.
Proof. intros H. apply feq_fle. split; now apply fle_refl. Qed.

Lemma feq_sym a b : feq a b -> feq b a.
Proof. rewrite !feq_fle. tauto. Qed.

Lemma feq_trans a b c : feq a b -> feq b c -> feq a c.
Proof. rewrite !feq_fle. intros [] []. split; eapply fle_trans; eauto. Qed.

End Order.

#[export] Hint Resolve fle_refl fle_trans flt_fle : float_order.

(** ** Rounding: shifts, digit counts and overflow *)

Section Rounding.

Local Open Scope Z_scope.

(** [shr] shifts a mantissa right one bit at a time; on a non-negative
    mantissa, [k] steps divide by [2^k], and the round bit they leave is the
    last bit shifted out. *)
Lemma iter_pos_nat {A} (f : A -> A) p x :
  SpecFloat.iter_pos f p x = Nat.iter (Pos.to_nat p) f x.
Proof.
  revert x. induction p as [p IH|p IH|]; intros x; cbn [SpecFloat.iter_pos].
  - rewrite !IH, <- Nat.iter_succ_r, <- Nat.iter_add.
    f_equal. rewrite Pos2Nat.inj_xI. lia.
  - rewrite !IH, <- Nat.iter_add. f_equal. rewrite Pos2Nat.inj_xO. lia.
  - reflexivity.
Qed.

Lemma shr_1_spec mrs :
  0 <= shr_m mrs ->
  shr_m (shr_1 mrs) = shr_m mrs / 2 /\ shr_r (shr_1 mrs) = Z.odd (shr_m mrs).
Proof.
  destruct mrs as [m r s]. simpl. intros Hm.
  destruct m as [|p|p]; [| |lia].
  - split; reflexivity.
  - destruct p as [p|p|]; simpl; split; try reflexivity.
    + rewrite Pos2Z.inj_xI. apply Z.div_unique with (r := 1); lia.
    + rewrite Pos2Z.inj_xO. apply Z.div_unique with (r := 0); lia.
Qed.

Lemma shr_iter_m k mrs :
  0 <= shr_m mrs ->
  shr_m (Nat.iter k shr_1 mrs) = shr_m mrs / 2 ^ Z.of_nat k.
Proof.
  intros Hm. induction k as [|k IH].
  - simpl. now rewrite Z.div_1_r.
  - rewrite Nat.iter_succ.
    assert (H0 : 0 <= shr_m (Nat.iter k shr_1 mrs)).
    { rewrite IH. apply Z.div_pos; [assumption|]. apply Z.pow_pos_nonneg; lia. }
    destruct (shr_1_spec _ H0) as [-> _]. rewrite IH.
    rewrite Z.div_div by (try apply Z.pow_pos_nonneg; lia).
    f_equal. rewrite Nat2Z.inj_succ, Z.pow_succ_r by lia. lia.
Qed.

Lemma shr_iter_r k mrs :
  0 <= shr_m mrs ->
  shr_r (Nat.iter (S k) shr_1 mrs) = Z.odd (shr_m mrs / 2 ^ Z.of_nat k).
Proof.
  intros Hm. rewrite Nat.iter_succ.
  assert (H0 : 0 <= shr_m (Nat.iter k shr_1 mrs)).
  { rewrite shr_iter_m by assumption. apply Z.div_pos; [assumption|]. apply Z.pow_pos_nonneg; lia. }
  destruct (shr_1_spec _ H0) as [_ ->]. now rewrite shr_iter_m.
Qed.

(** [Zdigits2 m] is the number of binary digits of [m]. *)
Lemma digits2_pos_size p : digits2_pos p = Pos.size p.
Proof. induction p; simpl; congruence. Qed.

Lemma Zdigits2_log2 m : 0 < m -> Zdigits2 m = Z.log2 m + 1.
Proof.
  destruct m as [|p|p]; try lia. intros _. simpl. rewrite digits2_pos_size.
  destruct p; simpl; lia.
Qed.

Lemma Zdigits2_bounds m : 0 < m -> 2 ^ (Zdigits2 m - 1) <= m < 2 ^ Zdigits2 m.
Proof.
  intros H. rewrite Zdigits2_log2 by assumption.
  replace (Z.log2 m + 1 - 1) with (Z.log2 m) by lia.
  replace (Z.log2 m + 1) with (Z.succ (Z.log2 m)) by lia.
  now apply Z.log2_spec.
Qed.

Lemma Zdigits2_le_pow m k : 0 <= m -> 0 <= k -> m < 2 ^ k -> Zdigits2 m <= k.
Proof.
  intros Hm Hk H. destruct (Z.eq_dec m 0) as [->|Hn]; [simpl; lia|].
  rewrite Zdigits2_log2 by lia.
  assert (Z.log2 m < k) by (apply Z.log2_lt_pow2; lia). lia.
Qed.

(** The exponent a binary64 value of magnitude below [2^e] is rounded at. *)
Lemma fexp_eq e : fexp prec emax e = Z.max (e - 53) (-1074).
Proof. reflexivity. Qed.

Lemma shr_m_of_loc m l : shr_m (shr_record_of_loc m l) = m.
Proof. destruct l as [|[]]; reflexivity. Qed.

Lemma pow2_split a b : 0 <= a -> 0 <= b -> 2 ^ (a + b) = 2 ^ a * 2 ^ b.
Proof. intros. now apply Z.pow_add_r. Qed.

Lemma pow2_gt0 k : 0 <= k -> 0 < 2 ^ k.
Proof. intros. apply Z.pow_pos_nonneg; lia. Qed.

(** [shr_fexp] brings [m * 2^e] to the exponent [e'] its magnitude calls for
    (never below [e]): the mantissa is divided by [2^(e' - e)]. *)
Lemma shr_fexp_spec m e l :
  0 <= m ->
  exists mrs,
    let e' := Z.max e (fexp prec emax (Zdigits2 m + e)) in
    shr_fexp prec emax m e l = (mrs, e') /\
    shr_m mrs = m / 2 ^ (e' - e) /\
    (e' = e -> mrs = shr_record_of_loc m l) /\
    (e < e' -> shr_r mrs = Z.odd (m / 2 ^ (e' - e - 1))).
Proof.
  intros Hm. unfold shr_fexp, shr.
  set (f := fexp prec emax (Zdigits2 m + e)).
  destruct (f - e) as [|p|p] eqn:En.
  - exists (shr_record_of_loc m l). cbn zeta.
    replace (Z.max e f) with e by lia.
    rewrite Z.sub_diag, Z.div_1_r, shr_m_of_loc. repeat split; try lia; auto.
  - exists (SpecFloat.iter_pos shr_1 p (shr_record_of_loc m l)). cbn zeta.
    replace (Z.max e f) with (e + Z.pos p) by lia.
    rewrite iter_pos_nat.
    assert (H0 : 0 <= shr_m (shr_record_of_loc m l)) by now rewrite shr_m_of_loc.
    repeat split.
    + rewrite shr_iter_m by assumption. rewrite shr_m_of_loc, positive_nat_Z.
      f_equal. f_equal. lia.
    + lia.
    + intros _. destruct (Pos.to_nat p) as [|k] eqn:Ek; [lia|].
      rewrite shr_iter_r by assumption. rewrite shr_m_of_loc.
      f_equal. f_equal. f_equal. lia.
  - exists (shr_record_of_loc m l). cbn zeta.
    replace (Z.max e f) with e by lia.
    rewrite Z.sub_diag, Z.div_1_r, shr_m_of_loc. repeat split; try lia; auto.
Qed.

Lemma round_nearest_even_cases mrs :
  let m := shr_m mrs in
  let m' := round_nearest_even m (loc_of_shr_record mrs) in
  m' = m \/ (m' = m + 1 /\ shr_r mrs = true).
Proof.
  destruct mrs as [m [] []]; simpl; auto.
  destruct (Z.even m); auto.
Qed.

(** The shape of a rounded result.  [binary_round_aux] truncates the mantissa
    to [m1] at exponent [e1], rounds it to [m2], which is [m1] or [m1 + 1]
    (the latter only if the first bit dropped was set, or the input was
    already inexact), renormalizes, and answers zero, a finite number, or
    infinity when the final exponent [e2] exceeds 971. *)
Lemma round_aux_shape s m e l :
  0 <= m ->
  exists m2,
    let e1 := Z.max e (fexp prec emax (Zdigits2 m + e)) in
    let m1 := m / 2 ^ (e1 - e) in
    let e2 := Z.max e1 (fexp prec emax (Zdigits2 m2 + e1)) in
    (m2 = m1 \/
     (m2 = m1 + 1 /\ (e < e1 -> Z.odd (m / 2 ^ (e1 - e - 1)) = true)
                  /\ (e1 = e -> l <> loc_Exact))) /\
    binary_round_aux prec emax s m e l =
      match m2 / 2 ^ (e2 - e1) with
      | Z0 => S754_zero s
      | Zpos p => if e2 <=? 971 then S754_finite s p e2 else S754_infinity s
      | Zneg _ => S754_nan
      end.
Proof.
  intros Hm. unfold binary_round_aux.
  destruct (shr_fexp_spec m e l Hm) as (mrs & H1 & Hm1 & Hex & Hr).
  cbn zeta in H1. rewrite H1.
  set (e1 := Z.max e (fexp prec emax (Zdigits2 m + e))) in *.
  set (m2 := round_nearest_even (shr_m mrs) (loc_of_shr_record mrs)).
  exists m2. cbn zeta.
  assert (Hm1' : 0 <= shr_m mrs).
  { rewrite Hm1. apply Z.div_pos; [lia|]. apply pow2_gt0. unfold e1. lia. }
  assert (Hm2 : 0 <= m2).
  { destruct (round_nearest_even_cases mrs) as [H|[H _]]; cbn zeta in H; fold m2 in H; lia. }
  destruct (shr_fexp_spec m2 e1 loc_Exact Hm2) as (mrs2 & H2 & Hm3 & _ & _).
  cbn zeta in H2. rewrite H2.
  split.
  - destruct (round_nearest_even_cases mrs) as [H|[H Hrr]]; cbn zeta in H; fold m2 in H.
    + left. now rewrite H, Hm1.
    + right. rewrite H, Hm1. split; [reflexivity|]. split.
      * intros Hlt. rewrite <- Hr by assumption. assumption.
      * intros Heq. specialize (Hex Heq). subst mrs. intros ->. discriminate.
  - rewrite Hm3. reflexivity.
Qed.

(** Rounding a non-negative mantissa never yields [NaN]. *)
Lemma round_aux_not_nan s m e l :
  0 <= m -> SFis_nan (binary_round_aux prec emax s m e l) = false.
Proof.
  intros Hm. destruct (round_aux_shape s m e l Hm) as (m2 & Hc & ->).
  cbn zeta in Hc.
  set (e1 := Z.max e (fexp prec emax (Zdigits2 m + e))) in *.
  set (m1 := m / 2 ^ (e1 - e)) in *.
  assert (0 <= m1).
  { unfold m1. apply Z.div_pos; [lia|]. apply pow2_gt0. unfold e1. lia. }
  assert (0 <= m2) by (destruct Hc as [->|[-> _]]; lia).
  set (e2 := Z.max e1 _).
  assert (0 <= m2 / 2 ^ (e2 - e1)).
  { apply Z.div_pos; [lia|]. apply pow2_gt0. unfold e2. lia. }
  destruct (m2 / 2 ^ (e2 - e1)); try lia; try reflexivity.
  destruct (e2 <=? 971); reflexivity.
Qed.

Lemma Zdigits2_lt_pow m k : 0 <= m -> 0 <= k -> Zdigits2 m <= k -> m < 2 ^ k.
Proof.
  intros Hm Hk H. destruct (Z.eq_dec m 0) as [->|Hn]; [now apply pow2_gt0|].
  destruct (Zdigits2_bounds m) as [_ Hu]; [lia|].
  eapply Z.lt_le_trans; [exact Hu|]. apply Z.pow_le_mono_r; lia.
Qed.

(** The result of [binary_round_aux] once the final exponent is known to fit. *)
Lemma round_aux_finite_of_digits s m e l m2 :
  let e1 := Z.max e (fexp prec emax (Zdigits2 m + e)) in
  let e2 := Z.max e1 (fexp prec emax (Zdigits2 m2 + e1)) in
  0 <= m2 -> e1 <= 971 -> m2 < 2 ^ (1024 - e1) ->
  binary_round_aux prec emax s m e l =
    match m2 / 2 ^ (e2 - e1) with
    | Z0 => S754_zero s
    | Zpos p => if e2 <=? 971 then S754_finite s p e2 else S754_infinity s
    | Zneg _ => S754_nan
    end ->
  SFis_finite (binary_round_aux prec emax s m e l) = true.
Proof.
  intros e1 e2 Hm2 He1 Hlt ->.
  assert (Hd : Zdigits2 m2 <= 1024 - e1) by (apply Zdigits2_le_pow; lia).
  assert (He2 : e2 <= 971) by (unfold e2; rewrite fexp_eq; lia).
  assert (0 <= m2 / 2 ^ (e2 - e1)).
  { apply Z.div_pos; [lia|]. apply pow2_gt0. unfold e2. lia. }
  destruct (m2 / 2 ^ (e2 - e1)); try lia; try reflexivity.
  apply Z.leb_le in He2. now rewrite He2.
Qed.

(** No overflow, coarse form: a magnitude below [2^1023] rounds to a finite
    number, whatever was lost before. *)
Lemma round_aux_finite_crude s m e l :
  0 <= m -> e <= 971 -> Zdigits2 m + e <= 1023 ->
  SFis_finite (binary_round_aux prec emax s m e l) = true.
Proof.
  intros Hm He Hd.
  destruct (round_aux_shape s m e l Hm) as (m2 & Hc & Heq). cbn zeta in Hc, Heq.
  set (e1 := Z.max e (fexp prec emax (Zdigits2 m + e))) in *.
  set (m1 := m / 2 ^ (e1 - e)) in *.
  assert (He1 : e <= e1 <= 971) by (unfold e1; rewrite fexp_eq; lia).
  assert (Hlt : m < 2 ^ (1023 - e)) by (apply Zdigits2_lt_pow; lia).
  assert (H1 : 0 <= m1 < 2 ^ (1023 - e1)).
  { unfold m1. split.
    - apply Z.div_pos; [lia|]. apply pow2_gt0; lia.
    - apply Z.div_lt_upper_bound; [apply pow2_gt0; lia|].
      rewrite <- pow2_split by lia. replace (e1 - e + (1023 - e1)) with (1023 - e) by lia.
      assumption. }
  assert (H2 : 2 ^ (1024 - e1) = 2 * 2 ^ (1023 - e1)).
  { replace (1024 - e1) with (1 + (1023 - e1)) by lia. rewrite pow2_split by lia. reflexivity. }
  apply (round_aux_finite_of_digits s m e l m2); fold e1; try assumption; try lia.
  all: destruct Hc as [->|[-> _]]; lia.
Qed.

(** No overflow, sharp form: an exact magnitude below the midpoint between
    the largest finite double, [(2^53 - 1) * 2^971], and [2^1024] rounds to
    a finite number. *)
Lemma round_aux_finite_exact s m e :
  0 < m -> e <= 971 -> 2 * m < (2 ^ 54 - 1) * 2 ^ (971 - e) ->
  SFis_finite (binary_round_aux prec emax s m e loc_Exact) = true.
Proof.
  intros Hm He Hb.
  destruct (round_aux_shape s m e loc_Exact) as (m2 & Hc & Heq); [lia|]. cbn zeta in Hc, Heq.
  set (e1 := Z.max e (fexp prec emax (Zdigits2 m + e))) in *.
  set (m1 := m / 2 ^ (e1 - e)) in *.
  assert (Hp : 0 < 2 ^ (971 - e)) by (apply pow2_gt0; lia).
  assert (Hlt : m < 2 ^ (1024 - e)).
  { replace (1024 - e) with (53 + (971 - e)) by lia. rewrite pow2_split by lia.
    change (2 ^ 53) with 9007199254740992. change (2 ^ 54) with 18014398509481984 in Hb. nia. }
  assert (Hd : Zdigits2 m + e <= 1024).
  { assert (Zdigits2 m <= 1024 - e) by (apply Zdigits2_le_pow; lia). lia. }
  assert (He1 : e <= e1 <= 971) by (unfold e1; rewrite fexp_eq; lia).
  assert (Hge : Zdigits2 m + e - 53 <= e1) by (unfold e1; rewrite fexp_eq; lia).
  assert (H1 : 0 <= m1 < 2 ^ 53).
  { unfold m1. split.
    - apply Z.div_pos; [lia|]. apply pow2_gt0; lia.
    - apply Z.div_lt_upper_bound; [apply pow2_gt0; lia|].
      rewrite <- pow2_split by lia.
      apply Zdigits2_lt_pow; lia. }
  apply (round_aux_finite_of_digits s m e loc_Exact m2); fold e1; try assumption; try lia.
  destruct Hc as [->|(-> & Hodd & Hne)].
  - eapply Z.lt_le_trans; [apply H1|]. apply Z.pow_le_mono_r; lia.
  - assert (Hlt1 : e < e1) by (destruct (Z.eq_dec e1 e); [now elim Hne|lia]).
    specialize (Hodd Hlt1).
    destruct (Z.eq_dec e1 971) as [E|E].
    + (* the exponent is already maximal: rounding up cannot reach 2^53 *)
      replace (1024 - e1) with 53 by lia.
      set (k := e1 - e - 1) in *.
      assert (Hk : 0 <= k) by (unfold k; lia).
      set (q := m / 2 ^ k) in *.
      assert (Hq1 : m1 = q / 2).
      { unfold m1, q. replace (e1 - e) with (k + 1) by (unfold k; lia).
        rewrite pow2_split by lia. change (2 ^ 1) with 2.
        rewrite Z.div_div; [reflexivity| |lia]. apply Z.neq_sym, Z.lt_neq, pow2_gt0; lia. }
      assert (Hq2 : q < 2 ^ 54 - 1).
      { unfold q. apply Z.div_lt_upper_bound; [apply pow2_gt0; lia|].
        replace (971 - e) with (k + 1) in Hb by (unfold k; lia).
        rewrite pow2_split in Hb by lia. change (2 ^ 1) with 2 in Hb.
        assert (Hpk : 0 < 2 ^ k) by (apply pow2_gt0; lia).
        change (2 ^ 54) with 18014398509481984 in *.
        revert Hb Hpk. generalize (2 ^ k). intros P Hb HP. lia. }
      rewrite Hq1. rewrite (Zodd_div2 q) in Hq2 by (now apply Zodd_bool_iff).
      rewrite Z.div2_div in Hq2.
      change (2 ^ 54) with 18014398509481984 in Hq2.
      change (2 ^ 53) with 9007199254740992. lia.
    + eapply Z.le_lt_trans with (m := 2 ^ 53); [lia|].
      apply Z.pow_lt_mono_r; lia.
Qed.

(** Every finite double has a mantissa below [2^53] and an exponent between
    -1074 and 971. *)
Lemma valid_finite_bounds s m e :
  valid_binary (S754_finite s m e) = true ->
  Z.pos m < 2 ^ 53 /\ -1074 <= e <= 971 /\ Zdigits2 (Z.pos m) + e <= 1024.
Proof.
  unfold SpecFloat.valid_binary, bounded, canonical_mantissa.
  intros H. apply andb_true_iff in H. destruct H as [H1 H2].
  apply Z.eqb_eq in H1. apply Z.leb_le in H2. rewrite fexp_eq in H1.
  change (emax - prec) with 971 in H2.
  assert (Hd : Zdigits2 (Z.pos m) <= 53) by (simpl; lia).
  repeat split; try lia.
  apply Zdigits2_lt_pow; lia.
Qed.

Lemma valid_normal_mantissa s m e :
  valid_binary (S754_finite s m e) = true -> -1074 < e -> 2 ^ 52 <= Z.pos m.
Proof.
  unfold SpecFloat.valid_binary, bounded, canonical_mantissa.
  intros H He. apply andb_true_iff in H. destruct H as [H1 _].
  apply Z.eqb_eq in H1. rewrite fexp_eq in H1.
  assert (Hd : Zdigits2 (Z.pos m) = 53) by (simpl; lia).
  rewrite Zdigits2_log2 in Hd by lia.
  apply Z.log2_le_pow2; lia.
Qed.

Lemma SFleb_finite_pos ma ea mb eb :
  SFleb (S754_finite false ma ea) (S754_finite false mb eb) = true ->
  ea < eb \/ (ea = eb /\ Z.pos ma <= Z.pos mb).
Proof.
  unfold SFleb, SFcompare.
  change (Pos.compare_cont Eq ma mb) with (Pos.compare ma mb).
  destruct (Z.compare_spec ea eb) as [E|E|E]; try discriminate.
  - destruct (Pos.compare_spec ma mb) as [E'|E'|E']; try discriminate; intros _; right; split; lia.
  - intros _. now left.
Qed.

Lemma SFleb_finite_pos_intro ma ea mb eb :
  ea < eb \/ (ea = eb /\ Z.pos ma <= Z.pos mb) ->
  SFleb (S754_finite false ma ea) (S754_finite false mb eb) = true.
Proof.
  unfold SFleb, SFcompare.
  change (Pos.compare_cont Eq ma mb) with (Pos.compare ma mb).
  intros [H|[H1 H2]].
  - destruct (Z.compare_spec ea eb); try reflexivity; lia.
  - destruct (Z.compare_spec ea eb); try reflexivity; try lia.
    destruct (Pos.compare_spec ma mb); try reflexivity; lia.
Qed.

(** Multiplying a double by a factor of magnitude at most 1 cannot
    overflow: the exact product is at most the other operand, hence at most
    the largest finite double. *)
Lemma SFmul_finite_unit sa ma ea sb mb eb :
  valid_binary (S754_finite sa ma ea) = true ->
  valid_binary (S754_finite sb mb eb) = true ->
  SFleb (S754_finite false ma ea) (S754_finite false 4503599627370496 (-52)) = true ->
  SFis_finite (SF64mul (S754_finite sa ma ea) (S754_finite sb mb eb)) = true.
Proof.
  intros Va Vb Hle.
  destruct (valid_finite_bounds _ _ _ Va) as (Ha1 & Ha2 & _).
  destruct (valid_finite_bounds _ _ _ Vb) as (Hb1 & Hb2 & _).
  assert (Hma : Z.pos ma <= 2 ^ (- ea) /\ ea <= -52).
  { destruct (SFleb_finite_pos _ _ _ _ Hle) as [E|[E E']].
    - split; [|lia]. apply Z.lt_le_incl. eapply Z.lt_le_trans; [exact Ha1|].
      apply Z.pow_le_mono_r; lia.
    - subst ea. split; [|lia]. exact E'. }
  destruct Hma as [Hma Hea].
  unfold SF64mul, SFmul. apply round_aux_finite_exact; try lia.
  replace (971 - (ea + eb)) with ((971 - eb) + (- ea)) by lia.
  rewrite pow2_split by lia.
  assert (Hp : 1 <= 2 ^ (971 - eb)).
  { change 1 with (2 ^ 0). apply Z.pow_le_mono_r; lia. }
  rewrite Pos2Z.inj_mul.
  change (2 ^ 53) with 9007199254740992 in *. change (2 ^ 54) with 18014398509481984.
  revert Hma Hp. generalize (2 ^ (- ea)) (2 ^ (971 - eb)). intros P Q Hma Hp.
  assert (2 * (Z.pos ma * Z.pos mb) <= Z.pos ma * 18014398509481982) by nia.
  assert (Z.pos ma * 18014398509481982 < P * 18014398509481983) by nia.
  assert (P * 18014398509481983 <= 18014398509481983 * (Q * P)) by nia.
  lia.
Qed.

Lemma SFmul_zero_l s b :
  SFis_finite b = true -> exists s', SF64mul (S754_zero s) b = S754_zero s'.
Proof. destruct b; simpl; try discriminate; eauto. Qed.

Lemma SFmul_zero_r a s :
  SFis_finite a = true -> exists s', SF64mul a (S754_zero s) = S754_zero s'.
Proof. destruct a; simpl; try discriminate; eauto. Qed.

(** Dividing a double by a divisor of magnitude at least 2 cannot
    overflow. *)
Lemma SFdiv_finite sa ma ea sb mb eb :
  valid_binary (S754_finite sa ma ea) = true ->
  2 <= Zdigits2 (Z.pos mb) + eb ->
  SFis_finite (SF64div (S754_finite sa ma ea) (S754_finite sb mb eb)) = true.
Proof.
  intros Va Hb.
  destruct (valid_finite_bounds _ _ _ Va) as (Ha1 & Ha2 & Ha3).
  unfold SF64div, SFdiv, SFdiv_core_binary.
  set (d1 := Zdigits2 (Z.pos ma)) in *. set (d2 := Zdigits2 (Z.pos mb)) in *.
  set (e' := Z.min (fexp prec emax (d1 + ea - (d2 + eb))) (ea - eb)).
  set (sh := ea - eb - e').
  assert (Hsh : 0 <= sh) by (unfold sh, e'; lia).
  set (m' := match sh with Z.pos _ => Z.shiftl (Z.pos ma) sh | 0 => Z.pos ma | Z.neg _ => 0 end).
  assert (Hm' : m' = Z.pos ma * 2 ^ sh).
  { unfold m'. clearbody sh. destruct sh as [|p|p]; try lia.
    now rewrite Z.shiftl_mul_pow2 by lia. }
  clearbody m'.
  pose proof (Z_div_mod m' (Z.pos mb) eq_refl) as Hdm.
  assert (Hq : fst (Z.div_eucl m' (Z.pos mb)) = m' / Z.pos mb) by reflexivity.
  destruct (Z.div_eucl m' (Z.pos mb)) as [q r]. simpl in Hq. subst q.
  assert (H2s : 0 < 2 ^ sh) by (apply pow2_gt0; lia).
  assert (Hq0 : 0 <= m' / Z.pos mb) by (apply Z.div_pos; lia).
  assert (Hd2 : 2 ^ (d2 - 1) <= Z.pos mb) by (apply Zdigits2_bounds; lia).
  assert (Hd2' : 1 <= d2) by (unfold d2; simpl; lia).
  assert (Hd1' : 1 <= d1) by (unfold d1; simpl; lia).
  assert (Hd1 : Z.pos ma < 2 ^ d1) by (apply Zdigits2_bounds; lia).
  apply round_aux_finite_crude; try assumption.
  - unfold e'. rewrite fexp_eq. lia.
  - (* digits of the quotient *)
    assert (Hk : 0 <= d1 + sh) by lia.
    destruct (Z_lt_le_dec (d1 + sh - d2 + 1) 0) as [Hneg|Hpos].
    + (* the quotient is zero *)
      assert (m' / Z.pos mb = 0).
      { apply Z.div_small. split; [lia|]. rewrite Hm'.
        eapply Z.lt_le_trans; [|exact Hd2].
        eapply Z.lt_le_trans with (m := 2 ^ (d1 + sh)).
        - rewrite pow2_split by lia. nia.
        - apply Z.pow_le_mono_r; lia. }
      rewrite H. simpl. unfold e'. rewrite fexp_eq. lia.
    + assert (Hlt : m' / Z.pos mb < 2 ^ (d1 + sh - d2 + 1)).
      { apply Z.div_lt_upper_bound; [lia|]. rewrite Hm'.
        eapply Z.lt_le_trans with (m := 2 ^ (d1 + sh)).
        - rewrite pow2_split by lia. nia.
        - set (t := d1 + sh - d2 + 1) in *.
          replace (d1 + sh) with ((d2 - 1) + t) by (unfold t; lia).
          rewrite pow2_split by lia.
          apply Z.mul_le_mono_nonneg_r; [|assumption].
          apply Z.lt_le_incl, pow2_gt0; lia. }
      assert (Zdigits2 (m' / Z.pos mb) <= d1 + sh - d2 + 1) by (apply Zdigits2_le_pow; lia).
      unfold sh in *. lia.
Qed.

(** A finite number plus a number is a number; adding a zero changes
    nothing. *)
Lemma binary_normalize_not_nan m e sz :
  SFis_nan (binary_normalize prec emax m e sz) = false.
Proof.
  destruct m as [|p|p]; simpl; [reflexivity| |].
  all: unfold binary_round; destruct shl_align as [mz ez]; apply round_aux_not_nan; lia.
Qed.

Lemma SFadd_not_nan a b :
  SFis_finite a = true -> SFis_nan b = false -> SFis_nan (SF64add a b) = false.
Proof.
  destruct a as [sa|sa| |sa ma ea]; try discriminate; intros _;
  destruct b as [sb|sb| |sb mb eb]; try discriminate; intros _; simpl; try reflexivity.
  - destruct sa, sb; reflexivity.
  - apply binary_normalize_not_nan.
Qed.

Lemma SFadd_zero_r a s :
  SFis_nan a = false -> SFeqb (SF64add a (S754_zero s)) a = true.
Proof.
  destruct a as [sa|sa| |sa ma ea]; try discriminate; intros _; simpl.
  - destruct sa, s; reflexivity.
  - destruct sa; reflexivity.
  - unfold SFeqb. rewrite SFcompare_refl; congruence.
Qed.

End Rounding.

(** ** [Math.max], [Math.min] and clamping *)

Section Clamping.

(** On numbers, [Math.max] and [Math.min] return one of their arguments, the
    one the order selects. *)
Lemma max_cases a b : is_nan a = false -> is_nan b = false ->
  (Math.max a b = a /\ fle b a) \/ (Math.max a b = b /\ fle a b).
Proof.
  intros Ha Hb. unfold Math.max. rewrite Ha, Hb. simpl.
  destruct (a <? b) eqn:Hab.
  - right. split; [reflexivity|now apply flt_fle].
  - destruct (b <? a) eqn:Hba.
    + left. split; [reflexivity|now apply flt_fle].
    + destruct (Leibniz.eqb a neg_zero).
      * right. split; [reflexivity|]. now apply fle_total.
      * left. split; [reflexivity|]. now apply fle_total.
Qed.

Lemma min_cases a b : is_nan a = false -> is_nan b = false ->
  (Math.min a b = a /\ fle a b) \/ (Math.min a b = b /\ fle b a).
Proof.
  intros Ha Hb. unfold Math.min. rewrite Ha, Hb. simpl.
  destruct (a <? b) eqn:Hab.
  - left. split; [reflexivity|now apply flt_fle].
  - destruct (b <? a) eqn:Hba.
    + right. split; [reflexivity|now apply flt_fle].
    + destruct (Leibniz.eqb a neg_zero).
      * left. split; [reflexivity|]. now apply fle_total.
      * right. split; [reflexivity|]. now apply fle_total.
Qed.

(** Clamping a number to an interval with ordered bounds lands in the
    interval, and does not move a number that is in the interval. *)
Lemma clamp_within lo hi v :
  fle lo hi -> is_nan v = false ->
  fle lo (clamp lo hi v) /\ fle (clamp lo hi v) hi.
Proof.
  intros Hlh Hv. unfold clamp. destruct (fle_number _ _ Hlh) as [Hlo Hhi].
  destruct (min_cases hi v Hhi Hv) as [[E1 H1]|[E1 H1]]; rewrite E1.
  - destruct (max_cases lo hi Hlo Hhi) as [[E2 H2]|[E2 H2]]; rewrite E2.
    + split; [now apply fle_refl|assumption].
    + split; [assumption|now apply fle_refl].
  - destruct (max_cases lo v Hlo Hv) as [[E2 H2]|[E2 H2]]; rewrite E2.
    + split; [now apply fle_refl|assumption].
    + split; assumption.
Qed.

Lemma clamp_inside lo hi v :
  fle lo v -> fle v hi -> feq (clamp lo hi v) v.
Proof.
  intros Hl Hh. unfold clamp. destruct (fle_number _ _ Hl) as [Hlo Hv].
  destruct (fle_number _ _ Hh) as [_ Hhi].
  destruct (min_cases hi v Hhi Hv) as [[E1 H1]|[E1 H1]]; rewrite E1.
  - assert (feq hi v) by (apply feq_fle; split; assumption).
    destruct (max_cases lo hi Hlo Hhi) as [[E2 H2]|[E2 H2]]; rewrite E2.
    + apply feq_fle. split; [assumption|]. eapply fle_trans; eauto.
    + assumption.
  - destruct (max_cases lo v Hlo Hv) as [[E2 H2]|[E2 H2]]; rewrite E2.
    + apply feq_fle. split; assumption.
    + now apply feq_refl.
Qed.

(** The absent bounds are neutral, for every value including [NaN]. *)
Lemma max_neg_infinity v : Math.max neg_infinity v = v.
Proof.
  unfold Math.max. change (is_nan neg_infinity) with false. simpl.
  destruct (is_nan v) eqn:Hv.
  - apply is_nan_Prim2SF in Hv. apply Prim2SF_inj. now rewrite Hv.
  - destruct (neg_infinity <? v) eqn:H1; [reflexivity|].
    destruct (v <? neg_infinity) eqn:H2.
    + exfalso. revert H2. rewrite ltb_spec. change (Prim2SF neg_infinity) with (S754_infinity true).
      unfold SFltb. destruct (Prim2SF v) as [s|s| |s m e]; simpl; try destruct s; congruence.
    + change (Leibniz.eqb neg_infinity neg_zero) with false.
      revert H1. rewrite ltb_spec. apply is_nan_false_Prim2SF in Hv.
      change (Prim2SF neg_infinity) with (S754_infinity true).
      unfold SFltb. destruct (Prim2SF v) as [s|s| |s m e] eqn:E; simpl; try destruct s; try congruence.
      intros _. apply Prim2SF_inj. now rewrite E.
Qed.

Lemma min_infinity v : Math.min infinity v = v.
Proof.
  unfold Math.min. change (is_nan infinity) with false. simpl.
  destruct (is_nan v) eqn:Hv.
  - apply is_nan_Prim2SF in Hv. apply Prim2SF_inj. now rewrite Hv.
  - destruct (infinity <? v) eqn:H1.
    + exfalso. revert H1. rewrite ltb_spec. change (Prim2SF infinity) with (S754_infinity false).
      unfold SFltb. destruct (Prim2SF v) as [s|s| |s m e]; simpl; try destruct s; congruence.
    + destruct (v <? infinity) eqn:H2; [reflexivity|].
      change (Leibniz.eqb infinity neg_zero) with false. reflexivity.
Qed.

End Clamping.

(** ** The arithmetic of [update] on numbers *)

Section Numbers.

(** The classification of a primitive float, read on its specification. *)
Lemma SFeqb_refl a : SFis_nan a = false -> SFeqb a a = true.
Proof.
  intros H. unfold SFeqb. rewrite SFcompare_refl; [reflexivity|].
  intros ->. discriminate.
Qed.

Lemma is_nan_SF a : is_nan a = SFis_nan (Prim2SF a).
Proof.
  unfold is_nan. rewrite FloatAxioms.eqb_spec.
  destruct (SFis_nan (Prim2SF a)) eqn:E.
  - destruct (Prim2SF a); try discriminate. reflexivity.
  - now rewrite SFeqb_refl.
Qed.

Lemma is_finite_SF a : is_finite a = SFis_finite (Prim2SF a).
Proof.
  unfold is_finite, is_infinity. rewrite is_nan_SF, FloatAxioms.eqb_spec, abs_spec.
  change (Prim2SF infinity) with (S754_infinity false).
  destruct (Prim2SF a) as [s|s| |s m e]; reflexivity.
Qed.

Lemma is_finite_number a : is_finite a = true -> is_nan a = false.
Proof. rewrite is_finite_SF, is_nan_SF. now destruct (Prim2SF a). Qed.

Lemma feq_zero_SF a : feq a 0 <-> exists s, Prim2SF a = S754_zero s.
Proof.
  unfold feq. rewrite FloatAxioms.eqb_spec. change (Prim2SF 0) with (S754_zero false).
  split.
  - destruct (Prim2SF a) as [s|s| |s m e]; try destruct s; try discriminate; eauto.
  - intros [s ->]. reflexivity.
Qed.

Lemma at_most_one_finite a : fle (abs a) 1 -> is_finite a = true.
Proof.
  unfold fle. rewrite leb_spec, abs_spec, is_finite_SF.
  destruct (Prim2SF a) as [s|s| |s m e]; try reflexivity; discriminate.
Qed.

(** The steps of [direction * speed * (deltaTime / 1000)] and of the final
    addition, on finite operands. *)
Lemma SFmul_not_nan a b :
  SFis_finite a = true -> SFis_finite b = true -> SFis_nan (SF64mul a b) = false.
Proof.
  destruct a as [sa|sa| |sa ma ea]; try discriminate; intros _;
  destruct b as [sb|sb| |sb mb eb]; try discriminate; intros _; try reflexivity.
  unfold SF64mul, SFmul. apply round_aux_not_nan. lia.
Qed.

Lemma mul_number a b :
  is_finite a = true -> is_finite b = true -> is_nan (a * b) = false.
Proof. rewrite !is_finite_SF, is_nan_SF, mul_spec. apply SFmul_not_nan. Qed.

Lemma mul_finite_unit a b :
  fle (abs a) 1 -> is_finite b = true -> is_finite (a * b) = true.
Proof.
  intros Ha Hb. pose proof (at_most_one_finite a Ha) as Hfa.
  revert Ha Hfa Hb. unfold fle.
  rewrite leb_spec, abs_spec, !is_finite_SF, mul_spec.
  change (Prim2SF 1) with (S754_finite false 4503599627370496 (-52)).
  pose proof (Prim2SF_valid a) as Va. pose proof (Prim2SF_valid b) as Vb.
  destruct (Prim2SF a) as [sa|sa| |sa ma ea]; try discriminate;
  destruct (Prim2SF b) as [sb|sb| |sb mb eb]; try discriminate; intros Hle _ _;
    try reflexivity.
  now apply SFmul_finite_unit.
Qed.

Lemma mul_zero_l a b : feq a 0 -> is_finite b = true -> feq (a * b) 0.
Proof.
  rewrite !feq_zero_SF, is_finite_SF, mul_spec. intros [s ->] Hb.
  now apply SFmul_zero_l.
Qed.

Lemma mul_zero_r a b : is_finite a = true -> feq b 0 -> feq (a * b) 0.
Proof.
  rewrite !feq_zero_SF, is_finite_SF, mul_spec. intros Ha [s ->].
  now apply SFmul_zero_r.
Qed.

Lemma div_1000_finite a : is_finite a = true -> is_finite (a / 1000) = true.
Proof.
  rewrite !is_finite_SF, div_spec.
  change (Prim2SF 1000) with (S754_finite false 8796093022208000 (-43)).
  pose proof (Prim2SF_valid a) as Va.
  destruct (Prim2SF a) as [sa|sa| |sa ma ea]; try discriminate; intros _.
  - reflexivity.
  - apply SFdiv_finite; [assumption|]. vm_compute. discriminate.
Qed.

Lemma div_1000_zero a : feq a 0 -> feq (a / 1000) 0.
Proof.
  rewrite !feq_zero_SF, div_spec. intros [s ->].
  change (Prim2SF 1000) with (S754_finite false 8796093022208000 (-43)).
  simpl. eauto.
Qed.

Lemma add_number a b :
  is_finite a = true -> is_nan b = false -> is_nan (a + b) = false.
Proof. rewrite is_finite_SF, !is_nan_SF, add_spec. apply SFadd_not_nan. Qed.

Lemma add_zero a b : is_nan a = false -> feq b 0 -> feq (a + b) a.
Proof.
  rewrite is_nan_SF, feq_zero_SF. intros Ha [s Hb].
  unfold feq. rewrite FloatAxioms.eqb_spec, add_spec, Hb.
  now apply SFadd_zero_r.
Qed.

(** A finite number whose exact square is at most 1 is at most 1 in the
    order of the doubles. *)
Lemma Qsquare_le_one_Qmake (n : Z) (d : positive) :
  (Qmake n d * Qmake n d <= 1)%Q -> (n * n <= Z.pos d * Z.pos d)%Z.
Proof. unfold Qle. simpl. lia. Qed.

Lemma exact_square_le_one a q :
  exact a = Some q -> (q * q <= 1)%Q -> fle (abs a) 1.
Proof.
  unfold exact, fle. rewrite leb_spec, abs_spec.
  change (Prim2SF 1) with (S754_finite false 4503599627370496 (-52)).
  pose proof (Prim2SF_valid a) as V.
  destruct (Prim2SF a) as [s|s| |s m e]; try discriminate.
  - reflexivity.
  - intros [= <-] Hq. cbn [SFabs]. apply SFleb_finite_pos_intro.
    destruct e as [|p|p].
    + exfalso. pose proof (valid_normal_mantissa _ _ _ V ltac:(lia)) as Hm.
      change (2 ^ 52)%Z with 4503599627370496%Z in Hm.
      revert Hq. unfold Qle. simpl. destruct s; simpl; nia.
    + exfalso. pose proof (valid_normal_mantissa _ _ _ V ltac:(lia)) as Hm.
      change (2 ^ 52)%Z with 4503599627370496%Z in Hm.
      assert (Hp : (1 <= 2 ^ Z.pos p)%Z) by (apply (Z.pow_le_mono_r 2 0); lia).
      revert Hq. unfold Qle, inject_Z. cbn [Qmult Qnum Qden].
      generalize dependent (2 ^ Z.pos p)%Z. intros P HP.
      destruct s; cbn [cond_Zopp]; nia.
    + apply Qsquare_le_one_Qmake in Hq.
      assert (Hn : (Z.pos m * Z.pos m <= Z.pos (2 ^ p) * Z.pos (2 ^ p))%Z).
      { destruct s; cbn [cond_Zopp] in Hq; lia. }
      assert (Hle : (Z.pos m <= Z.pos (2 ^ p))%Z) by nia.
      rewrite Pos2Z.inj_pow in Hle.
      destruct (Z_lt_le_dec (Z.neg p) (-52)) as [L|L]; [now left|right].
      destruct (Z.eq_dec (Z.neg p) (-52)) as [E|E].
      * split; [assumption|]. injection E as ->. exact Hle.
      * exfalso. pose proof (valid_normal_mantissa _ _ _ V ltac:(lia)) as Hm.
        assert ((2 ^ Z.pos p < 2 ^ 52)%Z) by (apply Z.pow_lt_mono_r; lia).
        lia.
Qed.

End Numbers.

(** * The mover's contract *)

Section Contract.

(** ** Boundary containment *)

Lemma fle_neg_infinity a : is_nan a = false -> fle neg_infinity a.
Proof.
  rewrite is_nan_SF. unfold fle. rewrite leb_spec.
  change (Prim2SF neg_infinity) with (S754_infinity true).
  destruct (Prim2SF a) as [s|s| |s m e]; try discriminate; try reflexivity.
  now destruct s.
Qed.

Lemma fle_infinity a : is_nan a = false -> fle a infinity.
Proof.
  rewrite is_nan_SF. unfold fle. rewrite leb_spec.
  change (Prim2SF infinity) with (S754_infinity false).
  destruct (Prim2SF a) as [s|s| |s m e]; try discriminate; try reflexivity.
  now destruct s.
Qed.

Lemma bounds_ordered lo hi :
  lower_bound lo -> upper_bound hi ->
  (is_finite lo = true -> is_finite hi = true -> fle lo hi) ->
  fle lo hi.
Proof.
  intros [->|Hlo] [->|Hhi] H.
  - reflexivity.
  - apply fle_neg_infinity. now apply is_finite_number.
  - apply fle_infinity. now apply is_finite_number.
  - now apply H.
Qed.

Lemma Qsquare_nonneg (q : Q) : (0 <= q * q)%Q.
Proof. unfold Qle. simpl. nia. Qed.

(** A vector whose exact magnitude is 1 or 0 has components in [[-1, 1]]. *)
Lemma unit_or_zero_at_most_unit d : unit_or_zero d -> at_most_unit d.
Proof.
  intros (q & Hq & H01). unfold exact_sum_of_squares in Hq.
  destruct (exact (Vec.x d)) as [qx|] eqn:Ex; [|discriminate].
  destruct (exact (Vec.y d)) as [qy|] eqn:Ey; [|discriminate].
  injection Hq as <-.
  assert (Hle : (qx * qx + qy * qy <= 1)%Q).
  { destruct H01 as [-> | ->]; [discriminate|apply Qle_refl]. }
  pose proof (Qsquare_nonneg qx) as Sx. pose proof (Qsquare_nonneg qy) as Sy.
  split.
  - apply (exact_square_le_one _ _ Ex).
    apply Qle_trans with (qx * qx + qy * qy)%Q; [|exact Hle].
    apply Qle_trans with (qx * qx + 0)%Q.
    + rewrite Qplus_0_r. apply Qle_refl.
    + now apply Qplus_le_r.
  - apply (exact_square_le_one _ _ Ey).
    apply Qle_trans with (qx * qx + qy * qy)%Q; [|exact Hle].
    apply Qle_trans with (0 + qy * qy)%Q.
    + rewrite Qplus_0_l. apply Qle_refl.
    + now apply Qplus_le_l.
Qed.

(** The unit vector [(0, -1)] of the up key. *)
Lemma unit_or_zero_at_most_unit_witness : at_most_unit (Vec.mk 0 (-1)).
Proof.
  apply unit_or_zero_at_most_unit.
  eexists. split; [reflexivity|]. right. vm_compute. reflexivity.
Defined.

Lemma candidate_number p d s dt :
  is_finite p = true -> fle (abs d) 1 -> is_finite s = true ->
  is_finite dt = true ->
  is_nan (p + d * s * (dt / 1000)) = false.
Proof.
  intros Hp Hd Hs Hdt. apply add_number; [assumption|].
  apply mul_number.
  - now apply mul_finite_unit.
  - now apply div_1000_finite.
Qed.

(** C1.  Whatever the time delta, [update] leaves the character inside the
    boundary, bounds included: for every boundary that satisfies the declared
    invariant (each bound finite or absent, [min <= max] when both are
    finite), every finite starting position, every direction with components
    of magnitude at most 1 (every unit-or-zero direction is one, by
    [unit_or_zero_at_most_unit]), every finite speed and every finite
    [deltaTime].  The signs of the speed and of the
    time delta play no part, so the case [speed >= 0], [deltaTime >= 0] of
    the specification is included. *)
Theorem update_within_boundary (c : Character.t) (deltaTime : float) :
  boundary_invariant (Character.boundary c) ->
  is_finite (Character.x c) = true ->
  is_finite (Character.y c) = true ->
  at_most_unit (Character.direction c) ->
  is_finite (Character.speed c) = true ->
  is_finite deltaTime = true ->
  inside (Character.boundary c)
         (Character.x (Character.update c deltaTime))
         (Character.y (Character.update c deltaTime)) = true.
Proof.
  intros (Hlx & Hhx & Hox & Hly & Hhy & Hoy) Hx Hy [Hdx Hdy] Hs Hdt.
  pose proof (bounds_ordered _ _ Hlx Hhx Hox) as Bx.
  pose proof (bounds_ordered _ _ Hly Hhy Hoy) as By.
  pose proof (candidate_number _ _ _ _ Hx Hdx Hs Hdt) as Nx.
  pose proof (candidate_number _ _ _ _ Hy Hdy Hs Hdt) as Ny.
  destruct (clamp_within _ _ _ Bx Nx) as [X1 X2].
  destruct (clamp_within _ _ _ By Ny) as [Y1 Y2].
  unfold inside, Character.update. cbn [Character.x Character.y].
  unfold clamp, fle in *. now rewrite X1, X2, Y1, Y2.
Qed.

(** A character with the boundary and speed the game gives it, heading
    diagonally after [setDirection(1, 1)], updated with a 16 ms frame. *)
Lemma update_within_boundary_witness :
  let c := Character.setDirection
             (Character.constructor (Some 400) (Some 300) (Some 5)
                                    (Some (Boundary.mk 0 800 0 600))) 1 1 in
  inside (Character.boundary c)
         (Character.x (Character.update c 16))
         (Character.y (Character.update c 16)) = true.
Proof.
  apply update_within_boundary.
  - repeat split; try (right; reflexivity); intros; reflexivity.
  - reflexivity.
  - reflexivity.
  - split; reflexivity.
  - reflexivity.
  - reflexivity.
Defined.

(** ** No movement: zero direction, zero time delta, zero speed *)

Lemma min_feq hi v v' :
  is_nan hi = false -> feq v v' -> feq (Math.min hi v) (Math.min hi v').
Proof.
  intros Hhi E. apply feq_fle in E as [E1 E2].
  destruct (fle_number _ _ E1) as [Hv Hv'].
  destruct (min_cases hi v Hhi Hv) as [[-> H1]|[-> H1]];
  destruct (min_cases hi v' Hhi Hv') as [[-> H2]|[-> H2]];
    apply feq_fle; split; eauto with float_order.
Qed.

Lemma max_feq lo w w' :
  is_nan lo = false -> feq w w' -> feq (Math.max lo w) (Math.max lo w').
Proof.
  intros Hlo E. apply feq_fle in E as [E1 E2].
  destruct (fle_number _ _ E1) as [Hw Hw'].
  destruct (max_cases lo w Hlo Hw) as [[-> H1]|[-> H1]];
  destruct (max_cases lo w' Hlo Hw') as [[-> H2]|[-> H2]];
    apply feq_fle; split; eauto with float_order.
Qed.

Lemma clamp_feq lo hi v v' :
  is_nan lo = false -> is_nan hi = false -> feq v v' ->
  feq (clamp lo hi v) (clamp lo hi v').
Proof.
  intros Hlo Hhi E. unfold clamp. now apply max_feq, min_feq.
Qed.

Lemma lower_bound_number lo : lower_bound lo -> is_nan lo = false.
Proof.
  intros [->|H]; [reflexivity|now apply is_finite_number].
Qed.

Lemma upper_bound_number hi : upper_bound hi -> is_nan hi = false.
Proof.
  intros [->|H]; [reflexivity|now apply is_finite_number].
Qed.

Lemma inside_iff b px py :
  inside b px py = true <->
  (fle (Boundary.minX b) px /\ fle px (Boundary.maxX b)) /\
  (fle (Boundary.minY b) py /\ fle py (Boundary.maxY b)).
Proof.
  unfold inside, fle. rewrite !andb_true_iff. tauto.
Qed.

(** An update whose candidate position is the current position returns the
    clamped position, which is the current position when that is inside. *)
Lemma still_update c dt :
  boundary_invariant (Character.boundary c) ->
  feq (Character.candidateX c dt) (Character.x c) ->
  feq (Character.candidateY c dt) (Character.y c) ->
  same_point (Character.getPosition (Character.update c dt)) (clamped_position c) /\
  (inside (Character.boundary c) (Character.x c) (Character.y c) = true ->
   same_point (Character.getPosition (Character.update c dt))
              (Character.getPosition c)).
Proof.
  intros (Hlx & Hhx & _ & Hly & Hhy & _) Ex Ey.
  apply lower_bound_number in Hlx, Hly. apply upper_bound_number in Hhx, Hhy.
  assert (S : same_point (Character.getPosition (Character.update c dt))
                         (clamped_position c)).
  { split; cbn; now apply clamp_feq. }
  split; [exact S|].
  intros Hin. apply inside_iff in Hin as [[X1 X2] [Y1 Y2]].
  destruct S as [Sx Sy]. split.
  - eapply feq_trans; [exact Sx|]. cbn. now apply clamp_inside.
  - eapply feq_trans; [exact Sy|]. cbn. now apply clamp_inside.
Qed.

Lemma zero_direction_candidate p d s dt :
  is_nan p = false -> feq d 0 -> is_finite s = true -> is_finite dt = true ->
  feq (p + d * s * (dt / 1000)) p.
Proof.
  intros Hp Hd Hs Hdt. apply add_zero; [assumption|].
  apply mul_zero_l; [now apply mul_zero_l|now apply div_1000_finite].
Qed.

Lemma zero_delta_candidate p d s dt :
  is_nan p = false -> fle (abs d) 1 -> is_finite s = true -> feq dt 0 ->
  feq (p + d * s * (dt / 1000)) p.
Proof.
  intros Hp Hd Hs Hdt. apply add_zero; [assumption|].
  apply mul_zero_r; [now apply mul_finite_unit|now apply div_1000_zero].
Qed.

Lemma zero_speed_candidate p d s dt :
  is_nan p = false -> is_finite d = true -> feq s 0 -> is_finite dt = true ->
  feq (p + d * s * (dt / 1000)) p.
Proof.
  intros Hp Hd Hs Hdt. apply add_zero; [assumption|].
  apply mul_zero_l; [now apply mul_zero_r|now apply div_1000_finite].
Qed.

Lemma same_point_trans p q r : same_point p q -> same_point q r -> same_point p r.
Proof. intros [] []. split; eapply feq_trans; eauto. Qed.

Lemma inside_feq b px py qx qy :
  feq qx px -> feq qy py -> inside b px py = true -> inside b qx qy = true.
Proof.
  intros Ex Ey. rewrite !inside_iff. apply feq_fle in Ex as [], Ey as [].
  intros [[] []]. repeat split; eauto with float_order.
Qed.

(** With a zero direction, any number of updates of a character that is
    inside its boundary leaves it where it is. *)
Lemma zero_direction_stays n : forall c dt,
  boundary_invariant (Character.boundary c) ->
  is_zero_vector (Character.direction c) ->
  is_finite (Character.speed c) = true ->
  is_finite dt = true ->
  inside (Character.boundary c) (Character.x c) (Character.y c) = true ->
  same_point (Character.getPosition (Character.updates n c dt))
             (Character.getPosition c).
Proof.
  induction n as [|n IH]; intros c dt Hb [Zx Zy] Hs Hdt Hin.
  - apply inside_iff in Hin as [[X1 _] [Y1 _]].
    apply fle_number in X1 as [_ X1], Y1 as [_ Y1].
    split; now apply feq_refl.
  - pose proof Hin as Hin'. apply inside_iff in Hin' as [[X1 _] [Y1 _]].
    apply fle_number in X1 as [_ X1], Y1 as [_ Y1].
    destruct (still_update c dt Hb) as [_ St].
    { now apply zero_direction_candidate. }
    { now apply zero_direction_candidate. }
    specialize (St Hin). cbn [Character.updates].
    eapply same_point_trans; [|exact St].
    apply IH; try assumption.
    + now split.
    + destruct St as [Sx Sy]. now apply (inside_feq _ _ _ _ _ Sx Sy).
Qed.

Lemma clamped_inside c :
  boundary_invariant (Character.boundary c) ->
  is_nan (Character.x c) = false -> is_nan (Character.y c) = false ->
  inside (Character.boundary c) (Vec.x (clamped_position c))
         (Vec.y (clamped_position c)) = true.
Proof.
  intros (Hlx & Hhx & Hox & Hly & Hhy & Hoy) Hx Hy.
  pose proof (bounds_ordered _ _ Hlx Hhx Hox) as Bx.
  pose proof (bounds_ordered _ _ Hly Hhy Hoy) as By.
  apply inside_iff. cbn. split; now apply clamp_within.
Qed.

(** C3 (amended).  With a zero stored direction, a finite speed and a finite
    time delta, every call of [update] returns the clamped input position:
    after one or more calls the character is at the clamped starting
    position, and if it started inside the boundary it is still where it
    started after any number of calls. *)
Theorem zero_direction_no_drift (c : Character.t) (deltaTime : float) (n : nat) :
  boundary_invariant (Character.boundary c) ->
  is_zero_vector (Character.direction c) ->
  is_finite (Character.speed c) = true ->
  is_finite deltaTime = true ->
  is_nan (Character.x c) = false ->
  is_nan (Character.y c) = false ->
  same_point (Character.getPosition (Character.updates (S n) c deltaTime))
             (clamped_position c) /\
  (inside (Character.boundary c) (Character.x c) (Character.y c) = true ->
   same_point (Character.getPosition (Character.updates n c deltaTime))
              (Character.getPosition c)).
Proof.
  intros Hb Hz Hs Hdt Hx Hy. split.
  - destruct Hz as [Zx Zy].
    destruct (still_update c deltaTime Hb) as [St _].
    { now apply zero_direction_candidate. }
    { now apply zero_direction_candidate. }
    cbn [Character.updates].
    eapply same_point_trans; [|exact St].
    apply zero_direction_stays; try assumption.
    + now split.
    + destruct St as [Sx Sy].
      change (Character.boundary (Character.update c deltaTime))
        with (Character.boundary c).
      apply (inside_feq _ _ _ _ _ Sx Sy). now apply clamped_inside.
  - intros Hin. now apply zero_direction_stays.
Qed.

(** The same character as in the game, standing still, three frames. *)
Lemma zero_direction_no_drift_witness :
  let c := Character.constructor (Some 400) (Some 300) (Some 5)
                                 (Some (Boundary.mk 0 800 0 600)) in
  same_point (Character.getPosition (Character.updates 3 c 16))
             (Character.getPosition c).
Proof.
  refine (proj2 (zero_direction_no_drift _ 16 3 _ _ _ _ _ _) _).
  - repeat split; try (right; reflexivity); intros; reflexivity.
  - split; reflexivity.
  - reflexivity.
  - reflexivity.
  - reflexivity.
  - reflexivity.
  - reflexivity.
Defined.

(** C3 as stated fails for a character that starts outside its boundary (the
    constructor does not clamp): created at [(-5, 0)] with the boundary
    [0..800 x 0..600], direction zero, its first [update(16)] moves it to
    [(0, 0)]. *)
Lemma zero_direction_update_changes_position :
  let c := Character.constructor (Some (-5)) (Some 0) (Some 10)
                                 (Some (Boundary.mk 0 800 0 600)) in
  Character.direction c = Vec.mk 0 0 /\
  (0 <=? 16) = true /\
  Character.getPosition c = Vec.mk (-5) 0 /\
  Character.getPosition (Character.update c 16) = Vec.mk 0 0 /\
  (Character.x (Character.update c 16) =? Character.x c) = false.
Proof. repeat split. Qed.

(** C4 (amended).  With [deltaTime = 0] (direction of components at most 1,
    finite speed), and likewise with [speed = 0] (any finite direction, any
    finite [deltaTime]), the movement is zero: the candidate position is the
    current position, [update] returns the clamped position, and the position
    is unchanged when it lies inside the boundary. *)
Theorem no_movement_without_time_or_speed (c : Character.t) (deltaTime : float) :
  boundary_invariant (Character.boundary c) ->
  is_nan (Character.x c) = false ->
  is_nan (Character.y c) = false ->
  (feq deltaTime 0 /\ at_most_unit (Character.direction c) /\
   is_finite (Character.speed c) = true) \/
  (feq (Character.speed c) 0 /\
   is_finite (Vec.x (Character.direction c)) = true /\
   is_finite (Vec.y (Character.direction c)) = true /\
   is_finite deltaTime = true) ->
  (feq (Character.candidateX c deltaTime) (Character.x c) /\
   feq (Character.candidateY c deltaTime) (Character.y c)) /\
  same_point (Character.getPosition (Character.update c deltaTime))
             (clamped_position c) /\
  (inside (Character.boundary c) (Character.x c) (Character.y c) = true ->
   same_point (Character.getPosition (Character.update c deltaTime))
              (Character.getPosition c)).
Proof.
  intros Hb Hx Hy H.
  assert (E : feq (Character.candidateX c deltaTime) (Character.x c) /\
              feq (Character.candidateY c deltaTime) (Character.y c)).
  { destruct H as [(Hdt & [Hdx Hdy] & Hs)|(Hs & Hdx & Hdy & Hdt)].
    - split; now apply zero_delta_candidate.
    - split; now apply zero_speed_candidate. }
  split; [exact E|]. destruct E as [Ex Ey]. now apply still_update.
Qed.

(** A diagonal heading with [deltaTime = 0]. *)
Lemma no_movement_without_time_or_speed_witness :
  let c := Character.setDirection
             (Character.constructor (Some 400) (Some 300) (Some 5)
                                    (Some (Boundary.mk 0 800 0 600))) 1 1 in
  same_point (Character.getPosition (Character.update c 0))
             (Character.getPosition c).
Proof.
  refine (proj2 (proj2 (no_movement_without_time_or_speed _ 0 _ _ _ _)) _).
  - repeat split; try (right; reflexivity); intros; reflexivity.
  - reflexivity.
  - reflexivity.
  - left. repeat split.
  - reflexivity.
Defined.

(** C4 as stated fails for a character outside its boundary: created at
    [(900, 300)] with the boundary [0..800 x 0..600] and heading right,
    [update(0)] moves it to [(800, 300)]; with speed 0 and a 16 ms frame it
    does the same. *)
Lemma zero_delta_update_changes_position :
  let c := Character.setDirection
             (Character.constructor (Some 900) (Some 300) (Some 5)
                                    (Some (Boundary.mk 0 800 0 600))) 1 0 in
  let c0 := Character.setSpeed c 0 in
  Character.getPosition c = Vec.mk 900 300 /\
  Character.getPosition (Character.update c 0) = Vec.mk 800 300 /\
  (Character.x (Character.update c 0) =? Character.x c) = false /\
  Character.speed c0 = 0 /\
  Character.getPosition (Character.update c0 16) = Vec.mk 800 300 /\
  (Character.x (Character.update c0 16) =? Character.x c0) = false.
Proof. repeat split. Qed.

(** ** Direction normalization *)

Lemma zero_cases a : feq a 0 -> a = 0 \/ a = neg_zero.
Proof.
  rewrite feq_zero_SF. intros [[|] H]; [right|left]; apply Prim2SF_inj; now rewrite H.
Qed.




(** ** Collision test *)








(** ** Speed assignment *)

(** C6.  [setSpeed(newSpeed)] stores [Math.max(0, newSpeed)], the larger of
    0 and [newSpeed]: a negative speed is replaced by zero (nothing is
    rejected), a zero speed is stored as [0], a positive speed as it is, and
    the stored speed of any number is non-negative ([NaN], which is not a
    number, is stored as it is). *)
Theorem setSpeed_clamps_to_zero (c : Character.t) (newSpeed : float) :
  let stored := Character.speed (Character.setSpeed c newSpeed) in
  stored = Math.max 0 newSpeed /\
  (flt newSpeed 0 -> stored = 0) /\
  (feq newSpeed 0 -> stored = 0) /\
  (flt 0 newSpeed -> stored = newSpeed) /\
  (is_nan newSpeed = false -> fle 0 stored).
Proof.
  cbn [Character.setSpeed Character.speed]. repeat split.
  - intros Hlt. pose proof (flt_fle _ _ Hlt) as Hle.
    destruct (fle_number _ _ Hle) as [Hn _].
    unfold Math.max. rewrite Hn. change (is_nan 0) with false. cbn [orb].
    rewrite (fle_not_flt _ _ Hle). unfold flt in Hlt. now rewrite Hlt.
  - intros Hz. destruct (zero_cases _ Hz) as [->| ->]; reflexivity.
  - intros Hlt. pose proof (flt_fle _ _ Hlt) as Hle.
    destruct (fle_number _ _ Hle) as [_ Hn].
    unfold Math.max. rewrite Hn. change (is_nan 0) with false. cbn [orb].
    unfold flt in Hlt. now rewrite Hlt.
  - intros Hn. destruct (max_cases 0 newSpeed eq_refl Hn) as [[-> _]|[-> H]].
    + reflexivity.
    + exact H.
Qed.

(** A negative speed, as in [setSpeed(-3)]. *)
Lemma setSpeed_clamps_to_zero_witness :
  Character.speed
    (Character.setSpeed (Character.constructor None None None None) (-3)) = 0.
Proof.
  refine (proj1 (proj2 (setSpeed_clamps_to_zero _ (-3))) _). reflexivity.
Defined.

(** ** Unbounded axes *)

Lemma min_inside hi v : fle v hi -> feq (Math.min hi v) v.
Proof.
  intros H. destruct (fle_number _ _ H) as [Hv Hhi].
  destruct (min_cases hi v Hhi Hv) as [[-> H1]|[-> H1]].
  - apply feq_fle. now split.
  - now apply feq_refl.
Qed.

Lemma max_inside lo v : fle lo v -> feq (Math.max lo v) v.
Proof.
  intros H. destruct (fle_number _ _ H) as [Hlo Hv].
  destruct (max_cases lo v Hlo Hv) as [[-> H1]|[-> H1]].
  - apply feq_fle. now split.
  - now apply feq_refl.
Qed.

(** C7.  An absent bound never clamps.  With [minX = -Infinity] the new [x]
    is [Math.min(maxX, candidate)], hence the candidate
    [x + direction.x * speed * (deltaTime / 1000)] whenever that does not
    exceed [maxX]; with [maxX = Infinity] it is [Math.max(minX, candidate)],
    hence the candidate whenever that is not below [minX]; likewise for [y].
    With the boundary the constructor installs by default, the result of
    [update] is exactly the candidate position. *)
Theorem unbounded_axis_never_clamps (c : Character.t) (deltaTime : float) :
  let b := Character.boundary c in
  let c' := Character.update c deltaTime in
  let candX := Character.x c
               + Vec.x (Character.direction c) * Character.speed c
                 * (deltaTime / 1000) in
  let candY := Character.y c
               + Vec.y (Character.direction c) * Character.speed c
                 * (deltaTime / 1000) in
  (Boundary.minX b = neg_infinity ->
   Character.x c' = Math.min (Boundary.maxX b) candX /\
   (fle candX (Boundary.maxX b) -> feq (Character.x c') candX)) /\
  (Boundary.maxX b = infinity ->
   Character.x c' = Math.max (Boundary.minX b) candX /\
   (fle (Boundary.minX b) candX -> feq (Character.x c') candX)) /\
  (Boundary.minY b = neg_infinity ->
   Character.y c' = Math.min (Boundary.maxY b) candY /\
   (fle candY (Boundary.maxY b) -> feq (Character.y c') candY)) /\
  (Boundary.maxY b = infinity ->
   Character.y c' = Math.max (Boundary.minY b) candY /\
   (fle (Boundary.minY b) candY -> feq (Character.y c') candY)) /\
  (b = Boundary.unbounded ->
   Character.getPosition c' = Vec.mk candX candY) /\
  (forall startX startY speed0,
     Character.boundary (Character.constructor startX startY speed0 None)
     = Boundary.unbounded).
Proof.
  cbv zeta. unfold Character.update, Character.getPosition.
  cbn [Character.x Character.y].
  split; [|split; [|split; [|split; [|split]]]].
  - intros ->. rewrite max_neg_infinity. split; [reflexivity|apply min_inside].
  - intros ->. rewrite min_infinity. split; [reflexivity|apply max_inside].
  - intros ->. rewrite max_neg_infinity. split; [reflexivity|apply min_inside].
  - intros ->. rewrite min_infinity. split; [reflexivity|apply max_inside].
  - intros ->. cbn [Boundary.minX Boundary.maxX Boundary.minY Boundary.maxY
                    Boundary.unbounded].
    now rewrite !min_infinity, !max_neg_infinity.
  - reflexivity.
Qed.

(** A character created without a boundary, heading diagonally. *)
Lemma unbounded_axis_never_clamps_witness :
  let c := Character.setDirection
             (Character.constructor (Some 400) (Some 300) None None) 1 1 in
  Character.getPosition (Character.update c 16)
  = Vec.mk (Character.candidateX c 16) (Character.candidateY c 16).
Proof.
  refine (proj1 (proj2 (proj2 (proj2 (proj2
            (unbounded_axis_never_clamps _ 16))))) _).
  reflexivity.
Defined.

(** ** The diagonal example *)

(** C8.  From [(0, 0)] with no boundary, [setDirection(1, 1)] stores
    [1 / Math.sqrt(2) = 0.7071067811865475] in both components, and
    [update(1000)] at speed 10 then yields [(7.0710678118654746,
    7.0710678118654746)], between 7.071 and 7.0711 on each axis: the point
    lies at distance 10 from the start, the distance an axis-aligned heading
    covers in the same second. *)
Theorem diagonal_speed_example :
  let c0 := Character.constructor (Some 0) (Some 0) (Some 10) None in
  let c1 := Character.setDirection c0 1 1 in
  let c2 := Character.update c1 1000 in
  Character.boundary c0 = Boundary.unbounded /\
  Character.direction c1 = Vec.mk (1 / Math.sqrt 2) (1 / Math.sqrt 2) /\
  Character.direction c1 = Vec.mk 0x1.6a09e667f3bccp-1 0x1.6a09e667f3bccp-1 /\
  (fle 0.7071 (Vec.x (Character.direction c1)) /\
   fle (Vec.x (Character.direction c1)) 0.7072) /\
  Character.getPosition c2 = Vec.mk 0x1.c48c6001f0abfp+2 0x1.c48c6001f0abfp+2 /\
  (fle 7.071 (Character.x c2) /\ fle (Character.x c2) 7.0711) /\
  (fle 7.071 (Character.y c2) /\ fle (Character.y c2) 7.0711) /\
  distance (Character.getPosition c2) (Character.getPosition c0) = 10 /\
  Character.getPosition (Character.update (Character.setDirection c0 1 0) 1000)
  = Vec.mk 10 0.
Proof. vm_compute. repeat split. Qed.

(** ** The two update variants *)







(** ** Frame conditions *)

(** C10.  [update] writes only [x] and [y]; [setDirection] writes only the
    direction; [setSpeed] writes only the speed; so of all the methods only
    [update] can change the position. *)
Theorem methods_frame (c : Character.t) :
  (forall deltaTime,
     Character.speed (Character.update c deltaTime) = Character.speed c /\
     Character.direction (Character.update c deltaTime) = Character.direction c /\
     Character.boundary (Character.update c deltaTime) = Character.boundary c) /\
  (forall x0 y0,
     Character.x (Character.setDirection c x0 y0) = Character.x c /\
     Character.y (Character.setDirection c x0 y0) = Character.y c /\
     Character.speed (Character.setDirection c x0 y0) = Character.speed c /\
     Character.boundary (Character.setDirection c x0 y0) = Character.boundary c) /\
  (forall newSpeed,
     Character.x (Character.setSpeed c newSpeed) = Character.x c /\
     Character.y (Character.setSpeed c newSpeed) = Character.y c /\
     Character.direction (Character.setSpeed c newSpeed) = Character.direction c /\
     Character.boundary (Character.setSpeed c newSpeed) = Character.boundary c) /\
  (forall m, is_update m = false ->
     Character.getPosition (Character.call c m) = Character.getPosition c).
Proof.
  repeat split.
  - unfold Character.setDirection. now destruct (0 <? _).
  - unfold Character.setDirection. now destruct (0 <? _).
  - unfold Character.setDirection. now destruct (0 <? _).
  - unfold Character.setDirection. now destruct (0 <? _).
  - destruct m; try discriminate; try reflexivity.
    cbn [Character.call]. unfold Character.setDirection, Character.getPosition.
    now destruct (0 <? _).
Qed.

(** Changing the speed of a character at [(400, 300)]. *)
Lemma methods_frame_witness :
  let c := Character.constructor (Some 400) (Some 300) None None in
  Character.getPosition (Character.call c (Character.SetSpeed 3))
  = Vec.mk 400 300.
Proof.
  refine (proj2 (proj2 (proj2 (methods_frame _))) (Character.SetSpeed 3) _).
  reflexivity.
Defined.

(** ** Further facts about the class *)

(** The boundary example of the specification: boundary [0..800 x 0..600],
    position [(0, 0)], heading left at speed 100, one second: the candidate
    is [(-100, 0)] and the result is [(0, 0)]. *)
Theorem boundary_clamp_example :
  let c := Character.setDirection
             (Character.constructor (Some 0) (Some 0) (Some 100)
                                    (Some (Boundary.mk 0 800 0 600))) (-1) 0 in
  Character.direction c = Vec.mk (-1) 0 /\
  Character.candidateX c 1000 = -100 /\
  (Character.candidateY c 1000 =? 0) = true /\
  Character.getPosition (Character.update c 1000) = Vec.mk 0 0.
Proof. vm_compute. repeat split. Qed.

(** Every direction the keyboard handlers can set has components of
    magnitude at most 1, whatever the character: the containment theorem
    applies to every state the game reaches from finite coordinates. *)
Theorem key_directions_at_most_unit (c : Character.t) (x0 y0 : float) :
  In (x0, y0) key_inputs ->
  at_most_unit (Character.direction (Character.setDirection c x0 y0)).
Proof.
  intros Hin. by_key_cases Hin.
Qed.

Lemma key_directions_at_most_unit_witness :
  at_most_unit
    (Character.direction
       (Character.setDirection (Character.constructor None None None None) 1 1)).
Proof.
  apply key_directions_at_most_unit. unfold key_inputs. cbn [In]. tauto.
Defined.

(** The collision test decides on the rounded distance.  With the default
    radius, the points [(0, 0)] and [(64 - 2^-47, 1.875 * 2^-21)] are at an
    exact distance below 64 (the exact squared distance is below 4096), but
    the distance evaluates to 64 and the test answers [false]. *)
Theorem collision_rounds_at_the_threshold :
  let a := Character.constructor (Some 0) (Some 0) None None in
  let b := Vec.mk 0x1.fffffffffffffp+5 0x1.ep-21 in
  option_map (fun q => Qle_bool 4096 q)
             (exact_sum_of_squares (Vec.x b) (Vec.y b)) = Some false /\
  distance (Character.getPosition a) b = 64 /\
  Character.isCollidingWith a b None = false.
Proof. vm_compute. repeat split. Qed.

(** Outside the key combinations [setDirection] does not always store a
    unit vector: for the tiny input [(1.5 * 2^-537, 0)] the square
    underflows, the length is rounded down, and the stored vector is
    [(1.0606601717798212, 0)], longer than 1. *)
Theorem setDirection_underflow_exceeds_unit :
  let d := Character.direction
             (Character.setDirection
                (Character.constructor None None None None) 0x1.8p-537 0) in
  d = Vec.mk 0x1.0f876ccdf6cd9p+0 0 /\
  (1 <? magnitude d) = true.
Proof. vm_compute. repeat split. Qed.

End Contract.

(** * Beyond the contract

    Facts the code shows that the specification does not state: how rounding
    orders sums, which way [update] moves, what the key listeners and the
    game loops of the two games keep true. *)

(** ** The value of a double and the monotonicity of rounding *)


Section Values.

Local Open Scope Z_scope.

Lemma value_pos m e : -1074 <= e -> 0 < Z.pos m * 2 ^ (e + 1074).
Proof. intros He. apply Z.mul_pos_pos; [lia|]. apply pow2_gt0. lia. Qed.

Lemma valid_value_lt s1 m1 e1 s2 m2 e2 :
  valid_binary (S754_finite s1 m1 e1) = true ->
  valid_binary (S754_finite s2 m2 e2) = true ->
  e1 < e2 ->
  Z.pos m1 * 2 ^ (e1 + 1074) < Z.pos m2 * 2 ^ (e2 + 1074).
Proof.
  intros V1 V2 Hlt.
  destruct (valid_finite_bounds _ _ _ V1) as (H1 & H1' & _).
  destruct (valid_finite_bounds _ _ _ V2) as (H2 & H2' & _).
  assert (Hn : 2 ^ 52 <= Z.pos m2) by (apply (valid_normal_mantissa _ _ _ V2); lia).
  replace (e2 + 1074) with ((e2 - e1 - 1) + (1 + (e1 + 1074))) by lia.
  rewrite (pow2_split (e2 - e1 - 1)), (pow2_split 1) by lia.
  change (2 ^ 1) with 2.
  assert (HP : 0 < 2 ^ (e1 + 1074)) by (apply pow2_gt0; lia).
  assert (HQ : 1 <= 2 ^ (e2 - e1 - 1)).
  { change 1 with (2 ^ 0). apply Z.pow_le_mono_r; lia. }
  change (2 ^ 53) with 9007199254740992 in *.
  change (2 ^ 52) with 4503599627370496 in *.
  revert HP HQ. generalize (2 ^ (e1 + 1074)) (2 ^ (e2 - e1 - 1)). intros P Q HP HQ.
  assert (Z.pos m1 * P < 9007199254740992 * P) by nia.
  assert (4503599627370496 * (2 * P) <= Z.pos m2 * (2 * P)) by nia.
  assert (Z.pos m2 * (2 * P) <= Z.pos m2 * (Q * (2 * P))) by nia.
  lia.
Qed.

Lemma valid_compare_pos s1 m1 e1 s2 m2 e2 :
  valid_binary (S754_finite s1 m1 e1) = true ->
  valid_binary (S754_finite s2 m2 e2) = true ->
  match e1 ?= e2 with
  | Lt => Lt
  | Gt => Gt
  | Eq => Pos.compare m1 m2
  end = (Z.pos m1 * 2 ^ (e1 + 1074) ?= Z.pos m2 * 2 ^ (e2 + 1074)).
Proof.
  intros V1 V2. destruct (Z.compare_spec e1 e2) as [E|E|E].
  - subst e2. destruct (valid_finite_bounds _ _ _ V1) as (_ & H1' & _).
    assert (HP : 0 < 2 ^ (e1 + 1074)) by (apply pow2_gt0; lia).
    rewrite <- Zmult_compare_compat_r by lia. reflexivity.
  - symmetry. apply Z.compare_lt_iff. eapply valid_value_lt; eassumption.
  - symmetry. apply Z.compare_gt_iff. eapply valid_value_lt; eassumption.
Qed.

(** On the finite doubles the comparison is the comparison of the values. *)
Lemma SFcompare_value f g :
  valid_binary f = true -> valid_binary g = true ->
  SFis_finite f = true -> SFis_finite g = true ->
  SFcompare f g = Some (SFvalue f ?= SFvalue g).
Proof.
  destruct f as [sf|sf| |sf mf ef]; try discriminate;
  destruct g as [sg|sg| |sg mg eg]; try discriminate; intros Vf Vg _ _.
  - reflexivity.
  - destruct (valid_finite_bounds _ _ _ Vg) as (_ & Hg & _).
    pose proof (value_pos mg eg ltac:(lia)) as Hp.
    cbn [SFcompare SFvalue]. f_equal. symmetry.
    destruct sg; cbn [cond_Zopp].
    + apply Z.compare_gt_iff. lia.
    + apply Z.compare_lt_iff. lia.
  - destruct (valid_finite_bounds _ _ _ Vf) as (_ & Hf & _).
    pose proof (value_pos mf ef ltac:(lia)) as Hp.
    cbn [SFcompare SFvalue]. f_equal. symmetry.
    destruct sf; cbn [cond_Zopp].
    + apply Z.compare_lt_iff. lia.
    + apply Z.compare_gt_iff. lia.
  - destruct (valid_finite_bounds _ _ _ Vf) as (_ & Hf & _).
    destruct (valid_finite_bounds _ _ _ Vg) as (_ & Hg & _).
    pose proof (value_pos mf ef ltac:(lia)) as Hpf.
    pose proof (value_pos mg eg ltac:(lia)) as Hpg.
    cbn [SFcompare SFvalue]. f_equal.
    change (Pos.compare_cont Eq mf mg) with (Pos.compare mf mg).
    destruct sf, sg; cbn [cond_Zopp].
    + rewrite Z.compare_opp.
      rewrite <- (valid_compare_pos _ _ _ _ _ _ Vg Vf).
      rewrite (Z.compare_antisym eg ef), (Pos.compare_antisym mg mf).
      destruct (eg ?= ef); cbn [CompOpp]; try reflexivity.
      apply CompOpp_involutive.
    + symmetry. apply Z.compare_lt_iff. lia.
    + symmetry. apply Z.compare_gt_iff. lia.
    + apply (valid_compare_pos _ _ _ _ _ _ Vf Vg).
Qed.

Lemma SFleb_value f g :
  valid_binary f = true -> valid_binary g = true ->
  SFis_finite f = true -> SFis_finite g = true ->
  SFleb f g = true <-> SFvalue f <= SFvalue g.
Proof.
  intros Vf Vg Ff Fg. unfold SFleb. rewrite SFcompare_value by assumption.
  unfold Z.le. destruct (SFvalue f ?= SFvalue g); split; congruence.
Qed.

Lemma SFltb_value f g :
  valid_binary f = true -> valid_binary g = true ->
  SFis_finite f = true -> SFis_finite g = true ->
  SFltb f g = true <-> SFvalue f < SFvalue g.
Proof.
  intros Vf Vg Ff Fg. unfold SFltb. rewrite SFcompare_value by assumption.
  unfold Z.lt. destruct (SFvalue f ?= SFvalue g); split; congruence.
Qed.

(** Aligning a mantissa to a lower exponent multiplies it by a power of two
    and keeps the value. *)
Lemma pos_iter_xO m d : Z.pos (Pos.iter xO m d) = Z.pos m * 2 ^ Z.pos d.
Proof.
  induction d as [|d IH] using Pos.peano_ind.
  - simpl. lia.
  - rewrite Pos.iter_succ, Pos2Z.inj_xO, IH, Pos2Z.inj_succ, Z.pow_succ_r by lia. lia.
Qed.

Lemma shl_align_spec mx ex ex' :
  exists mz, shl_align mx ex ex' = (mz, Z.min ex ex') /\
             Z.pos mz = Z.pos mx * 2 ^ (ex - Z.min ex ex').
Proof.
  unfold shl_align. destruct (ex' - ex) as [|d|d] eqn:E.
  - exists mx. replace (Z.min ex ex') with ex by lia.
    rewrite Z.sub_diag. split; [reflexivity|]. simpl. lia.
  - exists mx. replace (Z.min ex ex') with ex by lia.
    rewrite Z.sub_diag. split; [reflexivity|]. simpl. lia.
  - exists (shift_pos d mx). replace (Z.min ex ex') with ex' by lia.
    split; [reflexivity|]. unfold shift_pos. rewrite pos_iter_xO.
    f_equal. f_equal. lia.
Qed.

Lemma Zdigits2_mul_pow2 m k : 0 < m -> 0 <= k -> Zdigits2 (m * 2 ^ k) = Zdigits2 m + k.
Proof.
  intros Hm Hk. assert (0 < 2 ^ k) by now apply pow2_gt0.
  rewrite !Zdigits2_log2 by nia. rewrite Z.log2_mul_pow2 by lia. lia.
Qed.

(** Multiples of a grid step: a multiple below the next multiple after
    another one is at most that one. *)
Lemma grid_le G a b : 0 < G -> (G | a) -> (G | b) -> a < b + G -> a <= b.
Proof.
  intros HG [ka ->] [kb ->] H. assert (ka < kb + 1) by nia. nia.
Qed.

(** Rounding to nearest is monotone with respect to the representable
    numbers.  [X] is the exact value, [v] the rounded one, a multiple of the
    grid step [G] less than a step away from [X]; [B], the lower end of the
    binade of [X], lies on the grid; a representable [A] lies on the grid or
    below [B] in magnitude. *)
Lemma round_value_up G B X v A :
  0 < G -> (G | v) -> (G | B) -> v - G < X < v + G -> B <= X ->
  (G | A) \/ Z.abs A < B ->
  A <= X -> A <= v.
Proof.
  intros HG Hv HB HX HBX [HA|HA] HAX.
  - apply (grid_le G); try assumption. lia.
  - assert (B <= v) by (apply (grid_le G); try assumption; lia). lia.
Qed.

Lemma round_value_down G B X v A :
  0 < G -> (G | v) -> (G | B) -> v - G < X < v + G -> B <= X ->
  (G | A) \/ Z.abs A < B ->
  X <= A -> v <= A.
Proof.
  intros HG Hv HB HX HBX [HA|HA] HAX.
  - apply (grid_le G); try assumption. lia.
  - lia.
Qed.

(** The value of a finite double lies on the grid of any binade at or below
    its own, and below the binades whose grid is coarser. *)
Lemma valid_on_grid s m e D :
  valid_binary (S754_finite s m e) = true ->
  let A := SFvalue (S754_finite s m e) in
  let F := fexp prec emax D in
  (2 ^ (F + 1074) | A) \/ Z.abs A < 2 ^ (D - 1 + 1074).
Proof.
  intros V A F.
  destruct (valid_finite_bounds _ _ _ V) as (H1 & H2 & H3).
  assert (HF : F = Z.max (D - 53) (-1074)) by (unfold F; now rewrite fexp_eq).
  destruct (Z_le_gt_dec F e) as [Hle|Hgt].
  - left. unfold A. cbn [SFvalue].
    replace (e + 1074) with ((e - F) + (F + 1074)) by lia.
    rewrite (pow2_split (e - F)) by lia.
    destruct s; cbn [cond_Zopp].
    + exists (- (Z.pos m * 2 ^ (e - F))). ring.
    + exists (Z.pos m * 2 ^ (e - F)). ring.
  - right. assert (HA : Z.abs A = Z.pos m * 2 ^ (e + 1074)).
    { pose proof (value_pos m e ltac:(lia)). unfold A. cbn [SFvalue].
      destruct s; cbn [cond_Zopp]; lia. }
    rewrite HA.
    assert (HD : e + 53 <= D - 1) by lia.
    eapply Z.lt_le_trans with (m := 2 ^ (53 + (e + 1074))).
    + rewrite (pow2_split 53) by lia.
      assert (0 < 2 ^ (e + 1074)) by (apply pow2_gt0; lia). nia.
    + apply Z.pow_le_mono_r; lia.
Qed.

Lemma valid_value_bound f :
  valid_binary f = true -> Z.abs (SFvalue f) < 2 ^ 2098.
Proof.
  destruct f as [s|s| |s m e]; intros V;
    try (cbn [SFvalue]; change (Z.abs 0) with 0; apply pow2_gt0; lia).
  destruct (valid_finite_bounds _ _ _ V) as (H1 & H2 & H3).
  pose proof (value_pos m e ltac:(lia)) as Hp.
  assert (HA : Z.abs (SFvalue (S754_finite s m e)) = Z.pos m * 2 ^ (e + 1074)).
  { cbn [SFvalue]. destruct s; cbn [cond_Zopp]; lia. }
  rewrite HA.
  destruct (Zdigits2_bounds (Z.pos m)) as [_ Hu]; [lia|].
  eapply Z.lt_le_trans with (m := 2 ^ (Zdigits2 (Z.pos m) + (e + 1074))).
  - assert (0 <= Zdigits2 (Z.pos m)) by (simpl; lia).
    rewrite (pow2_split (Zdigits2 (Z.pos m))) by lia.
    assert (0 < 2 ^ (e + 1074)) by (apply pow2_gt0; lia). nia.
  - apply Z.pow_le_mono_r; lia.
Qed.


(** The value [binary_round] returns.  [X] is the exact value of
    [mx * 2^ex] in units of [2^-1074], [G] the grid step of the binade of
    [X] and [B] the lower end of that binade.  The result is infinite, or a
    finite double whose value [v] is a multiple of [G] less than a step away
    from [X]. *)
Lemma binary_round_value s mx ex :
  -1074 <= ex ->
  exists v,
    let X := Z.pos mx * 2 ^ (ex + 1074) in
    let D := Zdigits2 (Z.pos mx) + ex in
    let G := 2 ^ (fexp prec emax D + 1074) in
    let B := 2 ^ (D - 1 + 1074) in
    0 < G /\ (G | v) /\ (G | B) /\ v - G < X < v + G /\ B <= X /\
    ((binary_round prec emax s mx ex = S754_infinity s /\ 2 ^ 2098 <= v) \/
     (exists m e, binary_round prec emax s mx ex = S754_finite s m e /\
                  Z.pos m * 2 ^ (e + 1074) = v)).
Proof.
  intros Hex.
  unfold binary_round.
  change (Z.pos (digits2_pos mx)) with (Zdigits2 (Z.pos mx)).
  set (D := Zdigits2 (Z.pos mx) + ex).
  set (F := fexp prec emax D).
  assert (HF : F = Z.max (D - 53) (-1074)) by (unfold F; now rewrite fexp_eq).
  assert (Hdx : 1 <= Zdigits2 (Z.pos mx)) by (simpl; lia).
  destruct (shl_align_spec mx ex F) as (mz & Hal & Hmz). rewrite Hal.
  set (ez := Z.min ex F) in *.
  assert (Hdz : Zdigits2 (Z.pos mz) + ez = D).
  { rewrite Hmz, Zdigits2_mul_pow2 by lia. unfold D. lia. }
  destruct (round_aux_shape s (Z.pos mz) ez loc_Exact) as (m2 & Hc & Hr); [lia|].
  cbn zeta in Hc, Hr. rewrite Hdz in Hc, Hr. fold F in Hc, Hr.
  replace (Z.max ez F) with F in Hc, Hr by lia.
  rewrite Hr. clear Hr.
  set (P := 2 ^ (ez + 1074)). set (Qs := 2 ^ (F - ez)) in *.
  assert (HP : 0 < P) by (apply pow2_gt0; lia).
  assert (HQ : 0 < Qs) by (apply pow2_gt0; lia).
  assert (HG : 2 ^ (F + 1074) = Qs * P).
  { unfold Qs, P. rewrite <- pow2_split by lia. f_equal. lia. }
  assert (HX : Z.pos mx * 2 ^ (ex + 1074) = Z.pos mz * P).
  { rewrite Hmz. unfold P. rewrite <- Z.mul_assoc, <- pow2_split by lia.
    do 2 f_equal. lia. }
  set (m1 := Z.pos mz / Qs) in *.
  assert (Hdiv : m1 * Qs <= Z.pos mz < (m1 + 1) * Qs).
  { unfold m1. pose proof (Z.mul_div_le (Z.pos mz) Qs HQ).
    pose proof (Z.mul_succ_div_gt (Z.pos mz) Qs HQ). lia. }
  destruct (Zdigits2_bounds (Z.pos mz)) as [Hlo Hhi]; [lia|].
  assert (Hm1u : m1 < 2 ^ 53).
  { unfold m1. apply Z.div_lt_upper_bound; [lia|]. unfold Qs.
    rewrite <- pow2_split by lia.
    eapply Z.lt_le_trans; [exact Hhi|]. apply Z.pow_le_mono_r; lia. }
  assert (Hm1l : 2 ^ (D - 1 - F) <= m1).
  { unfold m1. apply Z.div_le_lower_bound; [lia|]. unfold Qs.
    rewrite <- pow2_split by lia.
    eapply Z.le_trans; [|exact Hlo]. apply Z.pow_le_mono_r; lia. }
  assert (Hm1p : 1 <= m1).
  { eapply Z.le_trans; [|exact Hm1l]. change 1 with (2 ^ 0).
    apply Z.pow_le_mono_r; lia. }
  assert (Hm2 : m1 <= m2 <= m1 + 1 /\ m2 * Qs - Qs < Z.pos mz < m2 * Qs + Qs).
  { destruct Hc as [->|(-> & Hodd & Hne)]; [split; lia|].
    assert (Hlt : ez < F) by (destruct (Z.eq_dec F ez) as [E|E]; [now elim (Hne E)|lia]).
    specialize (Hodd Hlt). split; [lia|].
    set (k := F - ez - 1) in *.
    assert (Hk : 0 <= k) by (unfold k; lia).
    assert (HQk : Qs = 2 ^ k * 2).
    { unfold Qs. replace (F - ez) with (k + 1) by (unfold k; lia).
      now rewrite pow2_split by lia. }
    assert (Hpk : 0 < 2 ^ k) by (apply pow2_gt0; lia).
    set (q := Z.pos mz / 2 ^ k) in *.
    assert (Hq1 : m1 = q / 2).
    { unfold m1, q. rewrite HQk. rewrite Z.div_div by lia. reflexivity. }
    assert (Hq2 : q = 2 * m1 + 1).
    { rewrite (Zodd_div2 q) by (now apply Zodd_bool_iff).
      rewrite Z.div2_div, <- Hq1. reflexivity. }
    assert (Hq3 : q * 2 ^ k <= Z.pos mz).
    { unfold q. pose proof (Z.mul_div_le (Z.pos mz) (2 ^ k) Hpk). lia. }
    rewrite HQk in *. nia. }
  destruct Hm2 as (Hm2 & Hnear).
  exists (m2 * (Qs * P)). cbn zeta. fold D F. rewrite HG, HX.
  split; [nia|]. split; [now exists m2|]. split.
  { exists (2 ^ (D - 1 - F)). rewrite <- HG, <- pow2_split by lia. f_equal. lia. }
  split; [nia|]. split.
  { rewrite <- HX. replace (D - 1 + 1074) with ((Zdigits2 (Z.pos mx) - 1) + (ex + 1074)) by (unfold D; lia).
    rewrite pow2_split by lia.
    destruct (Zdigits2_bounds (Z.pos mx)) as [Hlx _]; [lia|].
    assert (0 < 2 ^ (ex + 1074)) by (apply pow2_gt0; lia). nia. }
  destruct (Z.eq_dec m2 (2 ^ 53)) as [E53|N53].
  - (* the mantissa was rounded up to the next binade *)
    assert (Hd : Zdigits2 m2 = 54) by (rewrite E53; reflexivity).
    rewrite Hd, fexp_eq.
    replace (Z.max F (Z.max (54 + F - 53) (-1074))) with (F + 1) by lia.
    replace (F + 1 - F) with 1 by lia.
    rewrite E53. change (2 ^ 53 / 2 ^ 1) with (Z.pos 4503599627370496).
    cbv iota beta.
    destruct (F + 1 <=? 971) eqn:Ele.
    + right. exists 4503599627370496%positive, (F + 1). split; [reflexivity|].
      rewrite <- HG.
      replace (F + 1 + 1074) with (1 + (F + 1074)) by lia.
      rewrite (pow2_split 1) by lia. change (2 ^ 1) with 2.
      change (2 ^ 53) with 9007199254740992. lia.
    + left. split; [reflexivity|]. apply Z.leb_gt in Ele.
      rewrite <- HG. change 2098 with (53 + 2045). rewrite (pow2_split 53) by lia.
      apply Z.mul_le_mono_nonneg_l; [lia|]. apply Z.pow_le_mono_r; lia.
  - assert (Hm2u : m2 < 2 ^ 53) by lia.
    assert (Hd : Zdigits2 m2 <= 53) by (apply Zdigits2_le_pow; lia).
    rewrite fexp_eq.
    replace (Z.max F (Z.max (Zdigits2 m2 + F - 53) (-1074))) with F by lia.
    rewrite Z.sub_diag. change (2 ^ 0) with 1. rewrite Z.div_1_r.
    destruct m2 as [|p|p]; try lia.
    destruct (F <=? 971) eqn:Ele.
    + right. exists p, F. split; [reflexivity|]. now rewrite HG.
    + left. split; [reflexivity|]. apply Z.leb_gt in Ele.
      rewrite <- HG. change 2098 with (52 + 2046). rewrite (pow2_split 52) by lia.
      assert (H52 : 2 ^ 52 <= Z.pos p).
      { eapply Z.le_trans; [|eapply Z.le_trans; [exact Hm1l|lia]].
        apply Z.pow_le_mono_r; lia. }
      assert (H2046 : 2 ^ 2046 <= 2 ^ (F + 1074)) by (apply Z.pow_le_mono_r; lia).
      apply Z.mul_le_mono_nonneg; try assumption.
      all: apply Z.lt_le_incl, pow2_gt0; lia.
Qed.


Lemma finite_on_grid a D :
  valid_binary a = true -> SFis_finite a = true ->
  (2 ^ (fexp prec emax D + 1074) | SFvalue a) \/
  Z.abs (SFvalue a) < 2 ^ (D - 1 + 1074).
Proof.
  destruct a as [s|s| |s m e]; try discriminate; intros V _.
  - left. exists 0. reflexivity.
  - now apply valid_on_grid.
Qed.

Lemma SFleb_infinity a : SFis_nan a = false -> SFleb a (S754_infinity false) = true.
Proof. destruct a as [s|s| |s m e]; try discriminate; intros _; try reflexivity; now destruct s. Qed.

Lemma SFleb_neg_infinity a : SFis_nan a = false -> SFleb (S754_infinity true) a = true.
Proof. destruct a as [s|s| |s m e]; try discriminate; intros _; try reflexivity; now destruct s. Qed.

Lemma SFis_finite_number a : SFis_finite a = true -> SFis_nan a = false.
Proof. now destruct a. Qed.

(** Rounding is monotone: a double at most the exact value is at most the
    rounded value, and a double at least the exact value is at least the
    rounded value. *)
Lemma binary_round_le s mx ex a :
  -1074 <= ex ->
  valid_binary a = true -> SFis_finite a = true ->
  valid_binary (binary_round prec emax s mx ex) = true ->
  let X := cond_Zopp s (Z.pos mx * 2 ^ (ex + 1074)) in
  (SFvalue a <= X -> SFleb a (binary_round prec emax s mx ex) = true) /\
  (X <= SFvalue a -> SFleb (binary_round prec emax s mx ex) a = true).
Proof.
  intros Hex Va Fa Vr X.
  destruct (binary_round_value s mx ex Hex) as (v & HG & Hv & HB & HX & HBX & Hres).
  cbn zeta in *.
  set (D := Zdigits2 (Z.pos mx) + ex) in *.
  set (G := 2 ^ (fexp prec emax D + 1074)) in *.
  set (B := 2 ^ (D - 1 + 1074)) in *.
  set (X0 := Z.pos mx * 2 ^ (ex + 1074)) in *.
  pose proof (finite_on_grid a D Va Fa) as Hgrid. fold G B in Hgrid.
  assert (Hgrid' : (G | - SFvalue a) \/ Z.abs (- SFvalue a) < B).
  { destruct Hgrid as [H|H]; [left; now apply Z.divide_opp_r|right; lia]. }
  pose proof (valid_value_bound a Va) as Hbound.
  pose proof (round_value_up G B X0 v (SFvalue a) HG Hv HB HX HBX Hgrid) as Up.
  pose proof (round_value_down G B X0 v (SFvalue a) HG Hv HB HX HBX Hgrid) as Down.
  pose proof (round_value_up G B X0 v (- SFvalue a) HG Hv HB HX HBX Hgrid') as Up'.
  pose proof (round_value_down G B X0 v (- SFvalue a) HG Hv HB HX HBX Hgrid') as Down'.
  destruct Hres as [[Hr Hbig]|(m & e & Hr & Hval)]; rewrite Hr in *.
  - destruct s; unfold X; cbn [cond_Zopp]; split; intros H.
    + lia.
    + apply SFleb_neg_infinity. now apply SFis_finite_number.
    + apply SFleb_infinity. now apply SFis_finite_number.
    + lia.
  - assert (Hvr : SFvalue (S754_finite s m e) = cond_Zopp s v).
    { cbn [SFvalue]. now rewrite Hval. }
    rewrite !SFleb_value by (assumption || reflexivity). rewrite Hvr.
    destruct s; unfold X; cbn [cond_Zopp]; split; intros H; lia.
Qed.

Lemma binary_normalize_le M ez a :
  -1074 <= ez ->
  valid_binary a = true -> SFis_finite a = true ->
  valid_binary (binary_normalize prec emax M ez false) = true ->
  (SFvalue a <= M * 2 ^ (ez + 1074) ->
   SFleb a (binary_normalize prec emax M ez false) = true) /\
  (M * 2 ^ (ez + 1074) <= SFvalue a ->
   SFleb (binary_normalize prec emax M ez false) a = true).
Proof.
  intros Hez Va Fa. destruct M as [|p|p]; cbn [binary_normalize]; intros Vr.
  - rewrite !SFleb_value by (assumption || reflexivity). cbn [SFvalue]. lia.
  - apply (binary_round_le false p ez a); assumption.
  - pose proof (binary_round_le true p ez a Hez Va Fa Vr) as H.
    cbn zeta in H. cbn [cond_Zopp] in H.
    replace (Z.neg p * 2 ^ (ez + 1074)) with (- (Z.pos p * 2 ^ (ez + 1074))) by lia.
    exact H.
Qed.

(** The exact sum of two finite doubles, as [SFadd] forms it before
    rounding. *)
Lemma aligned_value s m e ez :
  -1074 <= ez -> ez <= e ->
  cond_Zopp s (Z.pos (fst (shl_align m e ez))) * 2 ^ (ez + 1074) =
  SFvalue (S754_finite s m e).
Proof.
  intros H1 H2. destruct (shl_align_spec m e ez) as (mz & -> & Hmz).
  cbn [fst SFvalue]. rewrite Hmz. replace (Z.min e ez) with ez by lia.
  replace (e + 1074) with ((e - ez) + (ez + 1074)) by lia.
  rewrite (pow2_split (e - ez)) by lia.
  destruct s; cbn [cond_Zopp]; ring.
Qed.

(** Addition is monotone with respect to the doubles: a double at most the
    exact sum is at most the computed sum, and conversely. *)
Lemma SFadd_le x y a :
  valid_binary x = true -> valid_binary y = true -> valid_binary a = true ->
  SFis_finite x = true -> SFis_finite y = true -> SFis_finite a = true ->
  valid_binary (SF64add x y) = true ->
  (SFvalue a <= SFvalue x + SFvalue y -> SFleb a (SF64add x y) = true) /\
  (SFvalue x + SFvalue y <= SFvalue a -> SFleb (SF64add x y) a = true).
Proof.
  intros Vx Vy Va Fx Fy Fa.
  destruct x as [sx|sx| |sx mx ex]; try discriminate;
  destruct y as [sy|sy| |sy my ey]; try discriminate; unfold SF64add; cbn [SFadd].
  - intros Vr.
    assert (Hz : SFvalue (if sx then if sy then S754_zero sx else S754_zero false
                          else if sy then S754_zero false else S754_zero sx) = 0)
      by (destruct sx, sy; reflexivity).
    assert (Hf : SFis_finite (if sx then if sy then S754_zero sx else S754_zero false
                          else if sy then S754_zero false else S754_zero sx) = true)
      by (destruct sx, sy; reflexivity).
    rewrite !SFleb_value by assumption. rewrite Hz. cbn [SFvalue]. lia.
  - intros Vr. rewrite !SFleb_value by assumption.
    change (SFvalue (S754_zero sx)) with 0. lia.
  - intros Vr. rewrite !SFleb_value by assumption.
    change (SFvalue (S754_zero sy)) with 0. lia.
  - intros Vr.
    destruct (valid_finite_bounds _ _ _ Vx) as (_ & Hx & _).
    destruct (valid_finite_bounds _ _ _ Vy) as (_ & Hy & _).
    set (ez := Z.min ex ey) in *.
    rewrite <- (aligned_value sx mx ex ez), <- (aligned_value sy my ey ez) by (unfold ez; lia).
    rewrite <- Z.mul_add_distr_r.
    apply binary_normalize_le; try assumption. unfold ez. lia.
Qed.

Lemma SFsub_add_opp x y : SF64sub x y = SF64add x (SFopp y).
Proof.
  unfold SF64sub, SF64add.
  destruct x as [sx|sx| |sx mx ex]; destruct y as [sy|sy| |sy my ey];
    cbn [SFsub SFadd SFopp]; try reflexivity.
  - now destruct sx, sy.
  - now destruct sx, sy.
  - f_equal. destruct sy; cbn [negb cond_Zopp]; lia.
Qed.

Lemma SFvalue_opp a : SFvalue (SFopp a) = - SFvalue a.
Proof.
  destruct a as [s|s| |s m e]; try reflexivity.
  cbn [SFopp SFvalue]. destruct s; cbn [negb cond_Zopp]; lia.
Qed.

Lemma valid_opp a : valid_binary (SFopp a) = valid_binary a.
Proof. destruct a; reflexivity. Qed.

Lemma SFis_finite_opp a : SFis_finite (SFopp a) = SFis_finite a.
Proof. destruct a; reflexivity. Qed.

Lemma SFsub_le x y a :
  valid_binary x = true -> valid_binary y = true -> valid_binary a = true ->
  SFis_finite x = true -> SFis_finite y = true -> SFis_finite a = true ->
  valid_binary (SF64sub x y) = true ->
  (SFvalue a <= SFvalue x - SFvalue y -> SFleb a (SF64sub x y) = true) /\
  (SFvalue x - SFvalue y <= SFvalue a -> SFleb (SF64sub x y) a = true).
Proof.
  intros Vx Vy Va Fx Fy Fa. rewrite SFsub_add_opp. intros Vr.
  replace (SFvalue x - SFvalue y) with (SFvalue x + SFvalue (SFopp y))
    by (rewrite SFvalue_opp; lia).
  apply SFadd_le; try assumption.
  - now rewrite valid_opp.
  - now rewrite SFis_finite_opp.
Qed.

End Values.

(** ** Sums that are exact *)

Section Counting.

Local Open Scope Z_scope.

(** A value that lies on the grid of its binade is not changed by
    rounding. *)
Lemma binary_round_on_grid mx ex :
  -1074 <= ex ->
  let X := Z.pos mx * 2 ^ (ex + 1074) in
  (2 ^ (fexp prec emax (Zdigits2 (Z.pos mx) + ex) + 1074) | X) ->
  X < 2 ^ 2098 ->
  exists m e, binary_round prec emax false mx ex = S754_finite false m e /\
              Z.pos m * 2 ^ (e + 1074) = X.
Proof.
  intros Hex X HGX Hlt.
  destruct (binary_round_value false mx ex Hex) as (v & HG & Hv & _ & HX & _ & Hres).
  cbn zeta in *. fold X in HX.
  set (G := 2 ^ (fexp prec emax (Zdigits2 (Z.pos mx) + ex) + 1074)) in *.
  assert (E : v = X).
  { apply Z.le_antisymm; apply (grid_le G); try assumption; lia. }
  destruct Hres as [[_ Hbig]|(m & e & Hr & Hval)]; [lia|].
  exists m, e. split; [assumption|lia].
Qed.

(** Adding 1 to a double that holds an integer [k] below [2^53] gives
    [k + 1] exactly. *)
Lemma SFadd_one_exact x k :
  valid_binary x = true -> SFis_finite x = true ->
  0 <= k < 2 ^ 53 -> SFvalue x = k * 2 ^ 1074 ->
  let r := SF64add x (S754_finite false 4503599627370496 (-52)) in
  SFis_finite r = true /\ SFvalue r = (k + 1) * 2 ^ 1074.
Proof.
  intros Vx Fx Hk Hv.
  assert (H1 : SFvalue (S754_finite false 4503599627370496 (-52)) = 2 ^ 1074) by reflexivity.
  assert (HP : 0 < 2 ^ 1074) by (apply pow2_gt0; lia).
  destruct x as [s|s| |s mx ex]; try discriminate.
  - cbn [SFvalue] in Hv. assert (k = 0) by nia. subst k.
    split; [reflexivity|]. unfold SF64add. cbn [SFadd]. rewrite H1. lia.
  - destruct (valid_finite_bounds _ _ _ Vx) as (_ & Hex & _).
    pose proof (value_pos mx ex ltac:(lia)) as Hpos.
    destruct s; [cbn [SFvalue cond_Zopp] in Hv; nia|].
    unfold SF64add. cbn [SFadd].
    set (ez := Z.min ex (-52)).
    set (M := cond_Zopp false (Z.pos (fst (shl_align mx ex ez))) +
              cond_Zopp false (Z.pos (fst (shl_align 4503599627370496 (-52) ez)))).
    assert (HM : M * 2 ^ (ez + 1074) = (k + 1) * 2 ^ 1074).
    { unfold M. rewrite Z.mul_add_distr_r.
      rewrite !aligned_value by (unfold ez; lia). rewrite Hv, H1. lia. }
    assert (Hez : -1074 <= ez) by (unfold ez; lia).
    assert (HQ : 0 < 2 ^ (ez + 1074)) by (apply pow2_gt0; lia).
    assert (HMpos : 0 < M) by nia.
    clearbody M. destruct M as [|p|p]; try lia.
    cbn [binary_normalize].
    set (D := Zdigits2 (Z.pos p) + ez).
    destruct (Zdigits2_bounds (Z.pos p)) as [Hlo Hhi]; [lia|].
    assert (HB : 2 ^ (D - 1 + 1074) <= Z.pos p * 2 ^ (ez + 1074)).
    { replace (D - 1 + 1074) with ((Zdigits2 (Z.pos p) - 1) + (ez + 1074)) by (unfold D; lia).
      assert (1 <= Zdigits2 (Z.pos p)) by (simpl; lia).
      rewrite pow2_split by lia. nia. }
    assert (HXle : Z.pos p * 2 ^ (ez + 1074) <= 2 ^ (53 + 1074)).
    { rewrite HM, (pow2_split 53) by lia. nia. }
    assert (HD : D <= 54).
    { destruct (Z_le_gt_dec D 54) as [L|L]; [exact L|exfalso].
      assert (2 ^ (53 + 1074 + 1) <= 2 ^ (D - 1 + 1074)) by (apply Z.pow_le_mono_r; lia).
      assert (2 ^ (53 + 1074) < 2 ^ (53 + 1074 + 1)) by (apply Z.pow_lt_mono_r; lia).
      lia. }
    destruct (binary_round_on_grid p ez Hez) as (m & e & -> & Hval).
    + fold D. rewrite fexp_eq, HM.
      destruct (Z.eq_dec D 54) as [E54|N54].
      * assert (EX : (k + 1) * 2 ^ 1074 = 2 ^ (53 + 1074)).
        { rewrite E54 in HB. replace (54 - 1 + 1074) with (53 + 1074) in HB by lia. lia. }
        rewrite EX, E54. exists (2 ^ 52).
        replace (Z.max (54 - 53) (-1074) + 1074) with 1075 by lia.
        rewrite <- pow2_split by lia. reflexivity.
      * set (F := Z.max (D - 53) (-1074)).
        exists ((k + 1) * 2 ^ (- F)). rewrite <- Z.mul_assoc, <- pow2_split by (unfold F; lia).
        do 2 f_equal. lia.
    + rewrite HM. eapply Z.le_lt_trans with (m := 2 ^ (53 + 1074)).
      * rewrite (pow2_split 53) by lia. nia.
      * apply Z.pow_lt_mono_r; lia.
    + split; [reflexivity|]. cbn [SFvalue cond_Zopp]. lia.
Qed.

End Counting.

(** ** Signs of products, quotients and roots *)

Section Signs.

Local Open Scope Z_scope.

(** A rounded result carries the sign it was given. *)
Lemma round_aux_sign s m e l :
  0 <= m ->
  binary_round_aux prec emax s m e l = S754_zero s \/
  binary_round_aux prec emax s m e l = S754_infinity s \/
  exists m' e', binary_round_aux prec emax s m e l = S754_finite s m' e'.
Proof.
  intros Hm. destruct (round_aux_shape s m e l Hm) as (m2 & Hc & ->).
  cbn zeta in Hc.
  set (e1 := Z.max e (fexp prec emax (Zdigits2 m + e))) in *.
  set (e2 := Z.max e1 _).
  destruct (m2 / 2 ^ (e2 - e1)) as [|p|p] eqn:E.
  - now left.
  - destruct (e2 <=? 971); [right; right; eauto|right; now left].
  - exfalso.
    assert (0 <= m / 2 ^ (e1 - e)).
    { apply Z.div_pos; [lia|]. apply pow2_gt0. unfold e1. lia. }
    assert (0 <= m2) by (destruct Hc as [->|[-> _]]; lia).
    assert (0 <= m2 / 2 ^ (e2 - e1)).
    { apply Z.div_pos; [lia|]. apply pow2_gt0. unfold e2. lia. }
    lia.
Qed.

Lemma round_aux_nonneg m e l :
  0 <= m -> SFleb (S754_zero false) (binary_round_aux prec emax false m e l) = true.
Proof.
  intros Hm. destruct (round_aux_sign false m e l Hm) as [->|[->|(m' & e' & ->)]]; reflexivity.
Qed.

Lemma round_aux_nonpos m e l :
  0 <= m -> SFleb (binary_round_aux prec emax true m e l) (S754_zero false) = true.
Proof.
  intros Hm. destruct (round_aux_sign true m e l Hm) as [->|[->|(m' & e' & ->)]]; reflexivity.
Qed.

Lemma SFmul_nonneg a b :
  SFis_finite a = true -> SFis_finite b = true ->
  SFleb (S754_zero false) a = true -> SFleb (S754_zero false) b = true ->
  SFleb (S754_zero false) (SF64mul a b) = true.
Proof.
  destruct a as [sa|sa| |sa ma ea]; try discriminate; intros _;
  destruct b as [sb|sb| |sb mb eb]; try discriminate; intros _; try reflexivity.
  destruct sa, sb; try discriminate. intros _ _.
  unfold SF64mul. cbn [SFmul xorb]. apply round_aux_nonneg. lia.
Qed.

Lemma SFmul_nonpos a b :
  SFis_finite a = true -> SFis_finite b = true ->
  SFleb a (S754_zero false) = true -> SFleb (S754_zero false) b = true ->
  SFleb (SF64mul a b) (S754_zero false) = true.
Proof.
  destruct a as [sa|sa| |sa ma ea]; try discriminate; intros _;
  destruct b as [sb|sb| |sb mb eb]; try discriminate; intros _; try reflexivity.
  destruct sa, sb; try discriminate. intros _ _.
  unfold SF64mul. cbn [SFmul xorb]. apply round_aux_nonpos. lia.
Qed.

Lemma div_core_nonneg m1 e1 m2 e2 :
  0 < m1 -> 0 < m2 ->
  0 <= fst (fst (SFdiv_core_binary prec emax m1 e1 m2 e2)).
Proof.
  intros H1 H2. unfold SFdiv_core_binary.
  set (sh := e1 - e2 - _).
  set (m' := match sh with Z.pos _ => Z.shiftl m1 sh | 0 => m1 | Z.neg _ => 0 end).
  assert (Hm' : 0 <= m').
  { unfold m'. destruct sh as [|p|p]; try lia. apply Z.shiftl_nonneg. lia. }
  clearbody m'.
  assert (Hq : fst (Z.div_eucl m' m2) = m' / m2) by reflexivity.
  destruct (Z.div_eucl m' m2) as [q r]. cbn [fst] in *. subst q.
  apply Z.div_pos; lia.
Qed.

Lemma SFdiv_nonneg a mb eb :
  SFleb (S754_zero false) a = true ->
  SFleb (S754_zero false) (SF64div a (S754_finite false mb eb)) = true.
Proof.
  destruct a as [sa|sa| |sa ma ea]; try discriminate; try reflexivity.
  - destruct sa; [discriminate|reflexivity].
  - destruct sa; [discriminate|]. intros _.
    unfold SF64div. cbn [SFdiv xorb].
    pose proof (div_core_nonneg (Z.pos ma) ea (Z.pos mb) eb ltac:(lia) ltac:(lia)) as H.
    destruct (SFdiv_core_binary prec emax (Z.pos ma) ea (Z.pos mb) eb) as [[mz ez] lz].
    cbn [fst] in H. now apply round_aux_nonneg.
Qed.

End Signs.

(** ** Adding a number of known sign *)

Section Monotone.

Lemma SFadd_nonneg_ge x y :
  valid_binary x = true -> valid_binary y = true ->
  valid_binary (SF64add x y) = true ->
  SFis_nan x = false -> SFis_finite x = true \/ SFis_finite y = true ->
  SFleb (S754_zero false) y = true ->
  SFleb x (SF64add x y) = true.
Proof.
  intros Vx Vy Vr Nx Hfin Hy.
  destruct (SFis_finite y) eqn:Fy.
  - destruct (SFis_finite x) eqn:Fx.
    + apply (SFadd_le x y x); try assumption.
      apply SFleb_value in Hy; try assumption; try reflexivity.
      cbn [SFvalue] in Hy. lia.
    + destruct x as [sx|sx| |sx mx ex]; try discriminate.
      destruct y as [sy|sy| |sy my ey]; try discriminate; now destruct sx.
  - destruct Hfin as [Fx|]; [|discriminate].
    destruct y as [sy|sy| |sy my ey]; try discriminate. destruct sy; [discriminate|].
    destruct x as [sx|sx| |sx mx ex]; try discriminate; try reflexivity;
      now destruct sx.
Qed.

Lemma SFadd_nonpos_le x y :
  valid_binary x = true -> valid_binary y = true ->
  valid_binary (SF64add x y) = true ->
  SFis_nan x = false -> SFis_finite x = true \/ SFis_finite y = true ->
  SFleb y (S754_zero false) = true ->
  SFleb (SF64add x y) x = true.
Proof.
  intros Vx Vy Vr Nx Hfin Hy.
  destruct (SFis_finite y) eqn:Fy.
  - destruct (SFis_finite x) eqn:Fx.
    + apply (SFadd_le x y x); try assumption.
      apply SFleb_value in Hy; try assumption; try reflexivity.
      cbn [SFvalue] in Hy. lia.
    + destruct x as [sx|sx| |sx mx ex]; try discriminate.
      destruct y as [sy|sy| |sy my ey]; try discriminate; now destruct sx.
  - destruct Hfin as [Fx|]; [|discriminate].
    destruct y as [sy|sy| |sy my ey]; try discriminate. destruct sy; [|discriminate].
    destruct x as [sx|sx| |sx mx ex]; try discriminate; try reflexivity;
      now destruct sx.
Qed.

Lemma add_nonneg_ge a b :
  is_nan a = false -> is_finite a = true \/ is_finite b = true ->
  fle 0 b -> fle a (a + b).
Proof.
  unfold fle. rewrite is_nan_SF, !is_finite_SF, !leb_spec.
  pose proof (Prim2SF_valid (a + b)) as Vr. rewrite add_spec in *.
  change (Prim2SF 0) with (S754_zero false).
  apply SFadd_nonneg_ge; auto using Prim2SF_valid.
Qed.

Lemma add_nonpos_le a b :
  is_nan a = false -> is_finite a = true \/ is_finite b = true ->
  fle b 0 -> fle (a + b) a.
Proof.
  unfold fle. rewrite is_nan_SF, !is_finite_SF, !leb_spec.
  pose proof (Prim2SF_valid (a + b)) as Vr. rewrite add_spec in *.
  change (Prim2SF 0) with (S754_zero false).
  apply SFadd_nonpos_le; auto using Prim2SF_valid.
Qed.

Lemma SFleb_opp_nonneg y :
  SFleb (S754_zero false) y = true -> SFleb (SFopp y) (S754_zero false) = true.
Proof. destruct y as [s|s| |s m e]; try discriminate; try reflexivity; now destruct s. Qed.

Lemma sub_nonneg_le a b :
  is_nan a = false -> is_finite a = true \/ is_finite b = true ->
  fle 0 b -> fle (a - b) a.
Proof.
  unfold fle. rewrite is_nan_SF, !is_finite_SF, !leb_spec.
  pose proof (Prim2SF_valid (a - b)) as Vr. rewrite sub_spec in *.
  change (Prim2SF 0) with (S754_zero false).
  rewrite SFsub_add_opp in *. intros Na Hfin Hb.
  apply SFadd_nonpos_le; auto using Prim2SF_valid.
  - rewrite valid_opp. apply Prim2SF_valid.
  - rewrite SFis_finite_opp. assumption.
  - now apply SFleb_opp_nonneg.
Qed.

Lemma mul_nonneg a b :
  is_finite a = true -> is_finite b = true -> fle 0 a -> fle 0 b -> fle 0 (a * b).
Proof.
  unfold fle. rewrite !is_finite_SF, !leb_spec, mul_spec.
  change (Prim2SF 0) with (S754_zero false). apply SFmul_nonneg.
Qed.

Lemma mul_nonpos a b :
  is_finite a = true -> is_finite b = true -> fle a 0 -> fle 0 b -> fle (a * b) 0.
Proof.
  unfold fle. rewrite !is_finite_SF, !leb_spec, mul_spec.
  change (Prim2SF 0) with (S754_zero false). apply SFmul_nonpos.
Qed.

Lemma div_1000_nonneg a : fle 0 a -> fle 0 (a / 1000).
Proof.
  unfold fle. rewrite !leb_spec, div_spec.
  change (Prim2SF 0) with (S754_zero false).
  change (Prim2SF 1000) with (S754_finite false 8796093022208000 (-43)).
  apply SFdiv_nonneg.
Qed.

End Monotone.

(** ** Which way [update] moves *)

Section Movement.

(** Clamping a candidate that lies beyond a position inside the interval
    gives a value between the position and the candidate. *)
Lemma clamp_between_up lo hi p v :
  fle lo p -> fle p hi -> fle p v ->
  fle p (clamp lo hi v) /\ fle (clamp lo hi v) v.
Proof.
  intros Hl Hh Hv. unfold clamp.
  destruct (fle_number _ _ Hl) as [Nlo Np].
  destruct (fle_number _ _ Hh) as [_ Nhi].
  destruct (fle_number _ _ Hv) as [_ Nv].
  destruct (min_cases hi v Nhi Nv) as [[-> H1]|[-> H1]].
  - destruct (max_cases lo hi Nlo Nhi) as [[-> H2]|[-> H2]]; split;
      eauto using fle_trans.
  - destruct (max_cases lo v Nlo Nv) as [[-> H2]|[-> H2]]; split;
      eauto using fle_trans, fle_refl.
Qed.

Lemma clamp_between_down lo hi p v :
  fle lo p -> fle p hi -> fle v p ->
  fle (clamp lo hi v) p /\ fle v (clamp lo hi v).
Proof.
  intros Hl Hh Hv. unfold clamp.
  destruct (fle_number _ _ Hl) as [Nlo Np].
  destruct (fle_number _ _ Hh) as [_ Nhi].
  destruct (fle_number _ _ Hv) as [Nv _].
  destruct (min_cases hi v Nhi Nv) as [[-> H1]|[-> H1]].
  - destruct (max_cases lo hi Nlo Nhi) as [[-> H2]|[-> H2]]; split;
      eauto using fle_trans.
  - destruct (max_cases lo v Nlo Nv) as [[-> H2]|[-> H2]]; split;
      eauto using fle_trans, fle_refl.
Qed.

(** The movement [d * s * (dt / 1000)] has the sign of the heading [d] when
    the speed and the time delta are not negative. *)
Lemma movement_nonneg d s dt :
  fle (abs d) 1 -> is_finite s = true -> is_finite dt = true ->
  fle 0 s -> fle 0 dt -> fle 0 d -> fle 0 (d * s * (dt / 1000)).
Proof.
  intros Hd Hs Hdt Ps Pdt Pd.
  apply mul_nonneg.
  - now apply mul_finite_unit.
  - now apply div_1000_finite.
  - apply mul_nonneg; try assumption. now apply at_most_one_finite.
  - now apply div_1000_nonneg.
Qed.

Lemma movement_nonpos d s dt :
  fle (abs d) 1 -> is_finite s = true -> is_finite dt = true ->
  fle 0 s -> fle 0 dt -> fle d 0 -> fle (d * s * (dt / 1000)) 0.
Proof.
  intros Hd Hs Hdt Ps Pdt Pd.
  apply mul_nonpos.
  - now apply mul_finite_unit.
  - now apply div_1000_finite.
  - apply mul_nonpos; try assumption. now apply at_most_one_finite.
  - now apply div_1000_nonneg.
Qed.

Lemma axis_follows_heading lo hi p d s dt :
  is_finite p = true -> fle (abs d) 1 ->
  is_finite s = true -> fle 0 s -> is_finite dt = true -> fle 0 dt ->
  fle lo p -> fle p hi ->
  let v := p + d * s * (dt / 1000) in
  (fle 0 d -> fle p (clamp lo hi v) /\ fle (clamp lo hi v) v) /\
  (fle d 0 -> fle (clamp lo hi v) p /\ fle v (clamp lo hi v)).
Proof.
  intros Hp Hd Hs Ps Hdt Pdt Hl Hh v.
  pose proof (is_finite_number _ Hp) as Np.
  split; intros Pd.
  - apply clamp_between_up; try assumption.
    apply add_nonneg_ge; [assumption|now left|].
    now apply movement_nonneg.
  - apply clamp_between_down; try assumption.
    apply add_nonpos_le; [assumption|now left|].
    now apply movement_nonpos.
Qed.

(** [update] never moves the character against its heading, and never
    past the candidate position: from a finite position inside the boundary,
    with a speed and a time delta that are not negative, each coordinate ends
    between its old value and its candidate, on the side the heading
    points to. *)
Theorem update_follows_heading (c : Character.t) (deltaTime : float) :
  is_finite (Character.x c) = true ->
  is_finite (Character.y c) = true ->
  at_most_unit (Character.direction c) ->
  is_finite (Character.speed c) = true -> fle 0 (Character.speed c) ->
  is_finite deltaTime = true -> fle 0 deltaTime ->
  inside (Character.boundary c) (Character.x c) (Character.y c) = true ->
  let c' := Character.update c deltaTime in
  (fle 0 (Vec.x (Character.direction c)) ->
   fle (Character.x c) (Character.x c') /\
   fle (Character.x c') (Character.candidateX c deltaTime)) /\
  (fle (Vec.x (Character.direction c)) 0 ->
   fle (Character.x c') (Character.x c) /\
   fle (Character.candidateX c deltaTime) (Character.x c')) /\
  (fle 0 (Vec.y (Character.direction c)) ->
   fle (Character.y c) (Character.y c') /\
   fle (Character.y c') (Character.candidateY c deltaTime)) /\
  (fle (Vec.y (Character.direction c)) 0 ->
   fle (Character.y c') (Character.y c) /\
   fle (Character.candidateY c deltaTime) (Character.y c')).
Proof.
  intros Hx Hy [Hdx Hdy] Hs Ps Hdt Pdt Hin c'.
  apply inside_iff in Hin as [[X1 X2] [Y1 Y2]].
  destruct (axis_follows_heading _ _ _ _ _ _ Hx Hdx Hs Ps Hdt Pdt X1 X2) as [Ax Bx].
  destruct (axis_follows_heading _ _ _ _ _ _ Hy Hdy Hs Ps Hdt Pdt Y1 Y2) as [Ay By].
  split; [exact Ax|]. split; [exact Bx|]. split; [exact Ay|exact By].
Qed.

Lemma update_follows_heading_witness :
  let c := Character.setDirection
             (Character.constructor (Some 400) (Some 300) (Some 5)
                                    (Some (Boundary.mk 0 800 0 600))) 1 (-1) in
  fle (Character.x c) (Character.x (Character.update c 16)) /\
  fle (Character.y (Character.update c 16)) (Character.y c).
Proof.
  intros c.
  destruct (update_follows_heading c 16) as (Hx & _ & _ & Hy);
    try reflexivity; [split; reflexivity|].
  split; [apply Hx|apply Hy]; reflexivity.
Defined.

End Movement.

(** ** Signs of the stored direction *)

Section Headings.

(** The sign of a quotient by a positive divisor is the sign of the
    dividend. *)
Lemma SFdiv_sign a l :
  SFltb (S754_zero false) l = true ->
  (SFltb (S754_zero false) (SF64div a l) = true -> SFltb (S754_zero false) a = true) /\
  (SFltb (SF64div a l) (S754_zero false) = true -> SFltb a (S754_zero false) = true).
Proof.
  destruct l as [sl|sl| |sl ml el]; try discriminate;
    (destruct sl; [discriminate|]); intros _;
    destruct a as [sa|sa| |sa ma ea];
    try (split; intros H; discriminate H);
    try (destruct sa; split; intros H; (discriminate H || reflexivity)).
  unfold SF64div. cbn [SFdiv].
    pose proof (div_core_nonneg (Z.pos ma) ea (Z.pos ml) el ltac:(lia) ltac:(lia)) as H.
    destruct (SFdiv_core_binary prec emax (Z.pos ma) ea (Z.pos ml) el) as [[mz ez] lz].
    cbn [fst] in H.
    destruct (round_aux_sign (xorb sa false) mz ez lz H) as [->|[->|(m' & e' & ->)]];
      destruct sa; split; intros H'; (discriminate H' || reflexivity).
Qed.

Lemma div_sign a l :
  flt 0 l ->
  (flt 0 (a / l) -> flt 0 a) /\ (flt (a / l) 0 -> flt a 0).
Proof.
  unfold flt. rewrite !ltb_spec, div_spec.
  change (Prim2SF 0) with (S754_zero false). apply SFdiv_sign.
Qed.

(** [setDirection] never reverses a heading and never invents one: on
    each axis a positive stored component comes from a positive argument and
    a negative one from a negative argument, whatever the arguments
    ([NaN] and infinities included). *)
Theorem setDirection_keeps_signs (c : Character.t) (x y : float) :
  let d := Character.direction (Character.setDirection c x y) in
  (flt 0 (Vec.x d) -> flt 0 x) /\ (flt (Vec.x d) 0 -> flt x 0) /\
  (flt 0 (Vec.y d) -> flt 0 y) /\ (flt (Vec.y d) 0 -> flt y 0).
Proof.
  unfold Character.setDirection.
  destruct (0 <? Math.sqrt (x * x + y * y)) eqn:Hlen; cbn.
  - destruct (div_sign x _ Hlen). destruct (div_sign y _ Hlen). tauto.
  - repeat split; discriminate.
Qed.

Lemma setDirection_keeps_signs_witness : flt 0 3 /\ flt (-4) 0.
Proof.
  pose proof (setDirection_keeps_signs
                (Character.constructor None None None None) 3 (-4)) as (Hx & _ & _ & Hy).
  split; [apply Hx|apply Hy]; reflexivity.
Defined.

End Headings.

(** ** Collisions and the radius *)

Section Collisions.

Lemma SFsqrt_nonneg a :
  SFis_nan (SF64sqrt a) = true \/ SFleb (S754_zero false) (SF64sqrt a) = true.
Proof.
  destruct a as [s|s| |s m e]; try (now left); try (now right).
  - destruct s; [now left|now right].
  - destruct s; [now left|]. right. unfold SF64sqrt. cbn [SFsqrt].
    assert (H : (0 <= fst (fst (SFsqrt_core_binary prec emax (Z.pos m) e)))%Z).
    { unfold SFsqrt_core_binary.
      set (m' := match (e - 2 * _)%Z with
                 | Z.pos _ => _ | 0%Z => _ | Z.neg _ => _ end).
      pose proof (Z.sqrtrem_sqrt m') as Hs.
      destruct (Z.sqrtrem m') as [q r]. cbn [fst] in *. subst q.
      apply Z.sqrt_nonneg. }
    destruct (SFsqrt_core_binary prec emax (Z.pos m) e) as [[mz ez] lz].
    cbn [fst] in H. now apply round_aux_nonneg.
Qed.

Lemma sqrt_nonneg a : is_nan (Math.sqrt a) = true \/ fle 0 (Math.sqrt a).
Proof.
  unfold Math.sqrt, fle. rewrite is_nan_SF, leb_spec, sqrt_spec.
  change (Prim2SF 0) with (S754_zero false). apply SFsqrt_nonneg.
Qed.

Lemma SFmul_two_nonpos a :
  SFleb a (S754_zero false) = true ->
  SFleb (SF64mul a (S754_finite false 4503599627370496 (-51))) (S754_zero false) = true.
Proof.
  destruct a as [s|s| |s m e]; try discriminate; try reflexivity.
  - destruct s; [reflexivity|discriminate].
  - destruct s; [|discriminate]. intros _.
    unfold SF64mul. cbn [SFmul xorb]. apply round_aux_nonpos. lia.
Qed.

Lemma double_nonpos a : fle a 0 -> fle (a * 2) 0.
Proof.
  unfold fle. rewrite !leb_spec, mul_spec.
  change (Prim2SF 0) with (S754_zero false).
  change (Prim2SF 2) with (S754_finite false 4503599627370496 (-51)).
  apply SFmul_two_nonpos.
Qed.

Lemma flt_number a b : flt a b -> is_nan a = false /\ is_nan b = false.
Proof. intros H. apply fle_number. now apply flt_fle. Qed.

Lemma mul_nan_l a b : is_nan a = true -> is_nan (a * b) = true.
Proof.
  rewrite !is_nan_SF, mul_spec. destruct (Prim2SF a); try discriminate. reflexivity.
Qed.

(** Nothing collides with a radius that is not positive: whenever
    [isCollidingWith] answers [true], the radius is greater than 0
    (a [NaN] radius never collides either). *)
Theorem collision_needs_positive_radius (c : Character.t) (other : Vec.t)
    (radius : float) :
  Character.isCollidingWith c other (Some radius) = true -> flt 0 radius.
Proof.
  unfold Character.isCollidingWith. cbn [default_arg].
  set (d := Math.sqrt _). intros H. fold (flt d (radius * 2)) in H.
  destruct (flt_number _ _ H) as [Nd Nt].
  assert (Nr : is_nan radius = false).
  { destruct (is_nan radius) eqn:E; [|reflexivity].
    now rewrite (mul_nan_l radius 2 E) in Nt. }
  unfold flt. destruct (0 <? radius) eqn:E; [reflexivity|exfalso].
  assert (Hr : fle radius 0) by (apply fle_total; auto).
  apply double_nonpos in Hr.
  assert (Hd : fle 0 d).
  { destruct (sqrt_nonneg ((Character.x c - Vec.x other) * (Character.x c - Vec.x other) +
                           (Character.y c - Vec.y other) * (Character.y c - Vec.y other)))
      as [N|P]; [fold d in N; congruence|exact P]. }
  pose proof (fle_not_flt _ _ (fle_trans _ _ _ Hr Hd)) as F.
  unfold flt in H. congruence.
Qed.

Lemma collision_needs_positive_radius_witness :
  flt 0 32.
Proof.
  apply (collision_needs_positive_radius
           (Character.constructor (Some 0) (Some 0) None None) (Vec.mk 30 40) 32).
  reflexivity.
Defined.

End Collisions.

(** ** [NaN] *)

Section NotANumber.

Lemma add_nan_l a b : is_nan a = true -> is_nan (a + b) = true.
Proof.
  rewrite !is_nan_SF, add_spec. destruct (Prim2SF a); try discriminate. reflexivity.
Qed.

Lemma add_nan_r a b : is_nan b = true -> is_nan (a + b) = true.
Proof.
  rewrite !is_nan_SF, add_spec.
  destruct (Prim2SF b); try discriminate. now destruct (Prim2SF a).
Qed.

Lemma sub_nan_l a b : is_nan a = true -> is_nan (a - b) = true.
Proof.
  rewrite !is_nan_SF, sub_spec. destruct (Prim2SF a); try discriminate. reflexivity.
Qed.

Lemma mul_nan_r a b : is_nan b = true -> is_nan (a * b) = true.
Proof.
  rewrite !is_nan_SF, mul_spec.
  destruct (Prim2SF b); try discriminate. now destruct (Prim2SF a).
Qed.

Lemma div_nan_l a b : is_nan a = true -> is_nan (a / b) = true.
Proof.
  rewrite !is_nan_SF, div_spec. destruct (Prim2SF a); try discriminate. reflexivity.
Qed.

Lemma sqrt_nan a : is_nan a = true -> is_nan (Math.sqrt a) = true.
Proof.
  unfold Math.sqrt. rewrite !is_nan_SF, sqrt_spec.
  destruct (Prim2SF a); try discriminate. reflexivity.
Qed.

Lemma clamp_nan lo hi v : is_nan v = true -> is_nan (clamp lo hi v) = true.
Proof.
  intros H.
  assert (Hm : Math.min hi v = nan).
  { unfold Math.min. now rewrite H, orb_true_r. }
  unfold clamp. rewrite Hm. unfold Math.max.
  change (is_nan nan) with true. now rewrite orb_true_r.
Qed.

Lemma nan_not_flt a b : is_nan a = true -> (a <? b) = false.
Proof.
  rewrite is_nan_SF, ltb_spec. destruct (Prim2SF a); try discriminate. reflexivity.
Qed.

(** [NaN] is absorbing.  A [NaN] time delta, which is what
    [deltaTime / 1000] computes when [update] is called without an argument,
    turns both coordinates into [NaN], whatever the heading, the speed and
    the boundary; a coordinate that is [NaN] stays [NaN] through every later
    [update], the boundary clamp included; and a character with a [NaN]
    coordinate collides with nothing. *)
Theorem update_nan_is_absorbing (c : Character.t) (deltaTime : float) :
  (is_nan deltaTime = true ->
   is_nan (Character.x (Character.update c deltaTime)) = true /\
   is_nan (Character.y (Character.update c deltaTime)) = true) /\
  (is_nan (Character.x c) = true ->
   is_nan (Character.x (Character.update c deltaTime)) = true) /\
  (is_nan (Character.y c) = true ->
   is_nan (Character.y (Character.update c deltaTime)) = true) /\
  (is_nan (Character.x c) = true \/ is_nan (Character.y c) = true ->
   forall other radius, Character.isCollidingWith c other radius = false).
Proof.
  split; [|split; [|split]].
  - intros H. split; apply clamp_nan, add_nan_r, mul_nan_r, div_nan_l; exact H.
  - intros H. apply clamp_nan, add_nan_l. exact H.
  - intros H. apply clamp_nan, add_nan_l. exact H.
  - intros H other radius. unfold Character.isCollidingWith.
    apply nan_not_flt, sqrt_nan. destruct H as [H|H].
    + apply add_nan_l, mul_nan_l, sub_nan_l. exact H.
    + apply add_nan_r, mul_nan_l, sub_nan_l. exact H.
Qed.

Lemma update_nan_is_absorbing_witness :
  let c := Character.update
             (Character.constructor (Some 400) (Some 300) (Some 5)
                                    (Some (Boundary.mk 0 800 0 600))) nan in
  is_nan (Character.x (Character.update c 16)) = true /\
  Character.isCollidingWith c (Vec.mk 300 300) None = false.
Proof.
  intros c.
  destruct (update_nan_is_absorbing c 16) as (_ & Hx & _ & Hc).
  split; [apply Hx; reflexivity|apply Hc; left; reflexivity].
Defined.

End NotANumber.

(** ** The collision test at distance zero *)

Section OwnPosition.

(** A magnitude of at least [2^-1074], the smallest positive double, does
    not round to zero. *)
Lemma round_aux_nonzero s m e l :
  (0 < m)%Z -> (-1073 <= Zdigits2 m + e)%Z ->
  binary_round_aux prec emax s m e l = S754_infinity s \/
  exists m' e', binary_round_aux prec emax s m e l = S754_finite s m' e'.
Proof.
  intros Hm Hd.
  destruct (round_aux_shape s m e l) as (m2 & Hc & ->); [lia|]. cbn zeta in Hc.
  set (e1 := Z.max e (fexp prec emax (Zdigits2 m + e))) in *.
  set (e2 := Z.max e1 _).
  assert (Hd1 : (1 <= Zdigits2 m)%Z) by (destruct m; simpl; lia).
  assert (He1 : (0 <= e1 - e <= Zdigits2 m - 1)%Z) by (unfold e1; rewrite fexp_eq; lia).
  destruct (Zdigits2_bounds m Hm) as [Hlo _].
  assert (H1 : (1 <= m / 2 ^ (e1 - e))%Z).
  { apply Z.div_le_lower_bound; [apply pow2_gt0; lia|].
    rewrite Z.mul_1_r. eapply Z.le_trans; [|exact Hlo].
    apply Z.pow_le_mono_r; lia. }
  assert (H2 : (1 <= m2)%Z) by (destruct Hc as [->|[-> _]]; lia).
  assert (Hd2 : (1 <= Zdigits2 m2)%Z) by (destruct m2; simpl; lia).
  assert (He2 : (0 <= e2 - e1 <= Zdigits2 m2 - 1)%Z).
  { unfold e2. rewrite fexp_eq. unfold e1. rewrite fexp_eq. lia. }
  destruct (Zdigits2_bounds m2 ltac:(lia)) as [Hlo2 _].
  assert (H3 : (1 <= m2 / 2 ^ (e2 - e1))%Z).
  { apply Z.div_le_lower_bound; [apply pow2_gt0; lia|].
    rewrite Z.mul_1_r. eapply Z.le_trans; [|exact Hlo2].
    apply Z.pow_le_mono_r; lia. }
  destruct (m2 / 2 ^ (e2 - e1))%Z as [|p|p]; try lia.
  destruct (e2 <=? 971)%Z; [right; eauto|now left].
Qed.

Lemma SFmul_two_pos r :
  valid_binary r = true -> SFltb (S754_zero false) r = true ->
  SFltb (S754_zero false) (SF64mul r (S754_finite false 4503599627370496 (-51))) = true.
Proof.
  destruct r as [s|s| |s m e]; try discriminate.
  - destruct s; [discriminate|reflexivity].
  - destruct s; [discriminate|]. intros V _.
    destruct (valid_finite_bounds _ _ _ V) as (_ & He & _).
    unfold SF64mul. cbn [SFmul xorb].
    assert (Hd : (-1073 <= Zdigits2 (Z.pos (m * 4503599627370496)) + (e + -51))%Z).
    { rewrite Pos2Z.inj_mul.
      change (Z.pos 4503599627370496) with (2 ^ 52)%Z.
      rewrite Zdigits2_mul_pow2 by lia.
      assert (1 <= Zdigits2 (Z.pos m))%Z by (simpl; lia). lia. }
    destruct (round_aux_nonzero false (Z.pos (m * 4503599627370496)) (e + -51)
                loc_Exact eq_refl Hd)
      as [->|(m' & e' & ->)]; reflexivity.
Qed.

Lemma double_pos r : flt 0 r -> flt 0 (r * 2).
Proof.
  unfold flt. rewrite !ltb_spec, mul_spec.
  change (Prim2SF 0) with (S754_zero false).
  change (Prim2SF 2) with (S754_finite false 4503599627370496 (-51)).
  apply SFmul_two_pos, Prim2SF_valid.
Qed.

Lemma SFsub_self x : SFis_finite x = true -> SF64sub x x = S754_zero false.
Proof.
  destruct x as [s|s| |s m e]; try discriminate; intros _.
  - now destruct s.
  - unfold SF64sub. cbn [SFsub]. now rewrite Z.sub_diag.
Qed.

Lemma sub_self x : is_finite x = true -> x - x = 0.
Proof.
  rewrite is_finite_SF. intros H. apply Prim2SF_inj.
  rewrite sub_spec, SFsub_self by assumption. reflexivity.
Qed.

(** A character at a finite position collides with an object at its own
    position exactly when the radius is positive, and always with the
    default radius: the collision test is reflexive. *)
Theorem collides_with_own_position (c : Character.t) :
  is_finite (Character.x c) = true ->
  is_finite (Character.y c) = true ->
  Character.isCollidingWith c (Character.getPosition c) None = true /\
  forall radius,
    Character.isCollidingWith c (Character.getPosition c) (Some radius) = true <->
    flt 0 radius.
Proof.
  intros Hx Hy. unfold Character.isCollidingWith, Character.getPosition.
  cbn [Vec.x Vec.y default_arg]. rewrite (sub_self _ Hx), (sub_self _ Hy).
  change (Math.sqrt (0 * 0 + 0 * 0)) with 0.
  split; [reflexivity|]. intros radius. split.
  - intros H. fold (flt 0 (radius * 2)) in H.
    destruct (flt_number _ _ H) as [_ Nt].
    assert (Nr : is_nan radius = false).
    { destruct (is_nan radius) eqn:E; [|reflexivity].
      now rewrite (mul_nan_l radius 2 E) in Nt. }
    unfold flt. destruct (0 <? radius) eqn:E; [reflexivity|exfalso].
    assert (Hr : fle radius 0) by (apply fle_total; auto).
    apply double_nonpos in Hr. apply fle_not_flt in Hr.
    unfold flt in H. congruence.
  - apply double_pos.
Qed.

Lemma collides_with_own_position_witness :
  let c := Character.constructor (Some 400) (Some 300) (Some 5) None in
  Character.isCollidingWith c (Character.getPosition c) None = true.
Proof.
  intros c. apply (collides_with_own_position c); reflexivity.
Defined.

End OwnPosition.

(** ** What [setDirection] can store *)

Section StoredDirection.

Lemma SFmul_square_nonneg a :
  SFis_finite a = true ->
  SFis_nan (SF64mul a a) = false /\ SFleb (S754_zero false) (SF64mul a a) = true.
Proof.
  destruct a as [s|s| |s m e]; try discriminate; intros _.
  - split; [reflexivity|now destruct s].
  - unfold SF64mul. cbn [SFmul]. rewrite xorb_nilpotent.
    split; [apply round_aux_not_nan; lia|apply round_aux_nonneg; lia].
Qed.

Lemma SFadd_nonneg a b :
  SFis_nan a = false -> SFis_nan b = false ->
  SFleb (S754_zero false) a = true -> SFleb (S754_zero false) b = true ->
  SFis_nan (SF64add a b) = false /\ SFleb (S754_zero false) (SF64add a b) = true.
Proof.
  destruct a as [sa|sa| |sa ma ea]; try discriminate;
  destruct b as [sb|sb| |sb mb eb]; try discriminate; intros _ _ Ha Hb;
    try (destruct sa; try discriminate); try (destruct sb; try discriminate);
    try (split; reflexivity).
  unfold SF64add. cbn [SFadd cond_Zopp].
  set (M := (Z.pos _ + Z.pos _)%Z).
  assert (HM : (0 < M)%Z) by (unfold M; lia). clearbody M.
  destruct M as [|p|p]; try lia. cbn [binary_normalize].
  unfold binary_round. destruct shl_align as [mz ez].
  split; [apply round_aux_not_nan; lia|apply round_aux_nonneg; lia].
Qed.

Lemma SFsqrt_number a :
  SFis_nan a = false -> SFleb (S754_zero false) a = true ->
  SFis_nan (SF64sqrt a) = false.
Proof.
  intros Na Pa. destruct (SFsqrt_nonneg a) as [H|H].
  - destruct a as [s|s| |s m e]; try discriminate; try reflexivity;
      destruct s; try discriminate; try reflexivity.
    exfalso. revert H. unfold SF64sqrt. cbn [SFsqrt].
    assert (Hq : (0 <= fst (fst (SFsqrt_core_binary prec emax (Z.pos m) e)))%Z).
    { unfold SFsqrt_core_binary.
      set (m' := match (e - 2 * _)%Z with
                 | Z.pos _ => _ | 0%Z => _ | Z.neg _ => _ end).
      pose proof (Z.sqrtrem_sqrt m') as Hs.
      destruct (Z.sqrtrem m') as [q r]. cbn [fst] in *. subst q.
      apply Z.sqrt_nonneg. }
    destruct (SFsqrt_core_binary prec emax (Z.pos m) e) as [[mz ez] lz].
    cbn [fst] in Hq. rewrite round_aux_not_nan by assumption. discriminate.
  - now destruct (SF64sqrt a).
Qed.

Lemma SFdiv_number a l :
  SFis_finite a = true -> SFltb (S754_zero false) l = true ->
  SFis_nan (SF64div a l) = false.
Proof.
  destruct a as [sa|sa| |sa ma ea]; try discriminate; intros _;
  destruct l as [sl|sl| |sl ml el]; try discriminate; intros _; try reflexivity.
  unfold SF64div. cbn [SFdiv].
  pose proof (div_core_nonneg (Z.pos ma) ea (Z.pos ml) el ltac:(lia) ltac:(lia)) as H.
  destruct (SFdiv_core_binary prec emax (Z.pos ma) ea (Z.pos ml) el) as [[mz ez] lz].
  cbn [fst] in H. now apply round_aux_not_nan.
Qed.

Lemma length_number x y :
  is_finite x = true -> is_finite y = true ->
  is_nan (Math.sqrt (x * x + y * y)) = false.
Proof.
  unfold Math.sqrt. rewrite !is_finite_SF, is_nan_SF, sqrt_spec, add_spec, !mul_spec.
  intros Hx Hy.
  destruct (SFmul_square_nonneg _ Hx) as [Nx Px].
  destruct (SFmul_square_nonneg _ Hy) as [Ny Py].
  destruct (SFadd_nonneg _ _ Nx Ny Px Py) as [Ns Ps].
  now apply SFsqrt_number.
Qed.

Lemma div_number a l : is_finite a = true -> flt 0 l -> is_nan (a / l) = false.
Proof.
  unfold flt. rewrite is_finite_SF, is_nan_SF, ltb_spec, div_spec.
  change (Prim2SF 0) with (S754_zero false). apply SFdiv_number.
Qed.

(** When [setDirection] stores a [NaN]: never for finite arguments,
    whatever their size (squares that overflow or underflow included), and
    not for [NaN] arguments either, which store the zero vector; only an
    infinite argument can put a [NaN] into the direction. *)
Theorem setDirection_stores_numbers (c : Character.t) (x y : float) :
  let d := Character.direction (Character.setDirection c x y) in
  (is_nan x = true \/ is_nan y = true -> d = Vec.mk 0 0) /\
  (is_finite x = true -> is_finite y = true ->
   is_nan (Vec.x d) = false /\ is_nan (Vec.y d) = false).
Proof.
  unfold Character.setDirection. split.
  - intros H.
    assert (N : is_nan (Math.sqrt (x * x + y * y)) = true).
    { apply sqrt_nan. destruct H as [H|H].
      - now apply add_nan_l, mul_nan_l.
      - now apply add_nan_r, mul_nan_l. }
    destruct (0 <? Math.sqrt (x * x + y * y)) eqn:E; [|reflexivity].
    destruct (flt_number _ _ E) as [_ N']. congruence.
  - intros Hx Hy.
    destruct (0 <? Math.sqrt (x * x + y * y)) eqn:E; cbn.
    + split; now apply div_number.
    + split; reflexivity.
Qed.

Lemma setDirection_stores_numbers_witness :
  let d := Character.direction
             (Character.setDirection (Character.constructor None None None None)
                                     1e200 0x1p-600) in
  is_nan (Vec.x d) = false /\ is_nan (Vec.y d) = false.
Proof.
  intros d.
  apply (proj2 (setDirection_stores_numbers
                  (Character.constructor None None None None) 1e200 0x1p-600));
    reflexivity.
Defined.

End StoredDirection.

(** ** The game of [src/src/Game.js] *)

Section GameLoop.

Lemma is_arrow_cases key :
  is_arrow key = true ->
  key = "ArrowUp"%string \/ key = "ArrowDown"%string \/
  key = "ArrowLeft"%string \/ key = "ArrowRight"%string.
Proof.
  unfold is_arrow, arrow_keys. cbn [existsb].
  rewrite orb_false_r, !orb_true_iff, !String.eqb_eq. tauto.
Qed.

Lemma not_arrow_cases key :
  is_arrow key = false ->
  String.eqb key "ArrowUp" = false /\ String.eqb key "ArrowDown" = false /\
  String.eqb key "ArrowLeft" = false /\ String.eqb key "ArrowRight" = false.
Proof.
  unfold is_arrow, arrow_keys. cbn [existsb].
  rewrite orb_false_r, !orb_false_iff. tauto.
Qed.

(** The key listeners, read on the character. *)
Lemma keydown_arrow g key :
  is_arrow key = true ->
  Game.keydown g key =
  Game.with_character g
    (Character.mk (Character.x (Game.character g)) (Character.y (Game.character g))
                  (Character.speed (Game.character g)) (arrow_vector key)
                  (Character.boundary (Game.character g))).
Proof.
  intros H. destruct (is_arrow_cases key H) as [-> | [-> | [-> | -> ]]]; reflexivity.
Qed.

Lemma keydown_other g key : is_arrow key = false -> Game.keydown g key = g.
Proof.
  intros H. destruct (not_arrow_cases key H) as (H1 & H2 & H3 & H4).
  unfold Game.keydown. now rewrite H1, H2, H3, H4.
Qed.

Lemma keyup_arrow g key :
  is_arrow key = true ->
  Game.keyup g key =
  Game.with_character g
    (Character.mk (Character.x (Game.character g)) (Character.y (Game.character g))
                  (Character.speed (Game.character g)) (Vec.mk 0 0)
                  (Character.boundary (Game.character g))).
Proof. intros H. unfold Game.keyup. fold (is_arrow key). now rewrite H. Qed.

Lemma keyup_other g key : is_arrow key = false -> Game.keyup g key = g.
Proof. intros H. unfold Game.keyup. fold (is_arrow key). now rewrite H. Qed.

Lemma run_app g es es' : Game.run g (es ++ es') = Game.run (Game.run g es) es'.
Proof. apply fold_left_app. Qed.

Lemma quiet_events_keep_direction es : forall g,
  forallb (fun e => negb (arrow_event e)) es = true ->
  Character.direction (Game.character (Game.run g es)) =
  Character.direction (Game.character g).
Proof.
  induction es as [|e es IH]; intros g H; [reflexivity|].
  cbn [forallb] in H. apply andb_true_iff in H as [He H].
  apply negb_true_iff in He. cbn [Game.run fold_left]. fold (Game.run (Game.handle g e) es).
  rewrite IH by assumption.
  destruct e as [key|key|]; cbn [Game.handle arrow_event] in *.
  - now rewrite keydown_other.
  - now rewrite keyup_other.
  - reflexivity.
Qed.

(** In [Game] the heading depends on the most recent arrow-key event
    alone: before any such event it is [(0, 0)]; after a press it is the axis
    vector of that key, exactly; after a release of any arrow key it is
    [(0, 0)], also while another arrow key is still held down; other keys and
    animation frames leave it as it is. *)
Theorem game_heading_is_last_arrow_event (cv : Canvas.t) :
  (forall es : list Game.event,
     forallb (fun e => negb (arrow_event e)) es = true ->
     Character.direction (Game.character (Game.run (Game.constructor cv) es)) =
     Vec.mk 0 0) /\
  (forall (pre post : list Game.event) (e : Game.event),
     arrow_event e = true ->
     forallb (fun e' => negb (arrow_event e')) post = true ->
     Character.direction
       (Game.character (Game.run (Game.constructor cv) (pre ++ e :: post))) =
     match e with
     | Game.KeyDown key => arrow_vector key
     | _ => Vec.mk 0 0
     end).
Proof.
  split.
  - intros es Hes. now rewrite quiet_events_keep_direction.
  - intros pre post e He Hpost. rewrite run_app. cbn [Game.run fold_left].
    fold (Game.run (Game.handle (Game.run (Game.constructor cv) pre) e) post).
    rewrite quiet_events_keep_direction by assumption.
    destruct e as [key|key|]; cbn [Game.handle arrow_event] in *.
    + now rewrite keydown_arrow.
    + now rewrite keyup_arrow.
    + discriminate.
Qed.

Lemma game_heading_is_last_arrow_event_witness :
  Character.direction
    (Game.character
       (Game.run (Game.constructor (Canvas.mk 800 600))
                 ([Game.KeyDown "ArrowRight"; Game.KeyDown "ArrowUp"] ++
                  Game.KeyUp "ArrowUp" :: [Game.AnimationFrame; Game.KeyDown "a"]))) =
  Vec.mk 0 0.
Proof.
  apply (proj2 (game_heading_is_last_arrow_event (Canvas.mk 800 600))
           [Game.KeyDown "ArrowRight"; Game.KeyDown "ArrowUp"]
           [Game.AnimationFrame; Game.KeyDown "a"] (Game.KeyUp "ArrowUp"));
    reflexivity.
Defined.

(** A number between two finite numbers is finite. *)
Lemma SFbetween_finite lo v hi :
  SFis_finite lo = true -> SFis_finite hi = true ->
  SFleb lo v = true -> SFleb v hi = true -> SFis_finite v = true.
Proof.
  destruct lo as [sl|sl| |sl ml el]; try discriminate; intros _;
  destruct hi as [sh|sh| |sh mh eh]; try discriminate; intros _;
  destruct v as [s|s| |s m e]; try reflexivity; try discriminate;
    destruct s; try discriminate; try (destruct sl; discriminate);
    try (destruct sh; discriminate).
Qed.

Lemma between_finite lo v hi :
  is_finite lo = true -> is_finite hi = true -> fle lo v -> fle v hi ->
  is_finite v = true.
Proof.
  unfold fle. rewrite !is_finite_SF, !leb_spec. apply SFbetween_finite.
Qed.

(** [update] on a character of the game: it lands on the canvas, at a finite
    position. *)
Lemma update_lands_inside dt lo hi :
  is_finite lo = true -> is_finite hi = true -> fle lo hi ->
  forall p d s, is_finite p = true -> fle (abs d) 1 -> is_finite s = true ->
  is_finite dt = true ->
  let v := clamp lo hi (p + d * s * (dt / 1000)) in
  fle lo v /\ fle v hi /\ is_finite v = true.
Proof.
  intros Hlo Hhi Hle p d s Hp Hd Hs Hdt v.
  pose proof (candidate_number _ _ _ _ Hp Hd Hs Hdt) as N.
  destruct (clamp_within _ _ _ Hle N) as [H1 H2].
  repeat split; try assumption. apply (between_finite lo v hi); assumption.
Qed.

Lemma frame_invariant cv g :
  canvas_sized cv -> game_invariant cv g ->
  game_invariant cv (fst (Game.gameLoop g)) /\
  on_canvas cv (Game.character (fst (Game.gameLoop g))).
Proof.
  intros (Fw & Pw & Fh & Ph) (Hc & Ho & Hb & Hs & Hx & Hy & [Hdx Hdy]).
  unfold Game.gameLoop, Game.update. cbn [fst Game.with_character Game.character].
  assert (F0 : is_finite 0 = true) by reflexivity.
  assert (F5 : is_finite (Character.speed (Game.character g)) = true) by now rewrite Hs.
  assert (F16 : is_finite 16 = true) by reflexivity.
  destruct (update_lands_inside 16 0 (Canvas.width cv) F0 Fw Pw
              _ _ _ Hx Hdx F5 F16) as (X1 & X2 & X3).
  destruct (update_lands_inside 16 0 (Canvas.height cv) F0 Fh Ph
              _ _ _ Hy Hdy F5 F16) as (Y1 & Y2 & Y3).
  unfold game_invariant, on_canvas, Character.update.
  cbn [Game.canvas Game.objects Game.character Character.boundary Character.speed
       Character.x Character.y Character.direction].
  rewrite Hb. cbn [canvas_boundary Boundary.minX Boundary.maxX Boundary.minY Boundary.maxY].
  unfold clamp in *.
  repeat split; try assumption.
  apply inside_iff. cbn. repeat split; assumption.
Qed.

Lemma key_invariant cv g key :
  game_invariant cv g ->
  game_invariant cv (Game.keydown g key) /\ game_invariant cv (Game.keyup g key).
Proof.
  intros (Hc & Ho & Hb & Hs & Hx & Hy & Hd). split.
  - destruct (is_arrow key) eqn:E.
    + rewrite keydown_arrow by assumption.
      unfold game_invariant. cbn. repeat split; try assumption.
      all: destruct (is_arrow_cases key E) as [-> | [-> | [-> | -> ]]]; reflexivity.
    + rewrite keydown_other by assumption. repeat split; try assumption; apply Hd.
  - destruct (is_arrow key) eqn:E.
    + rewrite keyup_arrow by assumption.
      unfold game_invariant. cbn. repeat split; try assumption; reflexivity.
    + rewrite keyup_other by assumption. repeat split; try assumption; apply Hd.
Qed.

Lemma key_position g key :
  Character.x (Game.character (Game.keydown g key)) = Character.x (Game.character g) /\
  Character.y (Game.character (Game.keydown g key)) = Character.y (Game.character g) /\
  Character.x (Game.character (Game.keyup g key)) = Character.x (Game.character g) /\
  Character.y (Game.character (Game.keyup g key)) = Character.y (Game.character g).
Proof.
  destruct (is_arrow key) eqn:E.
  - rewrite keydown_arrow, keyup_arrow by assumption. now cbn.
  - rewrite keydown_other, keyup_other by assumption. now cbn.
Qed.

Lemma constructor_invariant cv : game_invariant cv (Game.constructor cv).
Proof. repeat split; reflexivity. Qed.

Lemma run_invariant cv es : forall g,
  canvas_sized cv -> game_invariant cv g ->
  game_invariant cv (Game.run g es) /\
  (In Game.AnimationFrame es \/ on_canvas cv (Game.character g) ->
   on_canvas cv (Game.character (Game.run g es))).
Proof.
  induction es as [|e es IH]; intros g Hcv Hg.
  - split; [assumption|]. intros [[]|H]. exact H.
  - cbn [Game.run fold_left]. fold (Game.run (Game.handle g e) es).
    assert (Hstep : game_invariant cv (Game.handle g e) /\
                    (e = Game.AnimationFrame \/ on_canvas cv (Game.character g) ->
                     on_canvas cv (Game.character (Game.handle g e)))).
    { destruct e as [key|key|]; cbn [Game.handle].
      - split; [now apply key_invariant|]. intros [|H]; [discriminate|].
        unfold on_canvas in *. destruct (key_position g key) as (-> & -> & _). exact H.
      - split; [now apply key_invariant|]. intros [|H]; [discriminate|].
        unfold on_canvas in *. destruct (key_position g key) as (_ & _ & -> & ->). exact H.
      - destruct (frame_invariant cv g Hcv Hg). split; [assumption|]. now intros _. }
    destruct Hstep as [Hinv Hon].
    destruct (IH _ Hcv Hinv) as [H1 H2]. split; [exact H1|].
    intros [[->|Hin]|H].
    + apply H2. right. apply Hon. now left.
    + apply H2. now left.
    + apply H2. right. apply Hon. now right.
Qed.

(** Once a frame has run, the character of [Game] is on the canvas and
    stays there, whatever keys are pressed and released and however many
    frames follow; its speed stays 5 and its boundary stays the canvas. *)
Theorem game_character_stays_on_canvas (cv : Canvas.t) (es : list Game.event) :
  canvas_sized cv ->
  In Game.AnimationFrame es ->
  let g := Game.run (Game.constructor cv) es in
  on_canvas cv (Game.character g) /\
  Character.boundary (Game.character g) = canvas_boundary cv /\
  Character.speed (Game.character g) = 5.
Proof.
  intros Hcv Hin g.
  destruct (run_invariant cv es _ Hcv (constructor_invariant cv)) as [Hinv Hon].
  split; [apply Hon; now left|].
  destruct Hinv as (_ & _ & Hb & Hs & _). now split.
Qed.

Lemma game_character_stays_on_canvas_witness :
  on_canvas (Canvas.mk 300 150)
    (Game.character
       (Game.run (Game.constructor (Canvas.mk 300 150))
                 [Game.KeyDown "ArrowRight"; Game.AnimationFrame; Game.KeyUp "ArrowRight"])).
Proof.
  apply (game_character_stays_on_canvas (Canvas.mk 300 150)
           [Game.KeyDown "ArrowRight"; Game.AnimationFrame; Game.KeyUp "ArrowRight"]).
  - repeat split; reflexivity.
  - cbn. tauto.
Defined.




(** One frame of a character of the game heading along an axis. *)
Lemma frame_forward hi p :
  fle 0 p -> fle p hi -> is_finite p = true ->
  feq (clamp 0 hi (p + 0.08)) (Math.min hi (p + 0.08)).
Proof.
  intros H0 Hh Hp. unfold clamp. apply max_inside.
  pose proof (is_finite_number _ Hp) as Np.
  assert (Hge : fle p (p + 0.08)).
  { apply add_nonneg_ge; [assumption|now left|reflexivity]. }
  destruct (fle_number _ _ Hh) as [_ Nhi].
  destruct (fle_number _ _ Hge) as [_ Nv].
  destruct (min_cases hi (p + 0.08) Nhi Nv) as [[-> _]|[-> _]];
    eauto using fle_trans.
Qed.

Lemma frame_backward hi p :
  fle 0 p -> fle p hi -> is_finite p = true ->
  feq (clamp 0 hi (p + -0.08)) (Math.max 0 (p + -0.08)).
Proof.
  intros H0 Hh Hp. unfold clamp. apply max_feq; [reflexivity|].
  apply min_inside.
  pose proof (is_finite_number _ Hp) as Np.
  assert (Hle : fle (p + -0.08) p).
  { apply add_nonpos_le; [assumption|now left|reflexivity]. }
  eauto using fle_trans.
Qed.

Lemma frame_still hi p :
  fle 0 p -> fle p hi -> feq (clamp 0 hi (p + 0)) p.
Proof.
  intros H0 Hh. destruct (fle_number _ _ H0) as [_ Np].
  destruct (fle_number _ _ Hh) as [_ Nhi].
  eapply feq_trans.
  - apply clamp_feq; [reflexivity|assumption|].
    apply add_zero; [assumption|reflexivity].
  - now apply clamp_inside.
Qed.

(** The pace of [Game]: with an arrow key just pressed, one turn of the
    game loop moves a character that is on the canvas by 0.08 along the axis
    of the key (5 units per second at 16 ms per frame), stopping at the edge
    of the canvas, and leaves the other coordinate as it is. *)
Theorem game_frame_step (cv : Canvas.t) (es : list Game.event) :
  canvas_sized cv ->
  In Game.AnimationFrame es ->
  let g := Game.run (Game.constructor cv) es in
  let c := Game.character g in
  let after key :=
    Game.character (Game.run g [Game.KeyDown key; Game.AnimationFrame]) in
  (feq (Character.x (after "ArrowRight"%string))
       (Math.min (Canvas.width cv) (Character.x c + 0.08)) /\
   feq (Character.y (after "ArrowRight"%string)) (Character.y c)) /\
  (feq (Character.x (after "ArrowLeft"%string))
       (Math.max 0 (Character.x c + -0.08)) /\
   feq (Character.y (after "ArrowLeft"%string)) (Character.y c)) /\
  (feq (Character.x (after "ArrowDown"%string)) (Character.x c) /\
   feq (Character.y (after "ArrowDown"%string))
       (Math.min (Canvas.height cv) (Character.y c + 0.08))) /\
  (feq (Character.x (after "ArrowUp"%string)) (Character.x c) /\
   feq (Character.y (after "ArrowUp"%string))
       (Math.max 0 (Character.y c + -0.08))).
Proof.
  intros Hcv Hin g c after.
  destruct (run_invariant cv es _ Hcv (constructor_invariant cv)) as [Hinv Hon].
  fold g in Hinv, Hon. specialize (Hon (or_introl Hin)).
  destruct Hinv as (_ & _ & Hb & Hs & Hx & Hy & _).
  apply inside_iff in Hon as [[X1 X2] [Y1 Y2]].
  cbn [canvas_boundary Boundary.minX Boundary.maxX Boundary.minY Boundary.maxY] in *.
  fold c in Hb, Hs, Hx, Hy, X1, X2, Y1, Y2.
  unfold after. cbn [Game.run fold_left Game.handle].
  rewrite !keydown_arrow by reflexivity. fold c.
  unfold Game.gameLoop, Game.update, Character.update.
  cbn [fst Game.with_character Game.character Character.x Character.y
       Character.speed Character.direction Character.boundary arrow_vector
       String.eqb Ascii.eqb Bool.eqb Vec.x Vec.y].
  rewrite Hb, Hs.
  cbn [canvas_boundary Boundary.minX Boundary.maxX Boundary.minY Boundary.maxY].
  change (1 * 5 * (16 / 1000)) with 0.08.
  change (-1 * 5 * (16 / 1000)) with (-0.08).
  change (0 * 5 * (16 / 1000)) with 0.
  repeat split.
  all: first [ now apply frame_forward | now apply frame_backward
             | now apply frame_still ].
Qed.

Lemma game_frame_step_witness :
  let cv := Canvas.mk 800 600 in
  let g := Game.run (Game.constructor cv) [Game.AnimationFrame] in
  feq (Character.x
         (Game.character
            (Game.run g [Game.KeyDown "ArrowRight"; Game.AnimationFrame])))
      (Math.min 800 (Character.x (Game.character g) + 0.08)).
Proof.
  intros cv g.
  refine (proj1 (proj1 (game_frame_step cv [Game.AnimationFrame] _ _))).
  - repeat split; reflexivity.
  - now left.
Defined.

End GameLoop.

(** ** The fixed-step character of [src/unnamed/part_000] *)

Section FixedStepMoves.

Lemma feq_not_flt a b : feq a b -> (a <? b) = false /\ (b <? a) = false.
Proof.
  intros H. apply feq_fle in H as [H1 H2].
  split; now apply fle_not_flt.
Qed.

(** With a zero heading, [update] of the fixed-step character changes
    nothing at all: it does not clamp. *)
Lemma fixed_step_idle (c : Character.t) :
  is_zero_vector (Character.direction c) -> FixedStep.update c = c.
Proof.
  intros [Zx Zy]. destruct (feq_not_flt _ _ Zx) as [X1 X2].
  destruct (feq_not_flt _ _ Zy) as [Y1 Y2].
  unfold FixedStep.update. rewrite X1, X2, Y1, Y2. now destruct c.
Qed.

Lemma step_down lo hi q :
  fle lo q -> fle q hi ->
  fle lo (Math.max lo (q - 10)) /\ fle (Math.max lo (q - 10)) hi.
Proof.
  intros Hl Hh. destruct (fle_number _ _ Hl) as [Nlo Nq].
  assert (Hle : fle (q - 10) q).
  { apply sub_nonneg_le; [assumption|now right|reflexivity]. }
  destruct (fle_number _ _ Hle) as [Nv _].
  destruct (max_cases lo (q - 10) Nlo Nv) as [[-> H]|[-> H]]; split;
    eauto using fle_trans, fle_refl.
Qed.

Lemma step_up lo hi q :
  fle lo q -> fle q hi ->
  fle lo (Math.min hi (q + 10)) /\ fle (Math.min hi (q + 10)) hi.
Proof.
  intros Hl Hh. destruct (fle_number _ _ Hh) as [Nq Nhi].
  assert (Hge : fle q (q + 10)).
  { apply add_nonneg_ge; [assumption|now right|reflexivity]. }
  destruct (fle_number _ _ Hge) as [_ Nv].
  destruct (min_cases hi (q + 10) Nhi Nv) as [[-> H]|[-> H]]; split;
    eauto using fle_trans, fle_refl.
Qed.

Lemma fixed_axis_inside lo hi p d :
  fle lo p -> fle p hi ->
  let p1 := if d <? 0 then Math.max lo (p - 10) else p in
  let p2 := if 0 <? d then Math.min hi (p1 + 10) else p1 in
  fle lo p2 /\ fle p2 hi.
Proof.
  intros Hl Hh p1 p2.
  assert (H1 : fle lo p1 /\ fle p1 hi).
  { unfold p1. destruct (d <? 0); [now apply step_down|now split]. }
  unfold p2. destruct (0 <? d); [|exact H1]. now apply step_up.
Qed.

(** The fixed-step [update] keeps a character that is inside its
    boundary inside it, whatever the heading and the bounds (infinite ones
    included). *)
Theorem fixed_step_update_stays_inside (c : Character.t) :
  inside (Character.boundary c) (Character.x c) (Character.y c) = true ->
  inside (Character.boundary c) (Character.x (FixedStep.update c))
         (Character.y (FixedStep.update c)) = true.
Proof.
  rewrite !inside_iff. intros [[X1 X2] [Y1 Y2]].
  unfold FixedStep.update. cbn [Character.x Character.y].
  split; now apply fixed_axis_inside.
Qed.

Lemma fixed_step_update_stays_inside_witness :
  let c := FixedStep.setDirection
             (Character.constructor (Some 795) (Some 3) (Some 5000)
                                    (Some (Boundary.mk 0 800 0 600))) 1 (-1) in
  inside (Character.boundary c) (Character.x (FixedStep.update c))
         (Character.y (FixedStep.update c)) = true.
Proof.
  intros c. apply fixed_step_update_stays_inside. reflexivity.
Defined.

End FixedStepMoves.

(** ** The game of [src/unnamed/part_000] *)

Section FixedStepLoop.

Lemma fs_run_snoc g es e :
  FixedStepGame.run g (es ++ [e]) = FixedStepGame.handle (FixedStepGame.run g es) e.
Proof. unfold FixedStepGame.run. now rewrite fold_left_app. Qed.

Lemma is_down_snoc key es e :
  is_down key (es ++ [e]) =
  match e with
  | FixedStepGame.KeyDown k => if String.eqb k key then true else is_down key es
  | FixedStepGame.KeyUp k => if String.eqb k key then false else is_down key es
  | _ => is_down key es
  end.
Proof.
  unfold is_down. rewrite rev_unit. cbn [latest]. now destruct e.
Qed.

(** In the fixed-step game the flags of [this.keys] are the held arrow
    keys and the heading is the one they stand for, whatever the order of the
    presses and releases and whatever updates and resizes come between them:
    1 on an axis whose positive key (right, down) is held, -1 when only the
    negative key (left, up) is held, 0 when neither is.  Releasing one of two
    opposite keys hands the axis back to the other. *)
Theorem fixed_step_heading_follows_held_keys (cv : Canvas.t) (now0 now1 : float)
    (es : list FixedStepGame.event) :
  let g := FixedStepGame.run (FixedStepGame.constructor cv now0 now1) es in
  FixedStepGame.keys g =
    Keys.mk (is_down "ArrowUp" es) (is_down "ArrowDown" es)
            (is_down "ArrowLeft" es) (is_down "ArrowRight" es) /\
  Character.direction (FixedStepGame.character g) = held_heading es.
Proof.
  induction es as [|e es IH] using rev_ind; [split; reflexivity|].
  cbn zeta in *. rewrite fs_run_snoc.
  set (g := FixedStepGame.run _ es) in *. destruct IH as [Hk Hd].
  unfold held_heading in *. rewrite !is_down_snoc.
  destruct e as [key|key|cv1|now]; cbn [FixedStepGame.handle].
  - unfold FixedStepGame.keydown. change (Keys.hasOwnProperty key) with (is_arrow key).
    destruct (is_arrow key) eqn:E.
    + destruct (is_arrow_cases key E) as [-> | [-> | [-> | -> ]]];
        unfold FixedStepGame.updateCharacterDirection; cbn; rewrite Hk; cbn;
        split; reflexivity.
    + destruct (not_arrow_cases key E) as (H1 & H2 & H3 & H4).
      rewrite H1, H2, H3, H4. cbv iota. now split.
  - unfold FixedStepGame.keyup. change (Keys.hasOwnProperty key) with (is_arrow key).
    destruct (is_arrow key) eqn:E.
    + destruct (is_arrow_cases key E) as [-> | [-> | [-> | -> ]]];
        unfold FixedStepGame.updateCharacterDirection; cbn; rewrite Hk; cbn;
        split; reflexivity.
    + destruct (not_arrow_cases key E) as (H1 & H2 & H3 & H4).
      rewrite H1, H2, H3, H4. cbv iota. now split.
  - now split.
  - unfold FixedStepGame.update.
    destruct (1000 <=? now - FixedStepGame.lastFpsUpdate g); cbn; now split.
Qed.

Lemma fs_update_character g now :
  FixedStepGame.character (fst (FixedStepGame.update g now)) =
  FixedStep.update (FixedStepGame.character g).
Proof.
  unfold FixedStepGame.update.
  now destruct (1000 <=? now - FixedStepGame.lastFpsUpdate g).
Qed.

Lemma fs_key_character g key :
  let same c' :=
    Character.x c' = Character.x (FixedStepGame.character g) /\
    Character.y c' = Character.y (FixedStepGame.character g) /\
    Character.boundary c' = Character.boundary (FixedStepGame.character g) in
  same (FixedStepGame.character (FixedStepGame.keydown g key)) /\
  same (FixedStepGame.character (FixedStepGame.keyup g key)).
Proof.
  unfold FixedStepGame.keydown, FixedStepGame.keyup.
  destruct (Keys.hasOwnProperty key); cbn; auto.
Qed.

(** While no key is held, nothing moves the fixed-step character:
    neither a call of [update] nor a resize of the window changes its
    position, so a character that a resize has left outside the canvas stays
    outside until a key is pressed. *)
Theorem fixed_step_idle_never_moves (g : FixedStepGame.t)
    (es : list FixedStepGame.event) :
  is_zero_vector (Character.direction (FixedStepGame.character g)) ->
  forallb (fun e => negb (is_key_event e)) es = true ->
  Character.getPosition (FixedStepGame.character (FixedStepGame.run g es)) =
  Character.getPosition (FixedStepGame.character g).
Proof.
  revert g. induction es as [|e es IH]; intros g Hz Hes; [reflexivity|].
  cbn [forallb] in Hes. apply andb_true_iff in Hes as [He Hes].
  cbn [FixedStepGame.run fold_left]. fold (FixedStepGame.run (FixedStepGame.handle g e) es).
  destruct e as [key|key|cv1|now]; try discriminate; cbn [FixedStepGame.handle].
  - rewrite IH by assumption. reflexivity.
  - assert (Hc : FixedStepGame.character (fst (FixedStepGame.update g now)) =
                 FixedStepGame.character g).
    { rewrite fs_update_character. now apply fixed_step_idle. }
    rewrite IH; [now rewrite Hc| |assumption]. now rewrite Hc.
Qed.

Lemma fixed_step_idle_never_moves_witness :
  Character.getPosition
    (FixedStepGame.character
       (FixedStepGame.run (FixedStepGame.constructor (Canvas.mk 800 600) 0 0)
          [FixedStepGame.Resize (Canvas.mk 200 100); FixedStepGame.Update 16;
           FixedStepGame.Update 32])) =
  Vec.mk 400 300.
Proof.
  apply (fixed_step_idle_never_moves
           (FixedStepGame.constructor (Canvas.mk 800 600) 0 0)
           [FixedStepGame.Resize (Canvas.mk 200 100); FixedStepGame.Update 16;
            FixedStepGame.Update 32]).
  - split; reflexivity.
  - reflexivity.
Defined.

(** Without a resize of the window, the fixed-step character stays on a
    canvas that holds its starting position [(400, 300)], whatever keys are
    pressed and released and however many times [update] runs. *)
Theorem fixed_step_game_stays_on_canvas (cv : Canvas.t) (now0 now1 : float)
    (es : list FixedStepGame.event) :
  fle 400 (Canvas.width cv) -> fle 300 (Canvas.height cv) ->
  forallb (fun e => negb (is_resize e)) es = true ->
  on_canvas cv
    (FixedStepGame.character
       (FixedStepGame.run (FixedStepGame.constructor cv now0 now1) es)).
Proof.
  intros Hw Hh.
  assert (H0 : Character.boundary
                 (FixedStepGame.character (FixedStepGame.constructor cv now0 now1)) =
               canvas_boundary cv /\
               on_canvas cv
                 (FixedStepGame.character (FixedStepGame.constructor cv now0 now1))).
  { split; [reflexivity|]. apply inside_iff. cbn. repeat split; try assumption; reflexivity. }
  revert H0. generalize (FixedStepGame.constructor cv now0 now1).
  induction es as [|e es IH]; intros g [Hb Hon] Hes; [exact Hon|].
  cbn [forallb] in Hes. apply andb_true_iff in Hes as [He Hes].
  cbn [FixedStepGame.run fold_left]. fold (FixedStepGame.run (FixedStepGame.handle g e) es).
  apply IH; [|assumption].
  unfold on_canvas in *.
  destruct e as [key|key|cv1|now]; try discriminate; cbn [FixedStepGame.handle].
  - destruct (fs_key_character g key) as [(-> & -> & ->) _]. now split.
  - destruct (fs_key_character g key) as [_ (-> & -> & ->)]. now split.
  - rewrite fs_update_character. split; [exact Hb|].
    rewrite <- Hb in *. apply inside_iff in Hon as [[X1 X2] [Y1 Y2]].
    apply inside_iff. unfold FixedStep.update. cbn [Character.x Character.y].
    split; now apply fixed_axis_inside.
Qed.

Lemma fixed_step_game_stays_on_canvas_witness :
  on_canvas (Canvas.mk 800 600)
    (FixedStepGame.character
       (FixedStepGame.run (FixedStepGame.constructor (Canvas.mk 800 600) 0 0)
          [FixedStepGame.KeyDown "ArrowLeft"; FixedStepGame.Update 16;
           FixedStepGame.KeyDown "ArrowUp"; FixedStepGame.Update 32])).
Proof.
  apply (fixed_step_game_stays_on_canvas (Canvas.mk 800 600) 0 0
           [FixedStepGame.KeyDown "ArrowLeft"; FixedStepGame.Update 16;
            FixedStepGame.KeyDown "ArrowUp"; FixedStepGame.Update 32]);
    reflexivity.
Defined.

End FixedStepLoop.

(** ** The FPS counter *)

Section FramesPerSecond.

Lemma SFsub_ge_pos x y c :
  valid_binary x = true -> valid_binary y = true ->
  valid_binary (SF64sub x y) = true ->
  SFltb (S754_zero false) c = true ->
  SFleb c (SF64sub x y) = true ->
  SFltb y x = true.
Proof.
  intros Vx Vy Vr Pc Hc.
  assert (Hneg : forall r, SFleb r (S754_zero false) = true -> SFleb c r = false).
  { intros r Hr. destruct (SFleb c r) eqn:E; [|reflexivity].
    pose proof (SFleb_trans _ _ _ E Hr) as F.
    destruct c as [s|s| |s m e]; try discriminate; destruct s; discriminate. }
  destruct (SFis_finite x && SFis_finite y) eqn:F.
  - apply andb_true_iff in F as [Fx Fy].
    apply SFltb_value; try assumption.
    destruct (Z_lt_le_dec (SFvalue y) (SFvalue x)) as [L|L]; [exact L|exfalso].
    destruct (SFsub_le x y (S754_zero false) Vx Vy eq_refl Fx Fy eq_refl Vr) as [_ Down].
    rewrite (Hneg _ (Down ltac:(cbn [SFvalue]; lia))) in Hc. discriminate.
  - unfold SF64sub in Hc.
    destruct x as [sx|sx| |sx mx ex], y as [sy|sy| |sy my ey];
      try discriminate F; cbn [SFsub] in Hc;
      try destruct sx; try destruct sy; cbn [negb] in Hc; try reflexivity;
      try (rewrite (Hneg _ eq_refl) in Hc; discriminate Hc);
      destruct c as [[]|[]| |[]]; discriminate.
Qed.

Lemma sub_ge_pos a b c : flt 0 c -> fle c (a - b) -> flt b a.
Proof.
  unfold flt, fle. rewrite !ltb_spec, leb_spec.
  pose proof (Prim2SF_valid (a - b)) as Vr. rewrite sub_spec in *.
  change (Prim2SF 0) with (S754_zero false).
  apply SFsub_ge_pos; auto using Prim2SF_valid.
Qed.

Lemma fs_update_refresh g now :
  let g' := fst (FixedStepGame.update g now) in
  (FixedStepGame.lastFpsUpdate g' = FixedStepGame.lastFpsUpdate g /\
   FixedStepGame.fps g' = FixedStepGame.fps g /\
   (1000 <=? now - FixedStepGame.lastFpsUpdate g) = false) \/
  (FixedStepGame.lastFpsUpdate g' = now /\
   FixedStepGame.fps g' = FixedStepGame.frameCount g + 1 /\
   FixedStepGame.frameCount g' = 0 /\
   flt (FixedStepGame.lastFpsUpdate g) now).
Proof.
  unfold FixedStepGame.update.
  destruct (1000 <=? now - FixedStepGame.lastFpsUpdate g) eqn:E; cbn; [right|left; auto].
  repeat split. apply (sub_ge_pos _ _ 1000); [reflexivity|exact E].
Qed.

(** The time of the last refresh of the FPS counter never moves
    backwards, whatever clock readings the calls of [update] receive (readings
    that go back in time, infinities and [NaN] included): a refresh happens
    only at a reading strictly later than the previous refresh. *)
Theorem fps_refresh_never_goes_back (g : FixedStepGame.t)
    (es : list FixedStepGame.event) :
  is_nan (FixedStepGame.lastFpsUpdate g) = false ->
  fle (FixedStepGame.lastFpsUpdate g)
      (FixedStepGame.lastFpsUpdate (FixedStepGame.run g es)).
Proof.
  intros Hn.
  enough (H : forall t, fle t (FixedStepGame.lastFpsUpdate g) ->
                        fle t (FixedStepGame.lastFpsUpdate (FixedStepGame.run g es)))
    by (apply H; now apply fle_refl).
  revert g Hn. induction es as [|e es IH]; intros g Hn t Ht; [exact Ht|].
  cbn [FixedStepGame.run fold_left]. fold (FixedStepGame.run (FixedStepGame.handle g e) es).
  assert (Hstep : fle (FixedStepGame.lastFpsUpdate g)
                      (FixedStepGame.lastFpsUpdate (FixedStepGame.handle g e))).
  { destruct e as [key|key|cv1|now]; cbn [FixedStepGame.handle].
    - unfold FixedStepGame.keydown. destruct (Keys.hasOwnProperty key); now apply fle_refl.
    - unfold FixedStepGame.keyup. destruct (Keys.hasOwnProperty key); now apply fle_refl.
    - now apply fle_refl.
    - destruct (fs_update_refresh g now) as [(-> & _)|(-> & _ & _ & H)].
      + now apply fle_refl.
      + now apply flt_fle. }
  apply IH.
  - now destruct (fle_number _ _ Hstep).
  - eapply fle_trans; eassumption.
Qed.

Lemma fps_refresh_never_goes_back_witness :
  fle 1000
      (FixedStepGame.lastFpsUpdate
         (FixedStepGame.run (FixedStepGame.constructor (Canvas.mk 800 600) 1000 1000)
            [FixedStepGame.Update 2500; FixedStepGame.Update 100;
             FixedStepGame.Update nan])).
Proof.
  apply (fps_refresh_never_goes_back
           (FixedStepGame.constructor (Canvas.mk 800 600) 1000 1000)
           [FixedStepGame.Update 2500; FixedStepGame.Update 100;
            FixedStepGame.Update nan]).
  reflexivity.
Defined.

End FramesPerSecond.

Section FrameCounter.

Lemma exact_of_value f n :
  is_finite f = true -> SFvalue (Prim2SF f) = (n * 2 ^ 1074)%Z ->
  exists q, exact f = Some q /\ (q == inject_Z n)%Q.
Proof.
  rewrite is_finite_SF. unfold exact. pose proof (Prim2SF_valid f) as V.
  assert (HP : (0 < 2 ^ 1074)%Z) by (apply pow2_gt0; lia).
  destruct (Prim2SF f) as [s|s| |s m e]; try discriminate; intros _ Hv.
  - cbn [SFvalue] in Hv. assert (n = 0%Z) by nia. subst n.
    exists 0%Q. split; reflexivity.
  - destruct (valid_finite_bounds _ _ _ V) as (_ & He & _).
    cbn [SFvalue] in Hv.
    assert (Hv' : (cond_Zopp s (Z.pos m) * 2 ^ (e + 1074) = n * 2 ^ 1074)%Z).
    { rewrite <- Hv. destruct s; cbn [cond_Zopp]; lia. }
    clear Hv. eexists. split; [reflexivity|].
    destruct e as [|p|p].
    + unfold Qeq, inject_Z. cbn [Qnum Qden]. change (0 + 1074)%Z with 1074%Z in Hv'. nia.
    + unfold Qeq, inject_Z. cbn [Qnum Qden].
      rewrite (pow2_split (Z.pos p)) in Hv' by lia. nia.
    + unfold Qeq, inject_Z. cbn [Qnum Qden]. rewrite Pos2Z.inj_pow.
      assert (H2 : (2 ^ 1074 = 2 ^ Z.pos p * 2 ^ (Z.neg p + 1074))%Z).
      { rewrite <- pow2_split by lia. f_equal. lia. }
      assert (HQ : (0 < 2 ^ (Z.neg p + 1074))%Z) by (apply pow2_gt0; lia).
      rewrite H2 in Hv'. nia.
Qed.

(** A double that holds the integer [k]. *)
Lemma add_one_counts f k :
  (0 <= k < 2 ^ 53)%Z ->
  is_finite f = true /\ SFvalue (Prim2SF f) = (k * 2 ^ 1074)%Z ->
  is_finite (f + 1) = true /\ SFvalue (Prim2SF (f + 1)) = ((k + 1) * 2 ^ 1074)%Z.
Proof.
  rewrite !is_finite_SF, add_spec. intros Hk [Hf Hv].
  change (Prim2SF 1) with (S754_finite false 4503599627370496 (-52)).
  apply SFadd_one_exact; auto using Prim2SF_valid.
Qed.

Lemma frames_counted es : forall g k,
  no_refresh_due (FixedStepGame.lastFpsUpdate g) es ->
  (0 <= k)%Z -> (k + Z.of_nat (update_count es) < 2 ^ 53)%Z ->
  is_finite (FixedStepGame.frameCount g) = true /\
  SFvalue (Prim2SF (FixedStepGame.frameCount g)) = (k * 2 ^ 1074)%Z ->
  let g' := FixedStepGame.run g es in
  FixedStepGame.lastFpsUpdate g' = FixedStepGame.lastFpsUpdate g /\
  FixedStepGame.fps g' = FixedStepGame.fps g /\
  is_finite (FixedStepGame.frameCount g') = true /\
  SFvalue (Prim2SF (FixedStepGame.frameCount g')) =
    ((k + Z.of_nat (update_count es)) * 2 ^ 1074)%Z.
Proof.
  induction es as [|e es IH]; intros g k Hdue Hk Hlt Hc g'.
  - subst g'. cbn. rewrite Z.add_0_r. tauto.
  - subst g'. cbn [FixedStepGame.run fold_left].
    fold (FixedStepGame.run (FixedStepGame.handle g e) es).
    inversion Hdue as [|e' es' He Hes]; subst.
    destruct e as [key|key|cv1|now].
    + assert (Hsame : FixedStepGame.lastFpsUpdate (FixedStepGame.handle g (FixedStepGame.KeyDown key)) = FixedStepGame.lastFpsUpdate g /\
                      FixedStepGame.fps (FixedStepGame.handle g (FixedStepGame.KeyDown key)) = FixedStepGame.fps g /\
                      FixedStepGame.frameCount (FixedStepGame.handle g (FixedStepGame.KeyDown key)) = FixedStepGame.frameCount g).
      { cbn [FixedStepGame.handle]. unfold FixedStepGame.keydown.
        destruct (Keys.hasOwnProperty key); cbn; auto. }
      destruct Hsame as (E1 & E2 & E3).
      rewrite <- E1, <- E2. apply IH; rewrite ?E1, ?E3; assumption.
    + assert (Hsame : FixedStepGame.lastFpsUpdate (FixedStepGame.handle g (FixedStepGame.KeyUp key)) = FixedStepGame.lastFpsUpdate g /\
                      FixedStepGame.fps (FixedStepGame.handle g (FixedStepGame.KeyUp key)) = FixedStepGame.fps g /\
                      FixedStepGame.frameCount (FixedStepGame.handle g (FixedStepGame.KeyUp key)) = FixedStepGame.frameCount g).
      { cbn [FixedStepGame.handle]. unfold FixedStepGame.keyup.
        destruct (Keys.hasOwnProperty key); cbn; auto. }
      destruct Hsame as (E1 & E2 & E3).
      rewrite <- E1, <- E2. apply IH; rewrite ?E1, ?E3; assumption.
    + exact (IH (FixedStepGame.handle g (FixedStepGame.Resize cv1)) k Hes Hk Hlt Hc).
    + cbn [FixedStepGame.handle]. unfold FixedStepGame.update. rewrite He. cbn [fst].
      set (g1 := FixedStepGame.mk _ _ _ _ _ _ _ _).
      assert (Hn : update_count (FixedStepGame.Update now :: es) = S (update_count es))
        by reflexivity.
      rewrite Hn, Nat2Z.inj_succ in *.
      replace (k + Z.succ (Z.of_nat (update_count es)))%Z
        with ((k + 1) + Z.of_nat (update_count es))%Z by lia.
      apply (IH g1 (k + 1)%Z); try assumption; try lia.
      apply add_one_counts; [lia|exact Hc].
Qed.

(** The FPS counter counts frames exactly.  From a state whose frame
    count is 0 (a new game, or one whose counter has just been refreshed),
    after any events during which no refresh falls due, the call of [update]
    at which a refresh is due sets [fps] to the number of calls of [update]
    since the count was 0, this one included, as an exact integer (up to
    [2^53] frames); it resets the frame count to 0 and records the clock
    reading. *)
Theorem fps_counts_frames (g : FixedStepGame.t) (es : list FixedStepGame.event)
    (now : float) :
  FixedStepGame.frameCount g = 0 ->
  no_refresh_due (FixedStepGame.lastFpsUpdate g) es ->
  (1000 <=? now - FixedStepGame.lastFpsUpdate g) = true ->
  (Z.of_nat (update_count es) + 1 < 2 ^ 53)%Z ->
  let g' := FixedStepGame.run g (es ++ [FixedStepGame.Update now]) in
  (exists q, exact (FixedStepGame.fps g') = Some q /\
             (q == inject_Z (Z.of_nat (update_count es) + 1))%Q) /\
  FixedStepGame.frameCount g' = 0 /\
  FixedStepGame.lastFpsUpdate g' = now.
Proof.
  intros H0 Hdue Hnow Hlt g'. subst g'. rewrite fs_run_snoc.
  destruct (frames_counted es g 0%Z Hdue) as (E1 & _ & Hf & Hv); try lia.
  { rewrite H0. split; reflexivity. }
  cbn [FixedStepGame.handle]. unfold FixedStepGame.update.
  rewrite E1, Hnow. cbn [fst FixedStepGame.fps FixedStepGame.frameCount
                         FixedStepGame.lastFpsUpdate].
  split; [|split; reflexivity].
  destruct (add_one_counts (FixedStepGame.frameCount (FixedStepGame.run g es))
              (Z.of_nat (update_count es))) as [A1 A2]; [lia|split; [exact Hf|]|].
  - rewrite Hv. f_equal.
  - now apply exact_of_value.
Qed.

Lemma fps_counts_frames_witness :
  let g := FixedStepGame.run (FixedStepGame.constructor (Canvas.mk 800 600) 0 0)
             ([FixedStepGame.Update 16; FixedStepGame.KeyDown "ArrowLeft";
               FixedStepGame.Update 32] ++ [FixedStepGame.Update 1001]) in
  exists q, exact (FixedStepGame.fps g) = Some q /\ (q == 3)%Q.
Proof.
  intros g.
  refine (proj1 (fps_counts_frames
            (FixedStepGame.constructor (Canvas.mk 800 600) 0 0)
            [FixedStepGame.Update 16; FixedStepGame.KeyDown "ArrowLeft";
             FixedStepGame.Update 32] 1001 _ _ _ _)).
  - reflexivity.
  - repeat constructor.
  - reflexivity.
  - vm_compute. reflexivity.
Defined.

End FrameCounter.
